(** * prometheus/cache: CachedTGatherer

    A shallow embedding of [src/prometheus/cache/cache.go] and the properties
    of [Key.isValid], [Key.hash], [CachedTGatherer.Update] and
    [CachedTGatherer.Gather].

    Go pointers ([*dto.Metric], [*dto.MetricFamily]) are locations in two
    append-only heaps, so that in-place mutation of a record that is reachable
    from several places behaves as it does in the program. *)

From Stdlib Require Import ZArith List Strings.String Strings.Ascii Strings.Byte Lia Bool.
From Stdlib Require Import Floats.PrimFloat.
From stdpp Require Import base gmap strings list fin_maps.

Local Open Scope Z_scope.

(** ** The 64-bit digest of [github.com/cespare/xxhash/v2]

    [xxhash.New()] followed by [Write]/[WriteString] calls and [Sum64] gives the
    XXH64 digest (seed 0) of the concatenation of what was written.  A digest
    in progress is the list of bytes written so far. *)
Module XXH64.

Definition prime1 : Z := 11400714785074694791.
Definition prime2 : Z := 14029467366897019727.
Definition prime3 : Z := 1609587929392839161.
Definition prime4 : Z := 9650029242287828579.
Definition prime5 : Z := 2870177450012600261.

(** uint64 arithmetic wraps around. *)
Definition u64 (x : Z) : Z := x mod 2 ^ 64.

Definition rol (r : Z) (x : Z) : Z :=
  u64 (Z.lor (Z.shiftl x r) (Z.shiftr x (64 - r))).

Definition round (acc input : Z) : Z :=
  u64 (rol 31 (u64 (acc + input * prime2)) * prime1).

Definition mergeRound (acc val : Z) : Z :=
  u64 (Z.lxor acc (round 0 val) * prime1 + prime4).

(** Little-endian load of the first [n] bytes of [b]. *)
Fixpoint le (n : nat) (b : list byte) : Z :=
  match n, b with
  | S n', x :: b' => Z.of_N (Byte.to_N x) + 256 * le n' b'
  | _, _ => 0
  end.

Record lanes := Lanes { v1 : Z; v2 : Z; v3 : Z; v4 : Z }.

Definition lanes0 : lanes :=
  Lanes (u64 (prime1 + prime2)) prime2 0 (u64 (- prime1)).

(** Consume whole 32-byte blocks; what is left (fewer than 32 bytes) stays in
    the digest's buffer. *)
Fixpoint blocks (fuel : nat) (v : lanes) (b : list byte) : lanes * list byte :=
  match fuel with
  | O => (v, b)
  | S fuel' =>
      if (32 <=? length b)%nat then
        blocks fuel'
          (Lanes (round (v1 v) (le 8 b))
                 (round (v2 v) (le 8 (drop 8 b)))
                 (round (v3 v) (le 8 (drop 16 b)))
                 (round (v4 v) (le 8 (drop 24 b))))
          (drop 32 b)
      else (v, b)
  end.

Fixpoint tail8 (fuel : nat) (h : Z) (b : list byte) : Z * list byte :=
  match fuel with
  | O => (h, b)
  | S fuel' =>
      if (8 <=? length b)%nat then
        tail8 fuel'
          (u64 (rol 27 (Z.lxor h (round 0 (le 8 b))) * prime1 + prime4))
          (drop 8 b)
      else (h, b)
  end.

Definition tail4 (h : Z) (b : list byte) : Z * list byte :=
  if (4 <=? length b)%nat then
    (u64 (rol 23 (Z.lxor h (u64 (le 4 b * prime1))) * prime2 + prime3),
     drop 4 b)
  else (h, b).

Fixpoint tail1 (h : Z) (b : list byte) : Z :=
  match b with
  | [] => h
  | x :: b' =>
      tail1 (u64 (rol 11 (Z.lxor h (u64 (Z.of_N (Byte.to_N x) * prime5)))
                  * prime1)) b'
  end.

Definition avalanche (h : Z) : Z :=
  let h := Z.lxor h (Z.shiftr h 33) in
  let h := u64 (h * prime2) in
  let h := Z.lxor h (Z.shiftr h 29) in
  let h := u64 (h * prime3) in
  Z.lxor h (Z.shiftr h 32).

Definition Sum64 (written : list byte) : Z :=
  let total := Z.of_nat (length written) in
  let '(v, mem) := blocks (length written) lanes0 written in
  let h :=
    if 32 <=? total then
      let h := u64 (rol 1 (v1 v) + rol 7 (v2 v) + rol 12 (v3 v) + rol 18 (v4 v)) in
      mergeRound (mergeRound (mergeRound (mergeRound h (v1 v)) (v2 v)) (v3 v)) (v4 v)
    else u64 (v3 v + prime5) in
  let h := u64 (h + total) in
  let '(h, mem) := tail8 (length mem) h mem in
  let '(h, mem) := tail4 h mem in
  avalanche (tail1 h mem).

(** The streaming interface used by [Key.hash]. *)
Definition Digest := list byte.
Definition New : Digest := [].
Definition Write (d : Digest) (b : list byte) : Digest := d ++ b.
Definition WriteString (d : Digest) (s : string) : Digest :=
  d ++ list_byte_of_string s.

End XXH64.

(** ** Imported types

    Only what [cache.go] touches of [prometheus], [dto] (client_model) and
    [time] is represented. *)

Module prometheus.

(** [type ValueType int] with the three named constants; [OtherValue n]
    stands for an int [n] that is none of them (the zero value, for one). *)
Inductive ValueType :=
| CounterValue
| GaugeValue
| UntypedValue
| OtherValue (n : Z).

End prometheus.

Module dto.

Inductive MetricType := COUNTER | GAUGE | UNTYPED.

End dto.

(** Modelled from the spec: [ValueType.ToDTO] (prometheus/value.go is not part
    of the sources at hand).  The spec says the family's kind is set to the
    insert's kind; a kind outside the three is given [UNTYPED]. *)
Definition ToDTO (v : prometheus.ValueType) : dto.MetricType :=
  match v with
  | prometheus.CounterValue => dto.COUNTER
  | prometheus.GaugeValue => dto.GAUGE
  | _ => dto.UNTYPED
  end.

(** A Go pointer: an index into the heap of its pointee type. *)
Definition loc := nat.

(** [dto.Metric].  [Counter], [Gauge] and [Untyped] are pointers to one-field
    messages in Go; only their [Value] is written here, so each is the value
    it holds, [None] for a nil pointer. *)
Module Metric.
Record t := Make {
  Label : list (string * string);
  Gauge : option float;
  Counter : option float;
  Untyped : option float;
  TimestampMs : option Z
}.
End Metric.

(** [dto.MetricFamily]; [Metric] is the slice of member pointers. *)
Module MetricFamily.
Record t := Make {
  Name : option string;
  Help : option string;
  Type_ : option dto.MetricType;           (* Go: Type *)
  Metric : list loc
}.
End MetricFamily.

#[export] Instance Metric_inhabited : Inhabited Metric.t :=
  populate (Metric.Make [] None None None None).
#[export] Instance MetricFamily_inhabited : Inhabited MetricFamily.t :=
  populate (MetricFamily.Make None None None []).

(** [time.Time], seen through [Unix()] and [Nanosecond()]. *)
Record Time := { Unix : Z; Nanosecond : Z }.

(** ** Key and Insert *)

Record Key := {
  FQName : string;
  LabelNames : list string;
  LabelValues : list string
}.

Record Insert := {
  key : Key;                 (* the embedded Key *)
  Help : string;
  ValueType : prometheus.ValueType;
  Value : float;
  Timestamp : option Time
}.

(** Go's [error] values produced by this file; a nil error is [None]. *)
#[warnings="-register-all"]
Inductive error :=
| errEmptyFQName                                        (* "FQName cannot be empty" *)
| errLabelLength                (* "new metric: label name has different length than values" *)
| errUnsupportedValueType (v : prometheus.ValueType)    (* "unsupported value type %v" *)
| errNoFamily (name : string) (values : list string)    (* "... metric family does not exists" *)
| errNoMember (name : string) (values : list string)    (* "... does not have such metric" *)
| MultiError (errs : list error).                       (* prometheus.MultiError *)

(** Modelled from the spec: [MultiError.MaybeUnwrap] (prometheus/registry.go is
    not part of the sources at hand): the soft errors of a call are combined
    into one returned aggregate error, nil when there is none. *)
Definition MaybeUnwrap (errs : list error) : option error :=
  match errs with
  | [] => None
  | _ => Some (MultiError errs)
  end.

Definition isValid (k : Key) : option error :=
  if String.eqb (FQName k) "" then Some errEmptyFQName
  else if negb (length (LabelNames k) =? length (LabelValues k))%nat
       then Some errLabelLength
       else None.

(** [model.SeparatorByte] *)
Definition separatorByteSlice : list byte := [xff].

(** The loop of [hash]: [i] ranges over [LabelNames], and [LabelValues[i]]
    panics (index out of range) when the values run out: [None]. *)
Fixpoint writeLabels (h : XXH64.Digest) (names values : list string)
  : option XXH64.Digest :=
  match names with
  | [] => Some h
  | n :: names' =>
      let h := XXH64.Write (XXH64.WriteString h n) separatorByteSlice in
      match values with
      | [] => None
      | v :: values' =>
          writeLabels (XXH64.Write (XXH64.WriteString h v) separatorByteSlice)
                      names' values'
      end
  end.

Definition hash (k : Key) : option Z :=
  let h := XXH64.New in
  let h := XXH64.WriteString h (FQName k) in
  let h := XXH64.Write h separatorByteSlice in
  h ← writeLabels h (LabelNames k) (LabelValues k);
  Some (XXH64.Sum64 h).

(** The label pairs built for a new metric, in the order supplied; the same
    indexing as in [hash]. *)
Fixpoint labelPairs (names values : list string) : option (list (string * string)) :=
  match names with
  | [] => Some []
  | n :: names' =>
      match values with
      | [] => None
      | v :: values' => cons (n, v) <$> labelPairs names' values'
      end
  end.

(** Modelled from the spec: [sort.Sort(internal.LabelPairSorter(..))]
    (prometheus/internal is not part of the sources at hand): the stored label
    pairs are sorted by label name. *)
Fixpoint insertLabel (p : string * string) (l : list (string * string))
  : list (string * string) :=
  match l with
  | [] => [p]
  | q :: l' => if String.ltb (fst q) (fst p) then q :: insertLabel p l'
               else p :: q :: l'
  end.

Definition sortLabels (l : list (string * string)) : list (string * string) :=
  foldr insertLabel [] l.

(** ** The cache, the heap and the locals of [Update] *)

(** [mMu] is not represented: [Update] runs start to end under the exclusive
    lock, so it is a function of the state it finds.  The two maps are
    allocated maps, as [NewCachedTGatherer] makes them and as [Update] leaves
    them: the nil maps of a zero-value receiver, on which the write at line
    153 panics, are not represented. *)
Record CachedTGatherer := {
  metrics : gmap Z loc;
  metricFamilyByName : gmap string loc
}.

Definition NewCachedTGatherer : CachedTGatherer :=
  {| metrics := ∅; metricFamilyByName := ∅ |}.

(** What a call finds and leaves: the records behind the pointers, and the
    receiver. *)
Record State := {
  metricHeap : list Metric.t;
  familyHeap : list MetricFamily.t;
  cache : CachedTGatherer
}.

(** A running [Update].  [c] holds the receiver's two fields.  Go maps are
    references: without reset [currMetrics] and [currMetricFamilies] ARE the
    receiver's maps, so a write through them is a write to [c]; under reset
    they are the two maps made at the start, kept in [made]. *)
Record Frame := {
  mheap : list Metric.t;
  fheap : list MetricFamily.t;
  c : CachedTGatherer;
  made : CachedTGatherer;
  errs : list error
}.

Definition curr (reset : bool) (fr : Frame) : CachedTGatherer :=
  if reset then made fr else c fr.

Definition currMetrics (reset : bool) (fr : Frame) : gmap Z loc :=
  metrics (curr reset fr).

Definition currMetricFamilies (reset : bool) (fr : Frame) : gmap string loc :=
  metricFamilyByName (curr reset fr).

Definition set_curr (reset : bool) (g : CachedTGatherer) (fr : Frame) : Frame :=
  if reset
  then {| mheap := mheap fr; fheap := fheap fr; c := c fr; made := g; errs := errs fr |}
  else {| mheap := mheap fr; fheap := fheap fr; c := g; made := made fr; errs := errs fr |}.

Definition set_currMetrics (reset : bool) (m : gmap Z loc) (fr : Frame) : Frame :=
  set_curr reset
    {| metrics := m; metricFamilyByName := currMetricFamilies reset fr |} fr.

Definition set_currMetricFamilies (reset : bool) (m : gmap string loc) (fr : Frame)
  : Frame :=
  set_curr reset {| metrics := currMetrics reset fr; metricFamilyByName := m |} fr.

Definition set_mheap (h : list Metric.t) (fr : Frame) : Frame :=
  {| mheap := h; fheap := fheap fr; c := c fr; made := made fr; errs := errs fr |}.

Definition set_fheap (h : list MetricFamily.t) (fr : Frame) : Frame :=
  {| mheap := mheap fr; fheap := h; c := c fr; made := made fr; errs := errs fr |}.

(** [errs.Append(err)] *)
Definition appendErr (e : error) (fr : Frame) : Frame :=
  {| mheap := mheap fr; fheap := fheap fr; c := c fr; made := made fr;
     errs := errs fr ++ [e] |}.

(** Reading and writing through a pointer.  The pointers held by the indexes
    are always allocated (see [Inv]); [!!!] gives the zero record elsewhere. *)
Definition metricAt (fr : Frame) (m : loc) : Metric.t := mheap fr !!! m.
Definition familyAt (fr : Frame) (mf : loc) : MetricFamily.t := fheap fr !!! mf.

Definition storeMetric (m : loc) (x : Metric.t) (fr : Frame) : Frame :=
  set_mheap (<[m := x]> (mheap fr)) fr.

Definition storeFamily (mf : loc) (x : MetricFamily.t) (fr : Frame) : Frame :=
  set_fheap (<[mf := x]> (fheap fr)) fr.

(** [&dto.Metric{..}] and [&dto.MetricFamily{..}] *)
Definition newMetric (x : Metric.t) (fr : Frame) : loc * Frame :=
  (length (mheap fr), set_mheap (mheap fr ++ [x]) fr).

Definition newFamily (x : MetricFamily.t) (fr : Frame) : loc * Frame :=
  (length (fheap fr), set_fheap (fheap fr ++ [x]) fr).

(** [mf.Metric = s] *)
Definition setMembers (mf : loc) (s : list loc) (fr : Frame) : Frame :=
  let f := familyAt fr mf in
  storeFamily mf
    (MetricFamily.Make (MetricFamily.Name f) (MetricFamily.Help f)
                       (MetricFamily.Type_ f) s) fr.

(** [mf.Type = t; mf.Help = &help] *)
Definition setTypeHelp (mf : loc) (t : dto.MetricType) (help : string) (fr : Frame)
  : Frame :=
  let f := familyAt fr mf in
  storeFamily mf
    (MetricFamily.Make (MetricFamily.Name f) (Some help) (Some t)
                       (MetricFamily.Metric f)) fr.

(** The [switch] on the value type: the arm that matches is set and the two
    others are cleared; [None] is the [default] case, which writes nothing. *)
Definition setValue (vt : prometheus.ValueType) (v : float) (x : Metric.t)
  : option Metric.t :=
  match vt with
  | prometheus.CounterValue =>
      Some (Metric.Make (Metric.Label x) None (Some v) None (Metric.TimestampMs x))
  | prometheus.GaugeValue =>
      Some (Metric.Make (Metric.Label x) (Some v) None None (Metric.TimestampMs x))
  | prometheus.UntypedValue =>
      Some (Metric.Make (Metric.Label x) None None (Some v) (Metric.TimestampMs x))
  | prometheus.OtherValue _ => None
  end.

(** int64 arithmetic wraps around. *)
Definition int64 (x : Z) : Z := (x + 2 ^ 63) mod 2 ^ 64 - 2 ^ 63.

(** [m.TimestampMs = nil], then the millisecond epoch when a timestamp is
    given. *)
Definition setTimestamp (ts : option Time) (x : Metric.t) : Metric.t :=
  Metric.Make (Metric.Label x) (Metric.Gauge x) (Metric.Counter x) (Metric.Untyped x)
    (match ts with
     | None => None
     | Some t => Some (int64 (Unix t * 1000 + Z.quot (Nanosecond t) 1000000))
     end).

(** How one iteration of a loop of [Update] ends: [continue] or the end of the
    body, the early [return], or a run-time panic. *)
Inductive Outcome :=
| Next (fr : Frame)
| Return (fr : Frame) (e : error)
| Panic.

(** The frame an iteration leaves, if it did not panic. *)
Definition frameOf (o : Outcome) : option Frame :=
  match o with
  | Next fr | Return fr _ => Some fr
  | Panic => None
  end.

(** The body of [for i := range inserts]. *)
Definition insertOne (reset : bool) (ins : Insert) (fr : Frame) : Outcome :=
  match isValid (key ins) with
  | Some err => Next (appendErr err fr)
  | None =>
      (* Update metric family. *)
      let '(mf, fr) :=
        match metricFamilyByName (c fr) !! FQName (key ins) with
        | None =>
            newFamily (MetricFamily.Make (Some (FQName (key ins))) None None []) fr
        | Some mf =>
            (mf, if reset then setMembers mf [] fr else fr)
        end in
      let fr := setTypeHelp mf (ToDTO (ValueType ins)) (Help ins) fr in
      let fr := set_currMetricFamilies reset
                  (<[FQName (key ins) := mf]> (currMetricFamilies reset fr)) fr in
      (* Update metric pointer. *)
      match hash (key ins) with
      | None => Panic
      | Some hSum =>
          let found := metrics (c fr) !! hSum in
          let created :=
            match found with
            | Some m => Some (m, fr)
            | None =>
                labels ← labelPairs (LabelNames (key ins)) (LabelValues (key ins));
                Some (newMetric (Metric.Make (sortLabels labels) None None None None) fr)
            end in
          match created with
          | None => Panic
          | Some (m, fr) =>
              match setValue (ValueType ins) (Value ins) (metricAt fr m) with
              | None => Return fr (errUnsupportedValueType (ValueType ins))
              | Some x =>
                  let fr := storeMetric m (setTimestamp (Timestamp ins) x) fr in
                  let fr := set_currMetrics reset (<[hSum := m]> (currMetrics reset fr)) fr in
                  if negb reset && bool_decide (is_Some found) then Next fr
                  else
                    Next (setMembers mf (MetricFamily.Metric (familyAt fr mf) ++ [m]) fr)
              end
          end
      end
  end.

Fixpoint insertLoop (reset : bool) (inserts : list Insert) (fr : Frame) : Outcome :=
  match inserts with
  | [] => Next fr
  | ins :: rest =>
      match insertOne reset ins fr with
      | Next fr' => insertLoop reset rest fr'
      | stop => stop
      end
  end.

(** The search [for i := range mf.Metric]: the first index holding the pointer
    [m]; [None] is [toDel == -1]. *)
Fixpoint indexOf (m : loc) (s : list loc) : option nat :=
  match s with
  | [] => None
  | x :: s' => if Nat.eqb x m then Some O else S <$> indexOf m s'
  end.

(** The body of [for _, del := range deletions]; [None] is a panic. *)
Definition deleteOne (reset : bool) (del : Key) (fr : Frame) : option Frame :=
  match isValid del with
  | Some err => Some (appendErr err fr)
  | None =>
      hSum ← hash del;
      match currMetrics reset fr !! hSum with
      | None => Some fr
      | Some m =>
          let fr := set_currMetrics reset (delete hSum (currMetrics reset fr)) fr in
          match currMetricFamilies reset fr !! FQName del with
          | None =>
              (* Impossible, but well... *)
              Some (appendErr (errNoFamily (FQName del) (LabelValues del)) fr)
          | Some mf =>
              let s := MetricFamily.Metric (familyAt fr mf) in
              match indexOf m s with
              | None => Some (appendErr (errNoMember (FQName del) (LabelValues del)) fr)
              | Some toDel =>
                  if (length s =? 1)%nat then
                    Some (set_currMetricFamilies reset
                            (delete (FQName del) (currMetricFamilies reset fr)) fr)
                  else
                    Some (setMembers mf (take toDel s ++ drop (S toDel) s) fr)
              end
          end
      end
  end.

Fixpoint deleteLoop (reset : bool) (deletions : list Key) (fr : Frame) : option Frame :=
  match deletions with
  | [] => Some fr
  | del :: rest => fr' ← deleteOne reset del fr; deleteLoop reset rest fr'
  end.

(** The frame [Update] starts from, and the states it can leave. *)
Definition enter (st : State) : Frame :=
  {| mheap := metricHeap st; fheap := familyHeap st; c := cache st;
     made := NewCachedTGatherer; errs := [] |}.

Definition leaveEarly (fr : Frame) : State :=
  {| metricHeap := mheap fr; familyHeap := fheap fr; cache := c fr |}.

Definition leave (reset : bool) (fr : Frame) : State :=
  {| metricHeap := mheap fr; familyHeap := fheap fr;
     cache := {| metrics := currMetrics reset fr;
                 metricFamilyByName := currMetricFamilies reset fr |} |}.

(** [Update]: [None] is a panic; otherwise the state left behind and the
    returned error.  On the early return the receiver's fields are not
    reassigned; at the end they are set to the working maps. *)
Definition Update (reset : bool) (inserts : list Insert) (deletions : list Key)
    (st : State) : option (State * option error) :=
  match insertLoop reset inserts (enter st) with
  | Panic => None
  | Return fr e => Some (leaveEarly fr, Some e)
  | Next fr =>
      fr ← deleteLoop reset deletions fr;
      Some (leave reset fr, MaybeUnwrap (errs fr))
  end.

(** The members of the family behind a pointer. *)
Definition membersAt (fh : list MetricFamily.t) (mf : loc) : list loc :=
  MetricFamily.Metric (fh !!! mf).

(** ** Gather *)

(** Lexicographic order on label-value sequences. *)
Fixpoint values_ltb (a b : list string) : bool :=
  match a, b with
  | _, [] => false
  | [], _ :: _ => true
  | x :: a', y :: b' =>
      if String.ltb x y then true
      else if String.ltb y x then false
      else values_ltb a' b'
  end.

Definition labelValuesOf (h : list Metric.t) (m : loc) : list string :=
  snd <$> Metric.Label (h !!! m).

Fixpoint insertMember (h : list Metric.t) (m : loc) (s : list loc) : list loc :=
  match s with
  | [] => [m]
  | x :: s' =>
      if values_ltb (labelValuesOf h m) (labelValuesOf h x) then m :: x :: s'
      else x :: insertMember h m s'
  end.

Fixpoint insertName (p : string * loc) (l : list (string * loc)) : list (string * loc) :=
  match l with
  | [] => [p]
  | q :: l' => if String.ltb (fst p) (fst q) then p :: q :: l' else q :: insertName p l'
  end.

(** Modelled from the spec: [internal.NormalizeMetricFamilies]
    (prometheus/internal is not part of the sources at hand).  The view
    presents the families in lexicographic order of their names and, within a
    family, the members by their label values; it references the live records
    (the members are reordered in the stored family, nothing is copied). *)
Definition NormalizeMetricFamilies (mh : list Metric.t) (fh : list MetricFamily.t)
    (byName : gmap string loc) : list MetricFamily.t * list loc :=
  let entries := foldr insertName [] (map_to_list byName) in
  (foldr (fun mf fh =>
            let f := fh !!! mf in
            <[mf := MetricFamily.Make (MetricFamily.Name f) (MetricFamily.Help f)
                      (MetricFamily.Type_ f)
                      (foldr (insertMember mh) [] (MetricFamily.Metric f))]> fh)
         fh (snd <$> entries),
   snd <$> entries).

(** [Gather]: the state it leaves and the view, a sequence of family pointers.
    The release handle and the nil error are not represented. *)
Definition Gather (st : State) : State * list loc :=
  let '(fh, view) :=
    NormalizeMetricFamilies (metricHeap st) (familyHeap st)
                            (metricFamilyByName (cache st)) in
  ({| metricHeap := metricHeap st; familyHeap := fh; cache := cache st |}, view).

(** The metrics a view shows. *)
Definition viewMetrics (st : State) (view : list loc) : list loc :=
  mf ← view; membersAt (familyHeap st) mf.

(** ** Properties of a state *)

(** A freshly created cache with nothing allocated. *)
Definition emptyState : State :=
  {| metricHeap := []; familyHeap := []; cache := NewCachedTGatherer |}.

(** A reference to the metric [m]: position [i] of the members of the family
    that the by-name index holds under [name]. *)
Definition refersTo (st : State) (name : string) (i : nat) (m : loc) : Prop :=
  ∃ mf, metricFamilyByName (cache st) !! name = Some mf
        ∧ membersAt (familyHeap st) mf !! i = Some m.

(** A state from its four parts. *)
Definition mkState (mh : list Metric.t) (fh : list MetricFamily.t)
    (ms : gmap Z loc) (fs : gmap string loc) : State :=
  {| metricHeap := mh; familyHeap := fh;
     cache := {| metrics := ms; metricFamilyByName := fs |} |}.

(** The two indexes agree: a metric of the by-hash index is referenced exactly
    once from the members of the families, and every member is a metric of the
    by-hash index. *)
Definition consistent (st : State) : Prop :=
  (∀ h m, metrics (cache st) !! h = Some m →
          ∃ name i, refersTo st name i m
                    ∧ ∀ name' i', refersTo st name' i' m → name' = name ∧ i' = i)
  ∧ (∀ name i m, refersTo st name i m → ∃ h, metrics (cache st) !! h = Some m).

(** No family of the by-name index is without members. *)
Definition familiesNonEmpty (st : State) : Prop :=
  ∀ name mf, metricFamilyByName (cache st) !! name = Some mf →
             membersAt (familyHeap st) mf ≠ [].

(** Keys whose hashes do not confuse two family names. *)
Definition collisionFree (K : list Key) : Prop :=
  ∀ k1 k2 h, k1 ∈ K → k2 ∈ K → hash k1 = Some h → hash k2 = Some h →
             FQName k1 = FQName k2.

(** What the insert and delete paths of [Update] rely on (the comments at
    "we know metric pointer exists in metric family map" and "Impossible, but
    well..."), for a cache whose entries were made from the keys [K]: pointers
    are allocated, no record is shared between two entries, the metric under
    the hash of a key is a member of the family under the key's name, and
    members are metrics of the by-hash index, each listed once. *)
Record Inv (K : list Key) (st : State) : Prop := {
  inv_metric_alloc : ∀ h m, metrics (cache st) !! h = Some m →
                            (m < length (metricHeap st))%nat;
  inv_family_alloc : ∀ n mf, metricFamilyByName (cache st) !! n = Some mf →
                             (mf < length (familyHeap st))%nat;
  inv_metric_inj : ∀ h1 h2 m, metrics (cache st) !! h1 = Some m →
                              metrics (cache st) !! h2 = Some m → h1 = h2;
  inv_family_inj : ∀ n1 n2 mf, metricFamilyByName (cache st) !! n1 = Some mf →
                               metricFamilyByName (cache st) !! n2 = Some mf →
                               n1 = n2;
  inv_owner : ∀ h m, metrics (cache st) !! h = Some m →
                     ∃ k mf, k ∈ K ∧ hash k = Some h
                             ∧ metricFamilyByName (cache st) !! FQName k = Some mf
                             ∧ m ∈ membersAt (familyHeap st) mf;
  inv_member : ∀ n mf m, metricFamilyByName (cache st) !! n = Some mf →
                         m ∈ membersAt (familyHeap st) mf →
                         ∃ h, metrics (cache st) !! h = Some m;
  inv_nodup : ∀ n mf, metricFamilyByName (cache st) !! n = Some mf →
                      NoDup (membersAt (familyHeap st) mf);
  inv_disjoint : ∀ n1 n2 mf1 mf2 m,
      metricFamilyByName (cache st) !! n1 = Some mf1 →
      metricFamilyByName (cache st) !! n2 = Some mf2 →
      m ∈ membersAt (familyHeap st) mf1 → m ∈ membersAt (familyHeap st) mf2 →
      n1 = n2
}.

Definition supported (v : prometheus.ValueType) : bool :=
  match v with
  | prometheus.OtherValue _ => false
  | _ => true
  end.

(** An insert that reaches the [default] case of the switch: its key passes
    validation and its value type is none of the three. *)
Definition aborting (ins : Insert) : bool :=
  match isValid (key ins) with
  | None => negb (supported (ValueType ins))
  | Some _ => false
  end.

(** The bytes [hash] digests, in the spec's words: the name, a separator, then
    each label name and label value, each followed by a separator. *)
Definition hashInput (name : string) (pairs : list (string * string)) : list byte :=
  list_byte_of_string name ++ separatorByteSlice
  ++ (p ← pairs; list_byte_of_string p.1 ++ separatorByteSlice
                 ++ list_byte_of_string p.2 ++ separatorByteSlice).

(** The validation errors of a batch, in the order in which [Update] meets
    them. *)
Definition validationErrors (inserts : list Insert) (deletions : list Key)
  : list error :=
  omap (λ ins, isValid (key ins)) inserts ++ omap isValid deletions.

(** The state a call left, for chaining calls in examples. *)
Definition stateAfter (r : option (State * option error)) : State :=
  match r with
  | Some (st, _) => st
  | None => emptyState
  end.

(** ** Vocabulary for whole calls *)

(** The hash under which [Update] handles a key: none for a key that fails
    validation, which is skipped before it is hashed. *)
Definition keyHash (k : Key) : option Z :=
  match isValid k with
  | None => hash k
  | Some _ => None
  end.

Definition hashSet (o : option Z) : gset Z :=
  match o with
  | Some h => {[h]}
  | None => ∅
  end.

Definition hashesOf (keys : list Key) : gset Z := list_to_set (omap keyHash keys).

(** What [hash] has written to the digest when it calls [Sum64]; [None] when
    the indexing of [LabelValues] panics first. *)
Definition written (k : Key) : option XXH64.Digest :=
  writeLabels
    (XXH64.Write (XXH64.WriteString XXH64.New (FQName k)) separatorByteSlice)
    (LabelNames k) (LabelValues k).

(** The separator occurs nowhere in the strings of a key. *)
(** A string without the separator byte (no valid UTF-8 text holds it). *)
Definition sepFree (s : string) : Prop := xff ∉ list_byte_of_string s.

(** The separator occurs nowhere in the strings of a key. *)
Definition sepFreeKey (k : Key) : Prop :=
  sepFree (FQName k) ∧ Forall sepFree (LabelNames k)
  ∧ Forall sepFree (LabelValues k).

(** What [hash] indexes: the pairs of the names with the values at the same
    positions, surplus values left out. *)
Definition hashedPairs (k : Key) : option (list (string * string)) :=
  labelPairs (LabelNames k) (LabelValues k).

(** How many of the three value arms of a metric are set. *)
Definition arms (x : Metric.t) : nat :=
  length (omap id [Metric.Gauge x; Metric.Counter x; Metric.Untyped x]).

(** Every metric of the by-hash index is allocated and has exactly one value
    arm set. *)
Definition oneArmEach (mh : list Metric.t) (ms : gmap Z loc) : Prop :=
  ∀ h m, ms !! h = Some m → (m < length mh)%nat ∧ arms (mh !!! m) = 1%nat.

(** Both pairs of maps of a frame. *)
Definition oneArmFrame (fr : Frame) : Prop :=
  oneArmEach (mheap fr) (metrics (c fr))
  ∧ oneArmEach (mheap fr) (metrics (made fr)).

(** A call of [Update] and a sequence of calls on one cache; a call that
    panics ends the run. *)
Record Call := {
  call_reset : bool;
  call_inserts : list Insert;
  call_deletions : list Key
}.

Fixpoint runUpdates (calls : list Call) (st : State) : option State :=
  match calls with
  | [] => Some st
  | cl :: rest =>
      r ← Update (call_reset cl) (call_inserts cl) (call_deletions cl) st;
      runUpdates rest r.1
  end.

(** A call that keeps the two indexes in step: it is made without reset, or it
    only clears the cache (reset with no inserts); its keys are among [K]. *)
Definition steadyCall (K : list Key) (cl : Call) : Prop :=
  (call_reset cl = true → call_inserts cl = [])
  ∧ Forall (λ ins, key ins ∈ K) (call_inserts cl)
  ∧ Forall (λ k, k ∈ K) (call_deletions cl).

Section indexes.
Context {A : Type} `{Countable A}.

(** An index points at allocated records, the first [n] of their heap, and
    at each record from one key only. *)
Definition indexSound (n : nat) (ms : gmap A loc) : Prop :=
  ∀ k m, ms !! k = Some m → (m < n)%nat ∧ ∀ k', ms !! k' = Some m → k' = k.

(** An entry of the working index is the receiver's entry for that key, or a
    record the receiver's index does not hold. *)
Definition reusedOrNew (old ms : gmap A loc) : Prop :=
  ∀ k m, ms !! k = Some m → old !! k = Some m ∨ ∀ k', old !! k' ≠ Some m.

End indexes.

(** The by-hash index points at allocated records, and at each record from
    one hash only; the same of the by-name index. *)
Definition metricsSound (mh : list Metric.t) (ms : gmap Z loc) : Prop :=
  indexSound (length mh) ms.

Definition familiesSound (fh : list MetricFamily.t) (fs : gmap string loc) : Prop :=
  indexSound (length fh) fs.

(** The same during a call, of the receiver's index and of the working one. *)
Definition soundFrame (reset : bool) (fr : Frame) : Prop :=
  metricsSound (mheap fr) (metrics (c fr))
  ∧ metricsSound (mheap fr) (currMetrics reset fr)
  ∧ reusedOrNew (metrics (c fr)) (currMetrics reset fr).

Definition soundFamilies (reset : bool) (fr : Frame) : Prop :=
  familiesSound (fheap fr) (metricFamilyByName (c fr))
  ∧ familiesSound (fheap fr) (currMetricFamilies reset fr)
  ∧ reusedOrNew (metricFamilyByName (c fr)) (currMetricFamilies reset fr).

(** The record shows the insert: the value under the arm of the insert's
    value type and nothing under the two others; no timestamp when the insert
    has none, else seconds * 1000 + nanoseconds / 1000000 (truncated), as an
    int64. *)
Definition shows (ins : Insert) (x : Metric.t) : Prop :=
  (Metric.Gauge x, Metric.Counter x, Metric.Untyped x)
  = match ValueType ins with
    | prometheus.CounterValue => (None, Some (Value ins), None)
    | prometheus.GaugeValue => (Some (Value ins), None, None)
    | prometheus.UntypedValue => (None, None, Some (Value ins))
    | prometheus.OtherValue _ => (None, None, None)
    end
  ∧ Metric.TimestampMs x
    = match Timestamp ins with
      | None => None
      | Some t =>
          Some ((Unix t * 1000 + Z.quot (Nanosecond t) 1000000 + 2 ^ 63)
                  mod 2 ^ 64 - 2 ^ 63)
      end.

(** The working index holds a record under [h] that shows the insert. *)
Definition shownAt (reset : bool) (h : Z) (ins : Insert) (fr : Frame) : Prop :=
  ∃ m, currMetrics reset fr !! h = Some m ∧ shows ins (mheap fr !!! m).

(** The family record shows the insert: its type and its help. *)
Definition familyShows (ins : Insert) (f : MetricFamily.t) : Prop :=
  MetricFamily.Type_ f = Some (ToDTO (ValueType ins))
  ∧ MetricFamily.Help f = Some (Help ins).

(** The family the working index holds under [n], if any, shows the insert. *)
Definition familyShownAt (reset : bool) (n : string) (ins : Insert) (fr : Frame)
  : Prop :=
  ∀ mf, currMetricFamilies reset fr !! n = Some mf →
        familyShows ins (fheap fr !!! mf).

(** The insert is applied to another family than [n], or not at all. *)
Definition otherFamily (n : string) (i : Insert) : Prop :=
  isValid (key i) = None → FQName (key i) ≠ n.

(** Under reset: the working by-hash index holds a metric under [h], and the
    family the working by-name index holds under [n] has that metric as its
    only member. *)
Definition loneMember (h : Z) (n : string) (fr : Frame) : Prop :=
  ∃ m mf, currMetrics true fr !! h = Some m
          ∧ currMetricFamilies true fr !! n = Some mf
          ∧ membersAt (fheap fr) mf = [m].

(** The family the by-name index holds under a name carries that name. *)
Definition namesAgree (fh : list MetricFamily.t) (fs : gmap string loc) : Prop :=
  ∀ n mf, fs !! n = Some mf → MetricFamily.Name (fh !!! mf) = Some n.

(** Every record of the index [ms] is the one that [old] holds under the same
    hash, or was made after the heap had [n] records. *)
Definition reusedOrMade (old : gmap Z loc) (n : nat) (ms : gmap Z loc) : Prop :=
  ∀ h m, ms !! h = Some m → old !! h = Some m ∨ (n ≤ m)%nat.

(** What one deletion can add to the recorded errors: its validation error
    when its key is invalid; for a valid key nothing, or one of the two errors
    of the branches the code calls impossible. *)
Definition deletionOutcome (del : Key) (o : option error) : Prop :=
  match isValid del with
  | Some e => o = Some e
  | None =>
      o = None
      ∨ o = Some (errNoFamily (FQName del) (LabelValues del))
      ∨ o = Some (errNoMember (FQName del) (LabelValues del))
  end.

(** Two frames that differ at most in the errors recorded so far. *)
Definition sameButErrs (a b : Frame) : Prop :=
  mheap a = mheap b ∧ fheap a = fheap b ∧ c a = c b ∧ made a = made b.

Definition sameButErrsOutcome (o1 o2 : Outcome) : Prop :=
  match o1, o2 with
  | Next a, Next b => sameButErrs a b
  | Return a e1, Return b e2 => sameButErrs a b ∧ e1 = e2
  | Panic, Panic => True
  | _, _ => False
  end.

(** Two frames of a call without reset that agree on all the call can still
    read, the records and the receiver's maps; the errors recorded in [a] are
    those of [b] behind [l]. *)
Definition sameCore (l : list error) (a b : Frame) : Prop :=
  leaveEarly a = leaveEarly b ∧ errs a = l ++ errs b.

Definition sameOutcome (l : list error) (o1 o2 : Outcome) : Prop :=
  match o1, o2 with
  | Next a, Next b => sameCore l a b
  | Return a e1, Return b e2 => sameCore l a b ∧ e1 = e2
  | Panic, Panic => True
  | _, _ => False
  end.

(** ** Sample inputs *)

Definition keyA (v : string) : Key :=
  {| FQName := "a"; LabelNames := ["l"%string]; LabelValues := [v] |}.

Definition gauge (k : Key) (v : float) : Insert :=
  {| key := k; Help := "help"; ValueType := prometheus.GaugeValue; Value := v;
     Timestamp := None |}.

(** An [Insert] whose [ValueType] was left at its zero value. *)
Definition zeroKind (k : Key) : Insert :=
  {| key := k; Help := "help"; ValueType := prometheus.OtherValue 0; Value := 1%float;
     Timestamp := None |}.

Definition noName : Key := {| FQName := ""; LabelNames := []; LabelValues := [] |}.

Definition keyXY : Key :=
  {| FQName := "a"; LabelNames := ["x"; "y"]%string; LabelValues := ["1"; "2"]%string |}.
Definition keyYX : Key :=
  {| FQName := "a"; LabelNames := ["y"; "x"]%string; LabelValues := ["2"; "1"]%string |}.

(** Two keys with a separator byte inside a string: ["a"] with the label
    [x = y.z] and ["a.x"] with the label [y = z], the dot standing for the
    byte 255. *)
Definition sepInValue : Key :=
  {| FQName := "a"; LabelNames := ["x"%string];
     LabelValues := [string_of_list_byte [x79; xff; x7a]] |}.
Definition sepInName : Key :=
  {| FQName := string_of_list_byte [x61; xff; x78]; LabelNames := ["y"%string];
     LabelValues := ["z"%string] |}.

(** The cache after one gauge ["a"{l="1"}] was inserted into an empty one. *)
Definition oneGauge : State :=
  stateAfter (Update false [gauge (keyA "1") 1] [] emptyState).

(** A cache holding two gauges of one family. *)
Definition twoGauges : State :=
  stateAfter (Update false [gauge (keyA "1") 1; gauge (keyA "2") 2] [] emptyState).

(** * Properties *)

(** Case analysis along the body of [insertOne]. *)
Ltac unfold_frame :=
  unfold set_currMetrics, set_currMetricFamilies, set_curr, currMetrics,
    currMetricFamilies, curr, setTypeHelp, setMembers, storeMetric, storeFamily,
    newMetric, newFamily, appendErr, set_mheap, set_fheap, metricAt, familyAt in *.

Ltac insertOne_cases :=
  unfold insertOne; unfold_frame;
  repeat (simpl;
    match goal with
    | |- context [ isValid ?k ] => destruct (isValid k) eqn:?
    | |- context [ metricFamilyByName ?g !! ?n ] =>
        destruct (metricFamilyByName g !! n) eqn:?
    | |- context [ hash ?k ] => destruct (hash k) eqn:?
    | |- context [ labelPairs ?a ?b ] => destruct (labelPairs a b) eqn:?
    | |- context [ metrics ?g !! ?h ] => destruct (metrics g !! h) eqn:?
    | |- context [ setValue ?a ?b ?x ] => destruct (setValue a b x) eqn:?
    end);
  simpl.


(** Case analysis along the body of [deleteOne]. *)
Ltac deleteOne_cases :=
  unfold deleteOne; unfold_frame;
  repeat (simpl;
    match goal with
    | |- context [ isValid ?k ] => destruct (isValid k) eqn:?
    | |- context [ hash ?k ] => destruct (hash k) eqn:?
    | |- context [ metrics ?g !! ?h ] => destruct (metrics g !! h) eqn:?
    | |- context [ metricFamilyByName ?g !! ?n ] =>
        destruct (metricFamilyByName g !! n) eqn:?
    | |- context [ indexOf ?m ?s ] => destruct (indexOf m s) eqn:?
    | |- context [ if ?b then _ else _ ] => destruct b eqn:?
    end);
  simpl.

(** ** The digest against the library's published test table *)

Example Sum64_empty : XXH64.Sum64 (list_byte_of_string "") = 0xef46db3751d8e999.
Proof. vm_compute. reflexivity. Qed.

Example Sum64_a : XXH64.Sum64 (list_byte_of_string "a") = 0xd24ec4f1a98c6e5b.
Proof. vm_compute. reflexivity. Qed.

Example Sum64_asdf : XXH64.Sum64 (list_byte_of_string "asdf") = 0x415872f599cea71e.
Proof. vm_compute. reflexivity. Qed.

Example Sum64_ishmael :
  XXH64.Sum64
    (list_byte_of_string
       "Call me Ishmael. Some years ago--never mind how long precisely-")
  = 0x02a2e85470d6fd96.
Proof. vm_compute. reflexivity. Qed.

(** ** Keys: validation and hashing *)

Lemma isValid_None_inv (k : Key) :
  isValid k = None →
  FQName k ≠ ""%string ∧ length (LabelNames k) = length (LabelValues k).
Proof.
  unfold isValid. destruct (String.eqb_spec (FQName k) "") as [|Hne]; [done|].
  destruct (Nat.eqb_spec (length (LabelNames k)) (length (LabelValues k)));
    simpl; intros; [split; assumption | discriminate].
Qed.

Lemma labelPairs_total (names values : list string) :
  length names = length values → is_Some (labelPairs names values).
Proof.
  revert values. induction names as [|n names IH]; intros [|v values] Hlen;
    simpl in *; try done.
  destruct (IH values) as [l Hl]; [lia|]. rewrite Hl. by eexists.
Qed.

Lemma writeLabels_pairs (d : XXH64.Digest) (names values : list string) :
  writeLabels d names values
  = (pairs ← labelPairs names values;
     Some (d ++ (p ← pairs; list_byte_of_string p.1 ++ separatorByteSlice
                            ++ list_byte_of_string p.2 ++ separatorByteSlice))).
Proof.
  revert d values. induction names as [|n names IH]; intros d values; simpl.
  - by rewrite app_nil_r.
  - destruct values as [|v values]; [done|]. rewrite IH.
    destruct (labelPairs names values) as [pairs|]; simpl; [|done].
    unfold XXH64.Write, XXH64.WriteString. f_equal.
    repeat (rewrite <- ?app_assoc; simpl). reflexivity.
Qed.

Lemma hash_hashInput (k : Key) :
  hash k = (pairs ← labelPairs (LabelNames k) (LabelValues k);
            Some (XXH64.Sum64 (hashInput (FQName k) pairs))).
Proof.
  unfold hash. rewrite writeLabels_pairs.
  destruct (labelPairs _ _) as [pairs|]; simpl; [|done].
  unfold hashInput, XXH64.Write, XXH64.WriteString, XXH64.New. simpl.
  by rewrite <- !app_assoc.
Qed.

Lemma hash_total (k : Key) : isValid k = None → is_Some (hash k).
Proof.
  intros [_ Hlen]%isValid_None_inv. rewrite hash_hashInput.
  destruct (labelPairs_total _ _ Hlen) as [l ->]. by eexists.
Qed.

(** ** The insert loop *)

Lemma setValue_supported vt v x : supported vt = true → is_Some (setValue vt v x).
Proof. destruct vt; simpl; intros; try discriminate; by eexists. Qed.

Lemma setValue_unsupported vt v x : supported vt = false → setValue vt v x = None.
Proof. destruct vt; simpl; intros; try discriminate; done. Qed.

(** An insert that does not reach the [default] case ends its iteration
    normally: no panic, no return. *)
Lemma insertOne_next reset ins fr :
  aborting ins = false → ∃ fr', insertOne reset ins fr = Next fr'.
Proof.
  unfold aborting, insertOne. destruct (isValid (key ins)) eqn:Hv; [by eexists|].
  intros Hs%negb_false_iff.
  destruct (hash_total _ Hv) as [h ->].
  destruct (isValid_None_inv _ Hv) as [_ Hlen].
  destruct (labelPairs_total _ _ Hlen) as [l ->].
  destruct (metricFamilyByName (c fr) !! FQName (key ins)) as [mf|]; simpl.
  all: repeat match goal with
       | |- context [ metrics ?g !! ?h ] => destruct (metrics g !! h); simpl
       | |- context [ setValue ?a ?b ?x ] =>
           destruct (setValue_supported a b x Hs) as [? ->]; simpl
       | |- context [ if ?b then _ else _ ] => destruct b; simpl
       end; by eexists.
Qed.

Lemma insertOne_return reset ins fr :
  aborting ins = true →
  ∃ fr', insertOne reset ins fr = Return fr' (errUnsupportedValueType (ValueType ins)).
Proof.
  unfold aborting, insertOne. destruct (isValid (key ins)) eqn:Hv; [done|].
  intros Hs%negb_true_iff.
  destruct (hash_total _ Hv) as [h ->].
  destruct (isValid_None_inv _ Hv) as [_ Hlen].
  destruct (labelPairs_total _ _ Hlen) as [l ->].
  destruct (metricFamilyByName (c fr) !! FQName (key ins)) as [mf|]; simpl.
  all: repeat match goal with
       | |- context [ metrics ?g !! ?h ] => destruct (metrics g !! h); simpl
       | |- context [ setValue ?a ?b ?x ] =>
           rewrite (setValue_unsupported a b x Hs); simpl
       end; by eexists.
Qed.

Lemma insertLoop_next reset inserts fr :
  forallb (λ i, negb (aborting i)) inserts = true →
  ∃ fr', insertLoop reset inserts fr = Next fr'.
Proof.
  revert fr. induction inserts as [|ins rest IH]; intros fr H; simpl in *.
  - by eexists.
  - apply andb_true_iff in H as [Hi Hrest]. apply negb_true_iff in Hi.
    destruct (insertOne_next reset ins fr Hi) as [fr1 ->]. by apply IH.
Qed.

Lemma insertLoop_app reset pre post fr fr' :
  insertLoop reset pre fr = Next fr' →
  insertLoop reset (pre ++ post) fr = insertLoop reset post fr'.
Proof.
  revert fr. induction pre as [|ins pre IH]; intros fr H; simpl in *.
  - by injection H as ->.
  - destruct (insertOne reset ins fr); try done. by apply IH.
Qed.

Lemma deleteOne_total reset del fr : is_Some (deleteOne reset del fr).
Proof.
  unfold deleteOne. destruct (isValid del) eqn:Hv; [by eexists|].
  destruct (hash_total _ Hv) as [h ->]. simpl.
  repeat match goal with
         | |- is_Some (Some _) => by eexists
         | |- context [ match ?x with _ => _ end ] => destruct x; simpl
         end.
Qed.

Lemma deleteLoop_total reset deletions fr : is_Some (deleteLoop reset deletions fr).
Proof.
  revert fr. induction deletions as [|del rest IH]; intros fr; simpl; [by eexists|].
  destruct (deleteOne_total reset del fr) as [fr' ->]. simpl. apply IH.
Qed.

(** X3.  The index expressions [LabelValues[i]] of [hash] and of the label
    loop of [Update] are never out of range, whatever the batch and the
    cache: both are reached only with a key that passed validation, so a key
    with fewer label values than label names gives a soft error and not a
    run-time panic.  ([None] stands for that panic; the receiver's maps are
    allocated.) *)
Lemma Update_total reset inserts deletions st :
  is_Some (Update reset inserts deletions st).
Proof.
  unfold Update.
  destruct (insertLoop reset inserts (enter st)) as [fr|fr e|] eqn:Hloop.
  - destruct (deleteLoop_total reset deletions fr) as [fr' ->]. by eexists.
  - by eexists.
  - exfalso. revert Hloop. generalize (enter st).
    induction inserts as [|ins rest IH]; intros fr; simpl; [done|].
    destruct (aborting ins) eqn:Ha.
    + by destruct (insertOne_return reset ins fr Ha) as [fr1 ->].
    + destruct (insertOne_next reset ins fr Ha) as [fr1 ->]. apply IH.
Qed.

(** C4 (amended).  The first insert of a batch whose key passes validation
    and whose value type is none of Counter, Gauge, Untyped makes [Update]
    return at once with that single error: whatever soft errors the inserts
    before it recorded are not returned, and nothing after it is applied (the
    call ends exactly as if the batch stopped at that insert and had no
    deletions).  The inserts before it are those that do not abort: each has
    an invalid key or a supported value type. *)
Theorem Update_aborts_at_first_unsupported
    (reset : bool) (pre : list Insert) (ins : Insert) (post : list Insert)
    (deletions : list Key) (st : State) :
  forallb (λ i, negb (aborting i)) pre = true →
  isValid (key ins) = None →
  supported (ValueType ins) = false →
  ∃ st',
    Update reset (pre ++ ins :: post) deletions st
      = Some (st', Some (errUnsupportedValueType (ValueType ins)))
    ∧ Update reset (pre ++ [ins]) [] st
      = Some (st', Some (errUnsupportedValueType (ValueType ins))).
Proof.
  intros Hpre Hv Hs.
  destruct (insertLoop_next reset pre (enter st) Hpre) as [fr1 Hfr1].
  assert (Ha : aborting ins = true) by (unfold aborting; by rewrite Hv, Hs).
  destruct (insertOne_return reset ins fr1 Ha) as [fr2 Hfr2].
  exists (leaveEarly fr2). unfold Update.
  rewrite !(insertLoop_app _ _ _ _ _ Hfr1). simpl. by rewrite Hfr2.
Qed.

(** ** Under reset the receiver's maps are only read *)

Lemma insertOne_reset_c ins fr fr' :
  frameOf (insertOne true ins fr) = Some fr' → c fr' = c fr.
Proof. insertOne_cases; intros H; inversion H; reflexivity. Qed.

Lemma insertLoop_reset_c inserts fr fr' :
  frameOf (insertLoop true inserts fr) = Some fr' → c fr' = c fr.
Proof.
  revert fr. induction inserts as [|ins rest IH]; intros fr; simpl.
  - by intros [= ->].
  - destruct (insertOne true ins fr) as [fr1|fr1 e|] eqn:H1; simpl; intros H.
    + rewrite (IH _ H). apply (insertOne_reset_c ins). by rewrite H1.
    + injection H as <-. apply (insertOne_reset_c ins). by rewrite H1.
    + done.
Qed.

(** C10.  When [Update] is called with reset and returns the
    unsupported-value-type error, the receiver's two maps are what they were
    before the call: the final assignment of the working maps never ran, and
    under reset no insert writes to the receiver's maps.  (The records behind
    the pointers may have changed; the statement is about the maps.) *)
Theorem reset_abort_keeps_live_indexes
    (inserts : list Insert) (deletions : list Key) (st st' : State)
    (vt : prometheus.ValueType) :
  Update true inserts deletions st = Some (st', Some (errUnsupportedValueType vt)) →
  cache st' = cache st.
Proof.
  unfold Update.
  destruct (insertLoop true inserts (enter st)) as [fr|fr e|] eqn:Hloop; [| |done].
  - destruct (deleteLoop true deletions fr) as [fr2|]; simpl; [|done].
    intros [= _ Herr]. by destruct (errs fr2).
  - intros [= <- _]. simpl.
    apply (insertLoop_reset_c inserts (enter st)). by rewrite Hloop.
Qed.

(** C9.  [Update] with reset, no inserts and no deletions returns a nil
    error and leaves both indexes empty, whatever the cache held before; a
    [Gather] afterwards yields no family, hence no metric, and changes
    nothing. *)
Theorem reset_with_empty_batch_empties_cache (st : State) :
  ∃ st',
    Update true [] [] st = Some (st', None)
    ∧ metrics (cache st') = ∅
    ∧ metricFamilyByName (cache st') = ∅
    ∧ Gather st' = (st', [])
    ∧ viewMetrics (Gather st').1 (Gather st').2 = [].
Proof.
  eexists. split; [reflexivity|]. simpl.
  split; [reflexivity|]. split; [reflexivity|]. split; reflexivity.
Qed.

(** ** Soft errors *)

(** The insert loop records validation errors and nothing else. *)
Lemma insertOne_errs reset ins fr fr' :
  insertOne reset ins fr = Next fr' →
  errs fr' = errs fr ++ option_list (isValid (key ins)).
Proof.
  destruct reset; insertOne_cases; intros H; inversion H; simpl;
    by rewrite ?app_nil_r.
Qed.

Lemma insertLoop_errs reset inserts fr fr' :
  insertLoop reset inserts fr = Next fr' →
  errs fr' = errs fr ++ omap (λ i, isValid (key i)) inserts.
Proof.
  revert fr. induction inserts as [|ins rest IH]; intros fr; simpl.
  - intros [= ->]. by rewrite app_nil_r.
  - destruct (insertOne reset ins fr) as [fr1| |] eqn:H1; try done.
    intros H. rewrite (IH _ H), (insertOne_errs _ _ _ _ H1), <- app_assoc.
    by destruct (isValid (key ins)).
Qed.

(** What the deletion loop records: for every deletion at most one error,
    the validation error of an invalid key and for a valid key nothing or one
    of the two errors of the branches the code calls impossible. *)
Lemma deleteOne_outcome reset del fr fr' :
  deleteOne reset del fr = Some fr' →
  ∃ o, errs fr' = errs fr ++ option_list o ∧ deletionOutcome del o.
Proof.
  unfold deletionOutcome.
  destruct reset; deleteOne_cases; intros H; inversion H; simpl;
    first [ by exists None; rewrite app_nil_r; auto
          | by eexists (Some _); split; [reflexivity|]; auto ].
Qed.

Lemma deleteLoop_outcome reset deletions fr fr' :
  deleteLoop reset deletions fr = Some fr' →
  ∃ os, errs fr' = errs fr ++ omap id os ∧ Forall2 deletionOutcome deletions os.
Proof.
  revert fr. induction deletions as [|del rest IH]; intros fr; simpl.
  - intros [= ->]. exists []. by rewrite app_nil_r.
  - destruct (deleteOne reset del fr) as [fr1|] eqn:H1; simpl; [|done].
    intros H. destruct (deleteOne_outcome _ _ _ _ H1) as (o & E1 & Ho).
    destruct (IH _ H) as (os & E2 & Hos).
    exists (o :: os). split; [|by constructor].
    rewrite E2, E1, <- app_assoc. by destruct o.
Qed.

(** The errors recorded so far have no influence on what the loops do. *)
Lemma insertOne_sameButErrs reset ins a b :
  sameButErrs a b →
  sameButErrsOutcome (insertOne reset ins a) (insertOne reset ins b).
Proof.
  intros (Hm & Hf & Hc & Hd).
  destruct a as [mh fh ca ma ea], b as [mh' fh' cb mb eb].
  simpl in *. subst.
  destruct reset; insertOne_cases; unfold sameButErrs; simpl; done.
Qed.

Lemma deleteOne_sameButErrs reset del a b a' :
  sameButErrs a b → deleteOne reset del a = Some a' →
  ∃ b', deleteOne reset del b = Some b' ∧ sameButErrs a' b'.
Proof.
  intros (Hm & Hf & Hc & Hd).
  destruct a as [mh fh ca ma ea], b as [mh' fh' cb mb eb].
  simpl in *. subst.
  destruct reset; deleteOne_cases; intros [= <-]; eexists;
    (split; [reflexivity|]); unfold sameButErrs; simpl; done.
Qed.

Lemma insertLoop_sameButErrs reset inserts a b :
  sameButErrs a b →
  sameButErrsOutcome (insertLoop reset inserts a) (insertLoop reset inserts b).
Proof.
  revert a b. induction inserts as [|ins rest IH]; intros a b H; simpl; [done|].
  pose proof (insertOne_sameButErrs reset ins a b H) as H1.
  destruct (insertOne reset ins a), (insertOne reset ins b); simpl in *; try done.
  by apply IH.
Qed.

Lemma deleteLoop_sameButErrs reset deletions a b a' :
  sameButErrs a b → deleteLoop reset deletions a = Some a' →
  ∃ b', deleteLoop reset deletions b = Some b' ∧ sameButErrs a' b'.
Proof.
  revert a b. induction deletions as [|d rest IH]; intros a b H; simpl.
  - intros [= <-]. by exists b.
  - destruct (deleteOne reset d a) as [a1|] eqn:H1; simpl; [|done].
    destruct (deleteOne_sameButErrs reset d a b a1 H H1) as (b1 & -> & Hab).
    simpl. by apply IH.
Qed.

Lemma sameButErrs_refl a : sameButErrs a a.
Proof. done. Qed.

Lemma sameButErrs_leave reset a b :
  sameButErrs a b → leave reset a = leave reset b.
Proof.
  intros (Hm & Hf & Hc & Hd). unfold leave, currMetrics, currMetricFamilies, curr.
  destruct reset; congruence.
Qed.

Lemma sameButErrs_leaveEarly a b :
  sameButErrs a b → leaveEarly a = leaveEarly b.
Proof. intros (Hm & Hf & Hc & Hd). unfold leaveEarly. congruence. Qed.


Lemma insertLoop_app_any reset pre post fr :
  insertLoop reset (pre ++ post) fr
  = match insertLoop reset pre fr with
    | Next fr1 => insertLoop reset post fr1
    | stop => stop
    end.
Proof.
  revert fr. induction pre as [|i rest IH]; intros fr; simpl.
  - by destruct (insertLoop reset post fr).
  - destruct (insertOne reset i fr); try done.
Qed.

Lemma deleteLoop_app reset pre post fr :
  deleteLoop reset (pre ++ post) fr
  = fr1 ← deleteLoop reset pre fr; deleteLoop reset post fr1.
Proof.
  revert fr. induction pre as [|d rest IH]; intros fr; simpl; [done|].
  destruct (deleteOne reset d fr); simpl; [apply IH|done].
Qed.

(** After the insert loop: two related outcomes give the same state. *)
Lemma finish_sameButErrs reset deletions o1 o2 :
  sameButErrsOutcome o1 o2 →
  fst <$> (match o1 with
           | Panic => None
           | Return fr e => Some (leaveEarly fr, Some e)
           | Next fr =>
               fr ← deleteLoop reset deletions fr;
               Some (leave reset fr, MaybeUnwrap (errs fr))
           end)
  = fst <$> (match o2 with
             | Panic => None
             | Return fr e => Some (leaveEarly fr, Some e)
             | Next fr =>
                 fr ← deleteLoop reset deletions fr;
                 Some (leave reset fr, MaybeUnwrap (errs fr))
             end).
Proof.
  destruct o1 as [a|a e1|], o2 as [b|b e2|]; simpl; try done.
  - intros H. destruct (deleteLoop reset deletions a) as [a'|] eqn:Ha; simpl.
    + destruct (deleteLoop_sameButErrs _ _ _ _ _ H Ha) as (b' & -> & H').
      simpl. by rewrite (sameButErrs_leave _ _ _ H').
    + destruct (deleteLoop_total reset deletions a) as [? ?]. congruence.
  - intros [H _]. by rewrite (sameButErrs_leaveEarly _ _ H).
Qed.

(** C7.  A key that fails validation, in an insert or in a deletion, ends its
    iteration at once: the loop goes on with the rest of the batch from a
    frame that differs only by the error appended to [errs] (heaps, receiver
    maps and working maps are untouched).  For the whole call: the state
    [Update] leaves is the state it leaves for the batch without that insert,
    or without that deletion.  A call that does not abort returns
    [MaybeUnwrap] of exactly the errors recorded: the validation errors of the
    inserts in order, then for every deletion at most one error, its
    validation error if its key is invalid; so with valid insert keys and no
    deletions the call returns nil. *)
Theorem invalid_key_is_soft_error (reset : bool) (k : Key) (e : error) :
  isValid k = Some e →
  (∀ fr ins rest, key ins = k →
     insertOne reset ins fr = Next (appendErr e fr)
     ∧ insertLoop reset (ins :: rest) fr = insertLoop reset rest (appendErr e fr))
  ∧ (∀ fr rest,
       deleteOne reset k fr = Some (appendErr e fr)
       ∧ deleteLoop reset (k :: rest) fr = deleteLoop reset rest (appendErr e fr))
  ∧ (∀ fr,
       mheap (appendErr e fr) = mheap fr ∧ fheap (appendErr e fr) = fheap fr
       ∧ c (appendErr e fr) = c fr ∧ made (appendErr e fr) = made fr
       ∧ errs (appendErr e fr) = errs fr ++ [e])
  ∧ (∀ ins pre post deletions st, key ins = k →
       fst <$> Update reset (pre ++ ins :: post) deletions st
       = fst <$> Update reset (pre ++ post) deletions st)
  ∧ (∀ inserts pre post st,
       fst <$> Update reset inserts (pre ++ k :: post) st
       = fst <$> Update reset inserts (pre ++ post) st)
  ∧ (∀ inserts deletions st,
       forallb (λ i, negb (aborting i)) inserts = true →
       ∃ st' os,
         Update reset inserts deletions st
         = Some (st', MaybeUnwrap (omap (λ i, isValid (key i)) inserts
                                   ++ omap id os))
         ∧ Forall2 deletionOutcome deletions os)
  ∧ (∀ inserts st,
       forallb (λ i, negb (aborting i)) inserts = true →
       Forall (λ i, isValid (key i) = None) inserts →
       ∃ st', Update reset inserts [] st = Some (st', None)).
Proof.
  intros Hk.
  assert (Hins : ∀ fr ins, key ins = k →
            insertOne reset ins fr = Next (appendErr e fr)).
  { intros fr ins <-. unfold insertOne. by rewrite Hk. }
  assert (Hdel : ∀ fr, deleteOne reset k fr = Some (appendErr e fr)).
  { intros fr. unfold deleteOne. by rewrite Hk. }
  assert (Hall : ∀ inserts deletions st,
            forallb (λ i, negb (aborting i)) inserts = true →
            ∃ st' os,
              Update reset inserts deletions st
              = Some (st', MaybeUnwrap (omap (λ i, isValid (key i)) inserts
                                        ++ omap id os))
              ∧ Forall2 deletionOutcome deletions os).
  { intros inserts deletions st Hok. unfold Update.
    destruct (insertLoop_next reset inserts (enter st) Hok) as [fr1 H1].
    rewrite H1.
    destruct (deleteLoop_total reset deletions fr1) as [fr2 H2].
    rewrite H2. simpl.
    destruct (deleteLoop_outcome _ _ _ _ H2) as (os & E & Hos).
    exists (leave reset fr2), os. split; [|done].
    by rewrite E, (insertLoop_errs _ _ _ _ H1). }
  split_and!.
  - intros fr ins rest Hkey. simpl. by rewrite (Hins fr ins Hkey).
  - intros fr rest. simpl. by rewrite Hdel.
  - done.
  - intros ins pre post deletions st Hkey. unfold Update.
    rewrite !insertLoop_app_any.
    destruct (insertLoop reset pre (enter st)) as [fr1|fr1 e1|]; [|done|done].
    simpl. rewrite (Hins fr1 ins Hkey).
    apply finish_sameButErrs, insertLoop_sameButErrs. done.
  - intros inserts pre post st. unfold Update.
    destruct (insertLoop reset inserts (enter st)) as [fr1|fr1 e1|]; [|done|done].
    rewrite !deleteLoop_app.
    destruct (deleteLoop reset pre fr1) as [fr2|]; simpl; [|done].
    rewrite Hdel. simpl.
    destruct (deleteLoop reset post (appendErr e fr2)) as [a'|] eqn:Ha; simpl.
    + assert (sameButErrs (appendErr e fr2) fr2) as Hs by done.
      destruct (deleteLoop_sameButErrs _ _ _ _ _ Hs Ha) as (b' & -> & H').
      simpl. by rewrite (sameButErrs_leave _ _ _ H').
    + destruct (deleteLoop_total reset post (appendErr e fr2)) as [? ?].
      congruence.
  - exact Hall.
  - intros inserts st Hok Hvalid.
    destruct (Hall inserts [] st Hok) as (st' & os & HU & Hos).
    apply Forall2_nil_inv_l in Hos as ->. exists st'. rewrite HU.
    assert (omap (λ i, isValid (key i)) inserts = []) as ->; [|done].
    clear -Hvalid. induction Hvalid as [|i rest Hi _ IH]; [done|].
    simpl. by rewrite Hi.
Qed.

(** ** Deleting what is not cached *)

(** C8.  Deleting a valid key whose hash is not in the working by-hash index
    is a no-op: the iteration leaves the frame as it found it (no error, both
    indexes and the heaps unchanged) and the loop goes on with the rest.  In
    particular [Update] without reset, with no inserts and this one deletion,
    returns a nil error and the state it was given. *)
Theorem delete_absent_is_noop (del : Key) :
  isValid del = None →
  (∀ reset fr rest,
     (∀ h, hash del = Some h → currMetrics reset fr !! h = None) →
     deleteOne reset del fr = Some fr
     ∧ deleteLoop reset (del :: rest) fr = deleteLoop reset rest fr)
  ∧ (∀ st,
       (∀ h, hash del = Some h → metrics (cache st) !! h = None) →
       Update false [] [del] st = Some (st, None)).
Proof.
  intros Hv. destruct (hash_total _ Hv) as [h Hh].
  assert (Hone : ∀ reset fr,
             (∀ h, hash del = Some h → currMetrics reset fr !! h = None) →
             deleteOne reset del fr = Some fr).
  { intros reset fr Habs. unfold deleteOne. rewrite Hv, Hh. simpl.
    by rewrite (Habs h Hh). }
  split.
  - intros reset fr rest Habs. simpl. by rewrite (Hone reset fr Habs).
  - intros st Habs. unfold Update. simpl.
    rewrite (Hone false (enter st) Habs). simpl.
    by destruct st as [mh fh [ms fs]].
Qed.

(** ** Re-inserting a cached key without reset *)

(** C6 (amended).  Without reset, an insert with a valid key and a value type
    of Counter, Gauge or Untyped whose hash is already in the by-hash index
    writes the new value and timestamp into the stored metric, in place: the
    record then holds the insert's value under the field of its value type,
    nil in the two other value fields, and no timestamp or the insert's
    timestamp in milliseconds; it keeps its labels; the by-hash index is
    unchanged, every family keeps its members list as it was (nothing is
    appended), every by-name entry stays, and no error is recorded. *)
Theorem reinsert_updates_in_place
    (ins : Insert) (fr : Frame) (h : Z) (m : loc) (x0 : Metric.t) :
  isValid (key ins) = None →
  supported (ValueType ins) = true →
  hash (key ins) = Some h →
  metrics (c fr) !! h = Some m →
  mheap fr !! m = Some x0 →
  ∃ x fr',
    insertOne false ins fr = Next fr'
    ∧ (Metric.Gauge x, Metric.Counter x, Metric.Untyped x)
      = match ValueType ins with
        | prometheus.CounterValue => (None, Some (Value ins), None)
        | prometheus.GaugeValue => (Some (Value ins), None, None)
        | prometheus.UntypedValue => (None, None, Some (Value ins))
        | prometheus.OtherValue _ => (None, None, None)
        end
    ∧ Metric.TimestampMs x
      = match Timestamp ins with
        | None => None
        | Some t =>
            Some ((Unix t * 1000 + Z.quot (Nanosecond t) 1000000 + 2 ^ 63)
                    mod 2 ^ 64 - 2 ^ 63)
        end
    ∧ Metric.Label x = Metric.Label x0
    ∧ mheap fr' = <[m := x]> (mheap fr)
    ∧ mheap fr' !! m = Some x
    ∧ metrics (c fr') = metrics (c fr)
    ∧ (∀ name mf, metricFamilyByName (c fr) !! name = Some mf →
                  metricFamilyByName (c fr') !! name = Some mf)
    ∧ (∀ mf f, fheap fr !! mf = Some f →
               ∃ f', fheap fr' !! mf = Some f'
                     ∧ MetricFamily.Metric f' = MetricFamily.Metric f)
    ∧ errs fr' = errs fr.
Proof.
  intros Hv Hs Hh Hm Hx0.
  destruct (setValue_supported (ValueType ins) (Value ins) x0 Hs) as [x Hx].
  assert (Hat : mheap fr !!! m = x0) by by apply list_lookup_total_correct.
  assert (Hlt : (m < length (mheap fr))%nat) by by eapply lookup_lt_Some.
  exists (setTimestamp (Timestamp ins) x). unfold insertOne. rewrite Hv, Hh.
  destruct (metricFamilyByName (c fr) !! FQName (key ins)) as [mf|] eqn:Hmf;
    unfold_frame; simpl; rewrite Hm; simpl; rewrite Hat, Hx; simpl;
    eexists; (split; [reflexivity|]); simpl.
  all: split; [by (destruct (ValueType ins); simpl in *; simplify_eq)|].
  all: split; [by unfold int64|].
  all: split; [by (destruct (ValueType ins); simpl in *; simplify_eq)|].
  all: split; [done|].
  all: split; [by apply list_lookup_insert_eq|].
  all: split; [by apply insert_id|].
  - split; [|split; [|done]].
    + intros name mf' Hn.
      destruct (decide (FQName (key ins) = name)) as [<-|Hne].
      * rewrite lookup_insert_eq. congruence.
      * by rewrite lookup_insert_ne.
    + intros mf' f Hf. destruct (decide (mf = mf')) as [<-|Hne].
      * rewrite list_lookup_insert_eq by by eapply lookup_lt_Some.
        eexists. split; [done|]. simpl.
        by rewrite (list_lookup_total_correct _ _ _ Hf).
      * rewrite list_lookup_insert_ne by done. by eexists.
  - split; [|split; [|done]].
    + intros name mf' Hn.
      destruct (decide (FQName (key ins) = name)) as [<-|Hne]; [congruence|].
      by rewrite lookup_insert_ne.
    + intros mf' f Hf.
      assert (Hlt' : (mf' < length (fheap fr))%nat) by by eapply lookup_lt_Some.
      rewrite list_lookup_insert_ne by lia.
      rewrite lookup_app_l by done. by eexists.
Qed.

(** C6 as stated fails for a value type that is none of the three.  The key
    of the cached gauge (value 1) is inserted again with value 5 and such a
    value type: the call returns the unsupported-value-type error and the
    stored metric still holds 1; its family keeps its one member. *)
Lemma reinsert_unsupported_keeps_old_value :
  isValid (keyA "1") = None
  ∧ metrics (cache oneGauge) !! default 0 (hash (keyA "1")) = Some 0%nat
  ∧ Metric.Gauge (metricHeap oneGauge !!! 0%nat) = Some 1%float
  ∧ ∃ st' mf,
      Update false
        [{| key := keyA "1"; Help := "help";
            ValueType := prometheus.OtherValue 0; Value := 5%float;
            Timestamp := None |}] [] oneGauge
      = Some (st', Some (errUnsupportedValueType (prometheus.OtherValue 0)))
      ∧ metrics (cache st') !! default 0 (hash (keyA "1")) = Some 0%nat
      ∧ Metric.Gauge (metricHeap st' !!! 0%nat) = Some 1%float
      ∧ metricFamilyByName (cache st') !! "a"%string = Some mf
      ∧ membersAt (familyHeap st') mf = [0%nat].
Proof.
  split; [reflexivity|].
  split; [vm_compute; reflexivity|].
  split; [vm_compute; reflexivity|].
  exists (stateAfter
            (Update false
               [{| key := keyA "1"; Help := "help";
                   ValueType := prometheus.OtherValue 0; Value := 5%float;
                   Timestamp := None |}] [] oneGauge)),
         0%nat.
  repeat (split; [vm_compute; reflexivity|]). vm_compute. reflexivity.
Qed.

(** A lone gauge re-inserted with a new value: still one family with one
    member, the same record, now holding the new value. *)
Example reinsert_lone_metric :
  ∃ st' mf m,
    Update false [gauge (keyA "1") 5] [] oneGauge = Some (st', None)
    ∧ cache st' = cache oneGauge
    ∧ metricFamilyByName (cache st') !! "a"%string = Some mf
    ∧ membersAt (familyHeap oneGauge) mf = [m]
    ∧ membersAt (familyHeap st') mf = [m]
    ∧ Metric.Gauge (metricHeap oneGauge !!! m) = Some 1%float
    ∧ Metric.Gauge (metricHeap st' !!! m) = Some 5%float.
Proof.
  exists (stateAfter (Update false [gauge (keyA "1") 5] [] oneGauge)),
         0%nat, 0%nat.
  repeat (split; [vm_compute; reflexivity|]). vm_compute. reflexivity.
Qed.

(** ** The hash follows the order of supply *)

(** C5.  [hash] is a function of the key's name and of its label pairs in the
    order supplied: it is the digest of the name, a separator, and each label
    name and value followed by a separator (a panic when the values run out);
    keys with equal fields have equal hashes; and the order matters: [keyXY]
    and [keyYX] carry the same label set, are stored with the same sorted
    labels, and hash differently. *)
Theorem hash_follows_supplied_order :
  (∀ k, hash k = (pairs ← labelPairs (LabelNames k) (LabelValues k);
                  Some (XXH64.Sum64 (hashInput (FQName k) pairs))))
  ∧ (∀ k1 k2, FQName k1 = FQName k2 → LabelNames k1 = LabelNames k2 →
              LabelValues k1 = LabelValues k2 → hash k1 = hash k2)
  ∧ (isValid keyXY = None ∧ isValid keyYX = None
     ∧ FQName keyXY = FQName keyYX
     ∧ labelPairs (LabelNames keyXY) (LabelValues keyXY)
       = Some [("x", "1"); ("y", "2")]%string
     ∧ labelPairs (LabelNames keyYX) (LabelValues keyYX)
       = Some [("y", "2"); ("x", "1")]%string
     ∧ sortLabels [("x", "1"); ("y", "2")]%string
       = sortLabels [("y", "2"); ("x", "1")]%string
     ∧ hash keyXY ≠ hash keyYX).
Proof.
  split; [exact hash_hashInput|]. split.
  - intros [n1 ns1 vs1] [n2 ns2 vs2]; simpl. by intros -> -> ->.
  - repeat (split; [reflexivity|]). vm_compute. discriminate.
Qed.

Lemma hash_follows_supplied_order_witness :
  hash keyXY = hash {| FQName := "a"; LabelNames := ["x"; "y"]%string;
                       LabelValues := ["1"; "2"]%string |}.
Proof.
  apply (proj1 (proj2 hash_follows_supplied_order)); reflexivity.
Defined.

(** ** Where the code departs from its invariants *)

(** C1 (the code departs from it).  From the empty cache, which is
    consistent, [Update] with reset and two inserts of the family ["a"] ends
    with the first insert's metric in the by-hash index and in no family's
    members: the two indexes are not consistent. *)
Theorem reset_orphans_earlier_member :
  consistent emptyState
  ∧ ∃ st' h m,
      Update true [gauge (keyA "1") 1; gauge (keyA "2") 2] [] emptyState
        = Some (st', None)
      ∧ hash (keyA "1") = Some h
      ∧ metrics (cache st') !! h = Some m
      ∧ (∀ name i, ¬ refersTo st' name i m)
      ∧ ¬ consistent st'.
Proof.
  split.
  - split; [intros h m H|intros name i m (mf & H & _)]; vm_compute in H;
      discriminate.
  - exists (stateAfter
              (Update true [gauge (keyA "1") 1; gauge (keyA "2") 2] [] emptyState)),
           (default 0 (hash (keyA "1"))), 0%nat.
    repeat (split; [vm_compute; reflexivity|]).
    assert (Hno : ∀ name i,
               ¬ refersTo
                   (stateAfter
                      (Update true [gauge (keyA "1") 1; gauge (keyA "2") 2] []
                         emptyState)) name i 0%nat).
    { intros name i (mf & Hn & Hi).
      apply elem_of_map_to_list in Hn.
      set (l := map_to_list _) in Hn. vm_compute in l. subst l.
      apply elem_of_cons in Hn as [Hn|Hn]; [|by apply elem_of_nil in Hn].
      injection Hn as -> ->. vm_compute in Hi.
      destruct i as [|[|i]]; discriminate. }
    split; [exact Hno|].
    intros [Hc _].
    destruct (Hc (default 0 (hash (keyA "1"))) 0%nat) as (name & i & Href & _).
    + vm_compute. reflexivity.
    + exact (Hno name i Href).
Qed.

(** C2 (the code departs from it).  The same call: two valid inserts with the
    same family name and different label sets, under reset.  The by-hash index
    holds two distinct metrics, and the family's members list holds only the
    second. *)
Theorem reset_same_family_keeps_last_insert_only :
  ∃ st' h1 h2 m1 m2 mf,
    Update true [gauge (keyA "1") 1; gauge (keyA "2") 2] [] emptyState
      = Some (st', None)
    ∧ hash (keyA "1") = Some h1 ∧ hash (keyA "2") = Some h2
    ∧ metrics (cache st') !! h1 = Some m1
    ∧ metrics (cache st') !! h2 = Some m2
    ∧ m1 ≠ m2
    ∧ metricFamilyByName (cache st') !! "a"%string = Some mf
    ∧ membersAt (familyHeap st') mf = [m2].
Proof.
  exists (stateAfter
            (Update true [gauge (keyA "1") 1; gauge (keyA "2") 2] [] emptyState)),
         (default 0 (hash (keyA "1"))), (default 0 (hash (keyA "2"))),
         0%nat, 1%nat, 1%nat.
  repeat (split; [vm_compute; first [reflexivity | discriminate]|]).
  vm_compute. reflexivity.
Qed.

(** The sibling path: the same batch without reset gives one family with two
    members. *)
Example same_family_without_reset :
  ∃ st' mf m1 m2,
    Update false [gauge (keyA "1") 1; gauge (keyA "2") 2] [] emptyState
      = Some (st', None)
    ∧ metricFamilyByName (cache st') !! "a"%string = Some mf
    ∧ membersAt (familyHeap st') mf = [m1; m2]
    ∧ m1 ≠ m2.
Proof.
  exists (stateAfter
            (Update false [gauge (keyA "1") 1; gauge (keyA "2") 2] [] emptyState)),
         0%nat, 0%nat, 1%nat.
  repeat (split; [vm_compute; first [reflexivity | discriminate]|]).
  discriminate.
Qed.

(** C3 (the code departs from it).  From the empty cache, an insert whose
    value type is unsupported makes [Update] return the error after the new
    family was registered: the by-name index is left with a family that has no
    members. *)
Theorem abort_leaves_family_without_members :
  familiesNonEmpty emptyState
  ∧ ∃ st' mf,
      Update false [zeroKind (keyA "1")] [] emptyState
        = Some (st', Some (errUnsupportedValueType (prometheus.OtherValue 0)))
      ∧ metricFamilyByName (cache st') !! "a"%string = Some mf
      ∧ membersAt (familyHeap st') mf = [].
Proof.
  split.
  - intros name mf H. vm_compute in H. discriminate.
  - exists (stateAfter (Update false [zeroKind (keyA "1")] [] emptyState)), 0%nat.
    repeat (split; [vm_compute; reflexivity|]). vm_compute. reflexivity.
Qed.

(** The same abort under reset: the live family, reused and truncated in
    place, is left without members while the by-hash index still holds its
    metric. *)
Example reset_abort_truncates_live_family :
  ∃ st st' mf m h,
    Update false [gauge (keyA "1") 1] [] emptyState = Some (st, None)
    ∧ metricFamilyByName (cache st) !! "a"%string = Some mf
    ∧ membersAt (familyHeap st) mf = [m]
    ∧ Update true [zeroKind (keyA "1")] [] st
      = Some (st', Some (errUnsupportedValueType (prometheus.OtherValue 0)))
    ∧ cache st' = cache st
    ∧ hash (keyA "1") = Some h
    ∧ metrics (cache st') !! h = Some m
    ∧ membersAt (familyHeap st') mf = [].
Proof.
  exists (stateAfter (Update false [gauge (keyA "1") 1] [] emptyState)),
         (stateAfter
            (Update true [zeroKind (keyA "1")] []
               (stateAfter (Update false [gauge (keyA "1") 1] [] emptyState)))),
         0%nat, 0%nat, (default 0 (hash (keyA "1"))).
  repeat (split; [vm_compute; reflexivity|]). vm_compute. reflexivity.
Qed.

(** Removing the only member of a family removes the family. *)
Lemma deleteOne_last_member reset del fr h m mf :
  isValid del = None →
  hash del = Some h →
  currMetrics reset fr !! h = Some m →
  currMetricFamilies reset fr !! FQName del = Some mf →
  MetricFamily.Metric (fheap fr !!! mf) = [m] →
  ∃ fr', deleteOne reset del fr = Some fr'
         ∧ currMetrics reset fr' = delete h (currMetrics reset fr)
         ∧ currMetricFamilies reset fr' = delete (FQName del) (currMetricFamilies reset fr)
         ∧ mheap fr' = mheap fr ∧ fheap fr' = fheap fr
         ∧ errs fr' = errs fr.
Proof.
  intros Hv Hh Hm Hmf Hs. unfold deleteOne. rewrite Hv, Hh. simpl. rewrite Hm.
  destruct reset; unfold_frame; simpl in *; rewrite Hmf, Hs; simpl;
    rewrite Nat.eqb_refl; simpl; by eexists.
Qed.

(** C4 as stated fails.  A batch holds an insert with an unsupported value
    type and an invalid key: its key is rejected first, as a soft error, the
    value type is never looked at, the next insert is applied, and the call
    returns the aggregate of the soft errors. *)
Lemma unsupported_kind_behind_invalid_key :
  supported (ValueType (zeroKind noName)) = false
  ∧ ∃ st' mf,
      Update false [zeroKind noName; gauge (keyA "1") 1] [] emptyState
        = Some (st', Some (MultiError [errEmptyFQName]))
      ∧ metricFamilyByName (cache st') !! "a"%string = Some mf
      ∧ membersAt (familyHeap st') mf = [0%nat].
Proof.
  split; [reflexivity|].
  exists (stateAfter
            (Update false [zeroKind noName; gauge (keyA "1") 1] [] emptyState)),
         0%nat.
  repeat (split; [vm_compute; reflexivity|]). vm_compute. reflexivity.
Qed.

Lemma Update_aborts_at_first_unsupported_witness :
  ∃ st',
    Update false ([zeroKind noName; gauge (keyA "1") 1]
                  ++ zeroKind (keyA "2") :: [gauge (keyA "3") 3])
           [keyA "1"] emptyState
      = Some (st', Some (errUnsupportedValueType (ValueType (zeroKind (keyA "2")))))
    ∧ Update false ([zeroKind noName; gauge (keyA "1") 1] ++ [zeroKind (keyA "2")])
             [] emptyState
      = Some (st', Some (errUnsupportedValueType (ValueType (zeroKind (keyA "2"))))).
Proof.
  exact (Update_aborts_at_first_unsupported false
           [zeroKind noName; gauge (keyA "1") 1] (zeroKind (keyA "2"))
           [gauge (keyA "3") 3] [keyA "1"] emptyState eq_refl eq_refl eq_refl).
Defined.

Lemma reset_abort_keeps_live_indexes_witness :
  ∃ st',
    Update true [gauge (keyA "2") 2; zeroKind (keyA "1")] [keyA "1"] oneGauge
      = Some (st', Some (errUnsupportedValueType (prometheus.OtherValue 0)))
    ∧ cache st' = cache oneGauge.
Proof.
  exists (stateAfter
            (Update true [gauge (keyA "2") 2; zeroKind (keyA "1")] [keyA "1"]
               oneGauge)).
  assert (H : Update true [gauge (keyA "2") 2; zeroKind (keyA "1")] [keyA "1"]
                oneGauge
              = Some (stateAfter
                        (Update true [gauge (keyA "2") 2; zeroKind (keyA "1")]
                           [keyA "1"] oneGauge),
                      Some (errUnsupportedValueType (prometheus.OtherValue 0))))
    by (vm_compute; reflexivity).
  exact (conj H (reset_abort_keeps_live_indexes _ _ _ _ _ H)).
Defined.

Lemma delete_absent_is_noop_witness :
  Update false [] [keyA "2"] oneGauge = Some (oneGauge, None).
Proof.
  refine (proj2 (delete_absent_is_noop (keyA "2") eq_refl) oneGauge _).
  intros h Hh. vm_compute in Hh. injection Hh as <-. vm_compute. reflexivity.
Defined.

Lemma invalid_key_is_soft_error_witness :
  fst <$> Update true ([gauge (keyA "1") 1] ++ zeroKind noName :: [gauge (keyA "2") 2])
            [keyA "1"] oneGauge
  = fst <$> Update true ([gauge (keyA "1") 1] ++ [gauge (keyA "2") 2])
              [keyA "1"] oneGauge.
Proof.
  exact (proj1 (proj2 (proj2 (proj2
           (invalid_key_is_soft_error true noName errEmptyFQName eq_refl))))
           (zeroKind noName) [gauge (keyA "1") 1] [gauge (keyA "2") 2]
           [keyA "1"] oneGauge eq_refl).
Defined.

Lemma reinsert_updates_in_place_witness :
  ∃ x fr',
    insertOne false
      {| key := keyA "1"; Help := "help"; ValueType := prometheus.CounterValue;
         Value := 5%float;
         Timestamp := Some {| Unix := 2; Nanosecond := 3000000 |} |}
      (enter oneGauge) = Next fr'
    ∧ (Metric.Gauge x, Metric.Counter x, Metric.Untyped x)
      = (None, Some 5%float, None)
    ∧ Metric.TimestampMs x = Some 2003
    ∧ mheap fr' !! 0%nat = Some x
    ∧ metrics (c fr') = metrics (cache oneGauge)
    ∧ ∃ f', fheap fr' !! 0%nat = Some f' ∧ MetricFamily.Metric f' = [0%nat].
Proof.
  destruct (reinsert_updates_in_place
              {| key := keyA "1"; Help := "help";
                 ValueType := prometheus.CounterValue; Value := 5%float;
                 Timestamp := Some {| Unix := 2; Nanosecond := 3000000 |} |}
              (enter oneGauge)
              (default 0 (hash (keyA "1"))) 0%nat
              (Metric.Make [("l", "1")]%string (Some 1%float) None None None))
    as (x & fr' & H1 & H2 & H3 & _ & _ & H6 & H7 & _ & H9 & _).
  - reflexivity.
  - reflexivity.
  - vm_compute. reflexivity.
  - vm_compute. reflexivity.
  - vm_compute. reflexivity.
  - exists x, fr'. split; [exact H1|]. split; [exact H2|].
    split; [exact H3|]. split; [exact H6|]. split; [exact H7|].
    apply (H9 0%nat (MetricFamily.Make (Some "a"%string) (Some "help"%string)
                       (Some dto.GAUGE) [0%nat])).
    vm_compute. reflexivity.
Defined.

(** ** The invariant of the two indexes, without reset *)

Lemma indexOf_Some (m : loc) (s : list loc) (i : nat) :
  indexOf m s = Some i → s !! i = Some m.
Proof.
  revert i. induction s as [|x s IH]; intros i; simpl; [done|].
  destruct (Nat.eqb_spec x m) as [->|Hne].
  - by intros [= <-].
  - destruct (indexOf m s) as [j|]; simpl; [|done].
    intros [= <-]. by apply IH.
Qed.

Lemma indexOf_elem (m : loc) (s : list loc) : m ∈ s → is_Some (indexOf m s).
Proof.
  induction s as [|x s IH]; simpl; [by intros ?%elem_of_nil|].
  intros [->|Hin]%elem_of_cons.
  - rewrite Nat.eqb_refl. by eexists.
  - destruct (x =? m)%nat; [by eexists|].
    destruct (IH Hin) as [j ->]. by eexists.
Qed.

(** Removing position [i], which holds [m], from a duplicate-free list leaves
    exactly the other elements. *)
Lemma elem_of_remove_at (s : list loc) (i : nat) (m x : loc) :
  NoDup s → s !! i = Some m →
  x ∈ take i s ++ drop (S i) s ↔ x ∈ s ∧ x ≠ m.
Proof.
  intros Hnd Hi. pose proof (take_drop_middle s i m Hi) as E.
  revert E. generalize (take i s) (drop (S i) s). intros a b E. subst s.
  apply NoDup_app in Hnd as (_ & Hl & Hr).
  apply NoDup_cons in Hr as [Hr _].
  rewrite !elem_of_app, elem_of_cons. split.
  - intros [Hx|Hx]; (split; [tauto|]); intros ->.
    + apply (Hl m Hx). apply elem_of_cons. by left.
    + done.
  - intros [[Hx|[->|Hx]] Hne]; tauto.
Qed.

Lemma NoDup_remove_at (s : list loc) (i : nat) :
  NoDup s → NoDup (take i s ++ drop (S i) s).
Proof.
  intros Hnd. rewrite <- delete_take_drop.
  eapply sublist_NoDup; [exact Hnd|apply sublist_delete].
Qed.

Section invariant.
Context (K : list Key).

Lemma Inv_empty : Inv K emptyState.
Proof. split; simpl; intros *; rewrite ?lookup_empty; done. Qed.

(** The heaps may grow and records may change, as long as the families of
    the by-name index keep their members. *)
Lemma Inv_heaps mh fh ms fs mh' fh' :
  Inv K (mkState mh fh ms fs) →
  (length mh ≤ length mh')%nat → (length fh ≤ length fh')%nat →
  (∀ n mf, fs !! n = Some mf → membersAt fh' mf = membersAt fh mf) →
  Inv K (mkState mh' fh' ms fs).
Proof.
  intros [HaM HaF HiM HiF Hown Hmem Hnd Hdj] Hmh Hfh Hsame; simpl in *.
  split; simpl.
  - intros h m H. specialize (HaM h m H). lia.
  - intros n mf H. specialize (HaF n mf H). lia.
  - done.
  - done.
  - intros h m H. destruct (Hown h m H) as (k & mf & ? & ? & Hf & ?).
    exists k, mf. by rewrite (Hsame _ _ Hf).
  - intros n mf m Hf. rewrite (Hsame _ _ Hf). by eapply Hmem.
  - intros n mf Hf. rewrite (Hsame _ _ Hf). by eapply Hnd.
  - intros n1 n2 mf1 mf2 m H1 H2.
    rewrite (Hsame _ _ H1), (Hsame _ _ H2). by eapply Hdj.
Qed.

(** A new family, without members, under a name that had none. *)
Lemma Inv_new_family mh fh ms fs n fh' :
  Inv K (mkState mh fh ms fs) →
  fs !! n = None →
  (length fh < length fh')%nat →
  (∀ mf, (mf < length fh)%nat → membersAt fh' mf = membersAt fh mf) →
  membersAt fh' (length fh) = [] →
  Inv K (mkState mh fh' ms (<[n := length fh]> fs)).
Proof.
  intros [HaM HaF HiM HiF Hown Hmem Hnd Hdj] Hn Hlen Hsame Hnew; simpl in *.
  assert (Hold : ∀ n' mf, fs !! n' = Some mf →
                          membersAt fh' mf = membersAt fh mf).
  { intros n' mf H. apply Hsame. by eapply HaF. }
  assert (Hcases : ∀ n' mf, <[n := length fh]> fs !! n' = Some mf →
              (n' = n ∧ mf = length fh ∧ membersAt fh' mf = [])
              ∨ (n' ≠ n ∧ fs !! n' = Some mf
                 ∧ membersAt fh' mf = membersAt fh mf)).
  { intros n' mf. rewrite lookup_insert. case_decide as Hd.
    - intros [= <-]. left. by subst.
    - intros H. right. split; [congruence|]. split; [done|]. by eapply Hold. }
  split; simpl.
  - done.
  - intros n' mf [(_ & -> & _)|(_ & H & _)]%Hcases; [done|].
    specialize (HaF n' mf H). lia.
  - done.
  - intros n1 n2 mf [(-> & -> & _)|(Hne1 & H1 & _)]%Hcases
                      [(-> & E & _)|(Hne2 & H2 & _)]%Hcases; try done.
    + specialize (HaF _ _ H2). lia.
    + specialize (HaF _ _ H1). lia.
    + by eapply HiF.
  - intros h m H. destruct (Hown h m H) as (k & mf & Hk & Hh & Hf & Hin).
    exists k, mf. split; [done|]. split; [done|].
    rewrite lookup_insert_ne by congruence. split; [done|].
    by rewrite (Hold _ _ Hf).
  - intros n' mf m [(_ & _ & ->)|(_ & H & ->)]%Hcases;
      [by intros ?%elem_of_nil|]. by eapply Hmem.
  - intros n' mf [(_ & _ & ->)|(_ & H & ->)]%Hcases; [constructor|].
    by eapply Hnd.
  - intros n1 n2 mf1 mf2 m [(-> & _ & ->)|(Hne1 & H1 & ->)]%Hcases
                            [(-> & _ & E)|(Hne2 & H2 & E)]%Hcases;
      rewrite ?E; try done; try by intros ?%elem_of_nil.
    + by intros _ ?%elem_of_nil.
    + by eapply Hdj.
Qed.

(** A new metric under a hash that had none, appended to the family of its
    key's name. *)
Lemma Inv_new_metric mh fh ms fs k h mf mh' fh' :
  Inv K (mkState mh fh ms fs) →
  k ∈ K → hash k = Some h →
  ms !! h = None →
  fs !! FQName k = Some mf →
  (length mh < length mh')%nat → (length fh ≤ length fh')%nat →
  membersAt fh' mf = membersAt fh mf ++ [length mh] →
  (∀ n' mf', fs !! n' = Some mf' → mf' ≠ mf →
             membersAt fh' mf' = membersAt fh mf') →
  Inv K (mkState mh' fh' (<[h := length mh]> ms) fs).
Proof.
  intros [HaM HaF HiM HiF Hown Hmem Hnd Hdj] Hk Hh Hnone Hf Hmh Hfh Hs Hothers;
    simpl in *.
  assert (Hfresh : ∀ n' mf', fs !! n' = Some mf' →
                             length mh ∉ membersAt fh mf').
  { intros n' mf' H Hin. destruct (Hmem _ _ _ H Hin) as [h' Hh'].
    specialize (HaM _ _ Hh'). lia. }
  assert (Hcases : ∀ n' mf', fs !! n' = Some mf' →
              (n' = FQName k ∧ mf' = mf
               ∧ membersAt fh' mf' = membersAt fh mf ++ [length mh])
              ∨ (n' ≠ FQName k ∧ membersAt fh' mf' = membersAt fh mf')).
  { intros n' mf' H. destruct (decide (mf' = mf)) as [->|Hne].
    - left. split; [by eapply HiF|done].
    - right. split; [|by eapply Hothers]. intros ->. congruence. }
  split; simpl.
  - intros h' m. rewrite lookup_insert. case_decide as Hd.
    + intros [= <-]. lia.
    + intros Hx. specialize (HaM _ _ Hx). lia.
  - intros n' mf' Hx. specialize (HaF _ _ Hx). lia.
  - intros h1 h2 m. rewrite !lookup_insert.
    destruct (decide (h = h1)) as [<-|Hd1];
      destruct (decide (h = h2)) as [<-|Hd2]; try done.
    + intros [= <-] Hx. specialize (HaM _ _ Hx). lia.
    + intros Hx [= <-]. specialize (HaM _ _ Hx). lia.
    + apply HiM.
  - done.
  - intros h' m. rewrite lookup_insert. case_decide as Hd.
    + intros [= <-]. exists k, mf. subst h'. repeat split; try done.
      rewrite Hs. apply elem_of_app. right. by apply list_elem_of_singleton.
    + intros H. destruct (Hown _ _ H) as (k' & mf' & Hk' & Hh' & Hf' & Hin).
      exists k', mf'. repeat split; try done.
      destruct (Hcases _ _ Hf') as [(_ & -> & ->)|(_ & ->)]; [|done].
      apply elem_of_app. by left.
  - intros n' mf' m H.
    destruct (Hcases _ _ H) as [(_ & -> & ->)|(_ & ->)].
    + intros [Hin| ->%list_elem_of_singleton]%elem_of_app.
      * destruct (Hmem _ _ _ Hf Hin) as [h' Hh'].
        exists h'. rewrite lookup_insert_ne; [done|congruence].
      * exists h. by rewrite lookup_insert_eq.
    + intros Hin. destruct (Hmem _ _ _ H Hin) as [h' Hh'].
      exists h'. rewrite lookup_insert_ne; [done|congruence].
  - intros n' mf' H.
    destruct (Hcases _ _ H) as [(_ & -> & ->)|(_ & ->)]; [|by eapply Hnd].
    apply NoDup_app. split; [by eapply Hnd|].
    split; [|apply NoDup_singleton].
    intros x Hx ->%list_elem_of_singleton. by eapply Hfresh.
  - intros n1 n2 mf1 mf2 m H1 H2.
    destruct (Hcases _ _ H1) as [(-> & -> & ->)|(Hne1 & ->)];
      destruct (Hcases _ _ H2) as [(-> & -> & ->)|(Hne2 & ->)]; try done.
    + intros [Hin| ->%list_elem_of_singleton]%elem_of_app Hin2.
      * by eapply Hdj.
      * by destruct (Hfresh _ _ H2).
    + intros Hin1 [Hin| ->%list_elem_of_singleton]%elem_of_app.
      * by eapply Hdj.
      * by destruct (Hfresh _ _ H1).
    + by eapply Hdj.
Qed.

(** The last member of a family leaves both indexes, with its family. *)
Lemma Inv_delete_family mh fh ms fs h m n mf :
  Inv K (mkState mh fh ms fs) →
  ms !! h = Some m → fs !! n = Some mf →
  m ∈ membersAt fh mf → length (membersAt fh mf) = 1%nat →
  Inv K (mkState mh fh (delete h ms) (delete n fs)).
Proof.
  intros [HaM HaF HiM HiF Hown Hmem Hnd Hdj] Hm Hf Hin Hone; simpl in *.
  assert (Honly : ∀ x, x ∈ membersAt fh mf → x = m).
  { destruct (membersAt fh mf) as [|y [|? ?]]; try done.
    apply list_elem_of_singleton in Hin as <-.
    by intros x ->%list_elem_of_singleton. }
  split; simpl.
  - intros h' m' [_ H]%lookup_delete_Some. by eapply HaM.
  - intros n' mf' [_ H]%lookup_delete_Some. by eapply HaF.
  - intros h1 h2 m' [_ H1]%lookup_delete_Some [_ H2]%lookup_delete_Some.
    by eapply HiM.
  - intros n1 n2 mf' [_ H1]%lookup_delete_Some [_ H2]%lookup_delete_Some.
    by eapply HiF.
  - intros h' m' [Hne H]%lookup_delete_Some.
    destruct (Hown _ _ H) as (k' & mf' & Hk' & Hh' & Hf' & Hin').
    exists k', mf'. repeat split; try done.
    apply lookup_delete_Some. split; [|done]. intros E.
    rewrite <- E in Hf'. assert (mf' = mf) as -> by congruence.
    apply Hne. eapply HiM; [exact Hm|]. by rewrite <- (Honly _ Hin').
  - intros n' mf' m' [Hne H]%lookup_delete_Some Hin'.
    destruct (Hmem _ _ _ H Hin') as [h' Hh'].
    exists h'. apply lookup_delete_Some. split; [|done]. intros <-.
    assert (m' = m) as -> by congruence.
    apply Hne. symmetry. by eapply Hdj.
  - intros n' mf' [_ H]%lookup_delete_Some. by eapply Hnd.
  - intros n1 n2 mf1 mf2 m' [_ H1]%lookup_delete_Some [_ H2]%lookup_delete_Some.
    by eapply Hdj.
Qed.

(** One member among several leaves both indexes; the others keep their
    order. *)
Lemma Inv_delete_member mh fh ms fs h m n mf i fh' :
  Inv K (mkState mh fh ms fs) →
  ms !! h = Some m → fs !! n = Some mf →
  membersAt fh mf !! i = Some m →
  (length fh ≤ length fh')%nat →
  membersAt fh' mf
    = take i (membersAt fh mf) ++ drop (S i) (membersAt fh mf) →
  (∀ n' mf', fs !! n' = Some mf' → mf' ≠ mf →
             membersAt fh' mf' = membersAt fh mf') →
  Inv K (mkState mh fh' (delete h ms) fs).
Proof.
  intros [HaM HaF HiM HiF Hown Hmem Hnd Hdj] Hm Hf Hi Hfh Hs Hothers;
    simpl in *.
  assert (Hin : m ∈ membersAt fh mf) by (apply list_elem_of_lookup; eauto).
  assert (Hrem : ∀ x, x ∈ membersAt fh' mf ↔ x ∈ membersAt fh mf ∧ x ≠ m).
  { intros x. rewrite Hs. apply elem_of_remove_at; [by eapply Hnd|done]. }
  assert (Hsub : ∀ n' mf' x, fs !! n' = Some mf' →
                             x ∈ membersAt fh' mf' → x ∈ membersAt fh mf').
  { intros n' mf' x H. destruct (decide (mf' = mf)) as [->|Hne].
    - by intros [? _]%Hrem.
    - by rewrite (Hothers _ _ H Hne). }
  assert (Hkeep : ∀ n' mf' x, fs !! n' = Some mf' → x ≠ m →
                              x ∈ membersAt fh mf' → x ∈ membersAt fh' mf').
  { intros n' mf' x H Hx. destruct (decide (mf' = mf)) as [->|Hne].
    - intros ?. by apply Hrem.
    - by rewrite (Hothers _ _ H Hne). }
  assert (Hgone : ∀ n' mf', fs !! n' = Some mf' → m ∉ membersAt fh' mf').
  { intros n' mf' H Hin'. destruct (decide (mf' = mf)) as [->|Hne].
    - apply Hrem in Hin' as [_ ?]. done.
    - apply Hne. rewrite (Hothers _ _ H Hne) in Hin'.
      assert (n' = n) as -> by (by eapply Hdj). congruence. }
  split; simpl.
  - intros h' m' [_ H]%lookup_delete_Some. by eapply HaM.
  - intros n' mf' H. specialize (HaF _ _ H). lia.
  - intros h1 h2 m' [_ H1]%lookup_delete_Some [_ H2]%lookup_delete_Some.
    by eapply HiM.
  - done.
  - intros h' m' [Hne H]%lookup_delete_Some.
    destruct (Hown _ _ H) as (k' & mf' & Hk' & Hh' & Hf' & Hin').
    exists k', mf'. repeat split; try done.
    eapply Hkeep; [done| |done]. intros ->. apply Hne. by eapply HiM.
  - intros n' mf' m' H Hin'.
    destruct (Hmem _ _ _ H (Hsub _ _ _ H Hin')) as [h' Hh'].
    exists h'. apply lookup_delete_Some. split; [|done]. intros <-.
    assert (m' = m) as -> by congruence. by eapply Hgone.
  - intros n' mf' H. destruct (decide (mf' = mf)) as [->|Hne].
    + rewrite Hs. apply NoDup_remove_at. by eapply Hnd.
    + rewrite (Hothers _ _ H Hne). by eapply Hnd.
  - intros n1 n2 mf1 mf2 m' H1 H2 Hin1 Hin2.
    eapply Hdj; eauto.
Qed.
End invariant.

Lemma membersAt_insert_eq fh mf f :
  (mf < length fh)%nat → membersAt (<[mf := f]> fh) mf = MetricFamily.Metric f.
Proof. intros. unfold membersAt. by rewrite list_lookup_total_insert_eq. Qed.

Lemma membersAt_insert_ne fh mf mf' f :
  mf ≠ mf' → membersAt (<[mf := f]> fh) mf' = membersAt fh mf'.
Proof. intros. unfold membersAt. by rewrite list_lookup_total_insert_ne. Qed.

Lemma membersAt_app_l fh l mf :
  (mf < length fh)%nat → membersAt (fh ++ l) mf = membersAt fh mf.
Proof. intros. unfold membersAt. by rewrite lookup_total_app_l. Qed.

Lemma membersAt_app_new fh f :
  membersAt (fh ++ [f]) (length fh) = MetricFamily.Metric f.
Proof. unfold membersAt. by rewrite list_lookup_total_middle. Qed.

Lemma leaveEarly_mkState fr :
  leaveEarly fr
  = mkState (mheap fr) (fheap fr) (metrics (c fr)) (metricFamilyByName (c fr)).
Proof. by destruct fr as [? ? [? ?] ? ?]. Qed.

Section invariant_steps.
Context (K : list Key).

(** The shapes the frames of [insertOne] take. *)
Lemma Inv_touch mh fh ms fs mh' n mf f :
  Inv K (mkState mh fh ms fs) →
  fs !! n = Some mf →
  MetricFamily.Metric f = membersAt fh mf →
  (length mh ≤ length mh')%nat →
  Inv K (mkState mh' (<[mf := f]> fh) ms fs).
Proof.
  intros HI Hf Hs Hmh. eapply Inv_heaps; [exact HI|done| |].
  - by rewrite length_insert.
  - intros n' mf' Hf'. destruct (decide (mf = mf')) as [<-|Hne].
    + rewrite membersAt_insert_eq; [done|]. by eapply (inv_family_alloc K _ HI).
    + by rewrite membersAt_insert_ne.
Qed.

Lemma Inv_touch_new mh fh ms fs mh' n f0 f :
  Inv K (mkState mh fh ms fs) →
  fs !! n = None →
  MetricFamily.Metric f = [] →
  (length mh ≤ length mh')%nat →
  Inv K (mkState mh' (<[length fh := f]> (fh ++ [f0])) ms
           (<[n := length fh]> fs)).
Proof.
  intros HI Hn Hs Hmh.
  eapply (Inv_heaps K mh); [|done|done|by intros].
  apply Inv_new_family; [done|done| | |].
  - rewrite length_insert, length_app. simpl. lia.
  - intros mf Hlt. rewrite membersAt_insert_ne by lia.
    by apply membersAt_app_l.
  - rewrite membersAt_insert_eq; [done|]. rewrite length_app. simpl. lia.
Qed.

Lemma Inv_append mh fh ms fs mh' k h mf f :
  Inv K (mkState mh fh ms fs) →
  k ∈ K → hash k = Some h →
  ms !! h = None →
  fs !! FQName k = Some mf →
  (length mh < length mh')%nat →
  MetricFamily.Metric f = membersAt fh mf ++ [length mh] →
  Inv K (mkState mh' (<[mf := f]> fh) (<[h := length mh]> ms) fs).
Proof.
  intros HI Hk Hh Hnone Hf Hmh Hs.
  eapply Inv_new_metric; try done.
  - by rewrite length_insert.
  - rewrite membersAt_insert_eq; [done|]. by eapply (inv_family_alloc K _ HI).
  - intros n' mf' _ Hne. by rewrite membersAt_insert_ne.
Qed.

Lemma insertOne_Inv ins fr fr' :
  key ins ∈ K →
  Inv K (leaveEarly fr) →
  frameOf (insertOne false ins fr) = Some fr' →
  Inv K (leaveEarly fr').
Proof.
  intros Hk HI. rewrite leaveEarly_mkState in HI.
  insertOne_cases; intros [= <-]; rewrite leaveEarly_mkState; simpl;
    [exact HI|..].
  all: repeat match goal with
         | H : ?m !! ?k = Some ?v |- context [<[?k := ?v]> ?m] =>
             rewrite (insert_id m k v H)
         end.
  all: rewrite ?(list_lookup_total_middle (fheap fr) [] _ _ eq_refl); simpl.
  all: first
    [ solve [ eapply Inv_touch; [exact HI|eassumption|reflexivity|];
              rewrite ?length_insert, ?length_app; simpl; lia ]
    | solve [ eapply Inv_touch_new; [exact HI|eassumption|reflexivity|];
              rewrite ?length_insert, ?length_app; simpl; lia ]
    | idtac ].
  - eapply (Inv_append (mheap fr) _ _ _ _ (key ins));
      [eapply Inv_touch; [exact HI|eassumption|reflexivity|reflexivity]
      |done|eassumption|eassumption|eassumption| |reflexivity].
    rewrite length_insert, length_app. simpl. lia.
  - eapply (Inv_append (mheap fr) _ _ _ _ (key ins));
      [eapply Inv_touch_new; [exact HI|eassumption|reflexivity|reflexivity]
      |done|eassumption|eassumption|apply lookup_insert_eq| |].
    + rewrite length_insert, length_app. simpl. lia.
    + unfold membersAt.
      rewrite list_lookup_total_insert_eq by (rewrite length_app; simpl; lia).
      reflexivity.
Qed.

Context (CF : collisionFree K).

(** With the invariant, a deletion finds its family and its member: the
    two "impossible" errors are not recorded. *)
Lemma deleteOne_Inv del fr fr' :
  del ∈ K →
  Inv K (leaveEarly fr) →
  deleteOne false del fr = Some fr' →
  Inv K (leaveEarly fr') ∧ errs fr' = errs fr ++ option_list (isValid del).
Proof.
  intros Hk HI0. pose proof HI0 as HI. rewrite leaveEarly_mkState in HI.
  unfold deleteOne. destruct (isValid del) as [e|] eqn:Hv.
  { intros [= <-]. by split. }
  destruct (hash del) as [h|] eqn:Hh; simpl; [|done].
  unfold_frame. simpl.
  destruct (metrics (c fr) !! h) as [m|] eqn:Hm.
  2:{ intros [= <-]. split; [done|]. by rewrite app_nil_r. }
  destruct (inv_owner K _ HI h m Hm) as (k' & mf & Hk' & Hh' & Hf & Hin).
  simpl in Hf, Hin.
  rewrite (CF k' del h Hk' Hk Hh' Hh) in Hf. rewrite Hf.
  destruct (indexOf_elem m _ Hin) as [i Hi]. unfold membersAt in Hi.
  rewrite Hi. apply indexOf_Some in Hi.
  destruct (length (MetricFamily.Metric (fheap fr !!! mf)) =? 1)%nat eqn:Hlen;
    intros [= <-]; rewrite leaveEarly_mkState; simpl;
    (split; [|by rewrite app_nil_r]).
  - apply Nat.eqb_eq in Hlen. by eapply Inv_delete_family.
  - eapply Inv_delete_member; [exact HI|exact Hm|exact Hf|exact Hi| | |].
    + by rewrite length_insert.
    + rewrite membersAt_insert_eq; [done|].
      by eapply (inv_family_alloc K _ HI).
    + intros n' mf' _ Hne. by rewrite membersAt_insert_ne.
Qed.
End invariant_steps.

Lemma leave_false fr : leave false fr = leaveEarly fr.
Proof. by destruct fr as [? ? [? ?] ? ?]. Qed.

Lemma leaveEarly_enter st : leaveEarly (enter st) = st.
Proof. by destruct st. Qed.

(** The invariant gives the consistency of the two indexes. *)
Lemma Inv_consistent K st : Inv K st → consistent st.
Proof.
  intros HI. split.
  - intros h m Hm.
    destruct (inv_owner K st HI h m Hm) as (k & mf & _ & _ & Hf & Hin).
    apply list_elem_of_lookup in Hin as [i Hi].
    exists (FQName k), i. split; [by exists mf|].
    intros name' i' (mf' & Hf' & Hi').
    assert (name' = FQName k) as ->.
    { eapply (inv_disjoint K st HI); [exact Hf'|exact Hf| |];
        apply list_elem_of_lookup; eauto. }
    split; [done|]. assert (mf' = mf) as -> by congruence.
    eapply NoDup_lookup; [by eapply (inv_nodup K st HI)|exact Hi'|exact Hi].
  - intros name i m (mf & Hf & Hi).
    eapply (inv_member K st HI); [exact Hf|]. apply list_elem_of_lookup. eauto.
Qed.

(** The early return carries the unsupported-value-type error. *)
Lemma insertOne_return_error reset ins fr fr' e :
  insertOne reset ins fr = Return fr' e →
  e = errUnsupportedValueType (ValueType ins).
Proof. destruct reset; insertOne_cases; intros H; by inversion H. Qed.

Lemma insertLoop_return_error reset inserts fr fr' e :
  insertLoop reset inserts fr = Return fr' e →
  ∃ vt, e = errUnsupportedValueType vt.
Proof.
  revert fr. induction inserts as [|ins rest IH]; intros fr; simpl; [done|].
  destruct (insertOne reset ins fr) as [fr1|fr1 e1|] eqn:H1; [apply IH| |done].
  intros [= <- <-]. eexists. by eapply insertOne_return_error.
Qed.

Section invariant_update.
Context (K : list Key) (CF : collisionFree K).

Lemma insertLoop_Inv inserts fr fr' :
  Forall (λ ins, key ins ∈ K) inserts →
  Inv K (leaveEarly fr) →
  frameOf (insertLoop false inserts fr) = Some fr' →
  Inv K (leaveEarly fr').
Proof.
  intros Hall. revert fr. induction Hall as [|ins rest Hk _ IH]; intros fr HI;
    simpl.
  - by intros [= <-].
  - pose proof (insertOne_Inv K ins fr) as Hstep.
    destruct (insertOne false ins fr) as [fr1|fr1 e|]; simpl in *; [| |done].
    + apply IH. by apply Hstep.
    + intros [= <-]. by apply Hstep.
Qed.

Lemma deleteLoop_Inv deletions fr fr' :
  Forall (λ k, k ∈ K) deletions →
  Inv K (leaveEarly fr) →
  deleteLoop false deletions fr = Some fr' →
  Inv K (leaveEarly fr') ∧ errs fr' = errs fr ++ omap isValid deletions.
Proof.
  intros Hall. revert fr. induction Hall as [|del rest Hk _ IH]; intros fr HI;
    simpl.
  - intros [= <-]. by rewrite app_nil_r.
  - destruct (deleteOne false del fr) as [fr1|] eqn:H1; simpl; [|done].
    destruct (deleteOne_Inv K CF del fr fr1 Hk HI H1) as [HI1 E1].
    intros H. destruct (IH fr1 HI1 H) as [HI' E']. split; [done|].
    rewrite E', E1, <- app_assoc. by destruct (isValid del).
Qed.

(** X1.  Without reset, on keys whose hashes do not confuse two family
    names, [Update] keeps the invariant [Inv], so it ends with consistent
    indexes, also when it returns early; and it returns either the
    unsupported-value-type error or the aggregate of exactly the validation
    errors of the batch: the two "impossible" errors of the deletion path
    are never recorded. *)
Theorem Update_without_reset_keeps_Inv inserts deletions st st' e :
  Forall (λ ins, key ins ∈ K) inserts →
  Forall (λ k, k ∈ K) deletions →
  Inv K st →
  Update false inserts deletions st = Some (st', e) →
  Inv K st' ∧ consistent st'
  ∧ ((∃ vt, e = Some (errUnsupportedValueType vt))
     ∨ e = MaybeUnwrap (validationErrors inserts deletions)).
Proof.
  intros Hins Hdel HI. unfold Update.
  rewrite <- (leaveEarly_enter st) in HI.
  pose proof (insertLoop_Inv inserts (enter st)) as Hloop.
  pose proof (insertLoop_errs false inserts (enter st)) as Herrs.
  pose proof (insertLoop_return_error false inserts (enter st)) as Hret.
  destruct (insertLoop false inserts (enter st)) as [fr1|fr1 e1|]; simpl in *;
    [| |done].
  - specialize (Hloop fr1 Hins HI eq_refl). specialize (Herrs fr1 eq_refl).
    destruct (deleteLoop false deletions fr1) as [fr2|] eqn:H2; simpl; [|done].
    destruct (deleteLoop_Inv deletions fr1 fr2 Hdel Hloop H2) as [HI2 E2].
    intros [= <- <-]. rewrite leave_false.
    split; [done|]. split; [by eapply Inv_consistent|]. right.
    by rewrite E2, Herrs.
  - specialize (Hloop fr1 Hins HI eq_refl).
    destruct (Hret fr1 e1 eq_refl) as [vt ->]. intros [= <- <-].
    split; [done|]. split; [by eapply Inv_consistent|]. left. by exists vt.
Qed.
End invariant_update.

(** ** No family is left without members, without reset and without abort *)

Lemma nonEmpty_store mh fh ms fs mh' ms' mf f :
  familiesNonEmpty (mkState mh fh ms fs) →
  MetricFamily.Metric f ≠ [] →
  familiesNonEmpty (mkState mh' (<[mf := f]> fh) ms' fs).
Proof.
  intros HN Hf name mf' H. simpl in *.
  destruct (decide (mf = mf')) as [<-|Hne].
  - destruct (decide (mf < length fh)%nat).
    + by rewrite membersAt_insert_eq.
    + rewrite list_insert_ge by lia. by eapply HN.
  - rewrite membersAt_insert_ne by done. by eapply HN.
Qed.

Lemma nonEmpty_delete mh fh ms fs mh' ms' n :
  familiesNonEmpty (mkState mh fh ms fs) →
  familiesNonEmpty (mkState mh' fh ms' (delete n fs)).
Proof.
  intros HN name mf H. simpl in H. apply lookup_delete_Some in H as [_ H].
  by eapply HN.
Qed.

Lemma deleteOne_nonEmpty del fr fr' :
  familiesNonEmpty (leaveEarly fr) →
  deleteOne false del fr = Some fr' →
  familiesNonEmpty (leaveEarly fr').
Proof.
  intros HN. rewrite leaveEarly_mkState in HN.
  deleteOne_cases; intros [= <-]; rewrite leaveEarly_mkState; simpl;
    try exact HN.
  - by eapply nonEmpty_delete.
  - eapply nonEmpty_store; [exact HN|]. simpl.
    match goal with
    | H : indexOf ?m ?s = Some ?i |- _ => apply indexOf_Some in H; rename H into Hi
    end.
    match goal with H : (_ =? 1)%nat = false |- _ => apply Nat.eqb_neq in H end.
    apply lookup_lt_Some in Hi as Hlt.
    intros E. apply (f_equal length) in E.
    rewrite length_app, length_take, length_drop in E. simpl in E. lia.
Qed.

Lemma nonEmpty_new K mh fh ms fs mh' ms' n fh1 f :
  Inv K (mkState mh fh ms fs) →
  familiesNonEmpty (mkState mh fh ms fs) →
  (length fh < length fh1)%nat →
  (∀ mf, (mf < length fh)%nat → membersAt fh1 mf = membersAt fh mf) →
  MetricFamily.Metric f ≠ [] →
  familiesNonEmpty
    (mkState mh' (<[length fh := f]> fh1) ms' (<[n := length fh]> fs)).
Proof.
  intros HI HN Hlen Hsame Hf name mf H. simpl in *.
  apply lookup_insert_Some in H as [[_ <-]|[_ H]].
  - by rewrite membersAt_insert_eq.
  - pose proof (inv_family_alloc K _ HI _ _ H) as Hlt. simpl in Hlt.
    rewrite membersAt_insert_ne by lia. rewrite Hsame by done. by eapply HN.
Qed.

Section nonEmpty_insert.
Context (K : list Key) (CF : collisionFree K).

(** A metric already in the by-hash index has its family in the by-name
    index, under the name of any key of [K] with its hash. *)
Lemma Inv_family_of_cached st k h m :
  Inv K st → k ∈ K → hash k = Some h →
  metrics (cache st) !! h = Some m →
  is_Some (metricFamilyByName (cache st) !! FQName k).
Proof.
  intros HI Hk Hh Hm.
  destruct (inv_owner K st HI h m Hm) as (k' & mf & Hk' & Hh' & Hf & _).
  rewrite <- (CF k' k h Hk' Hk Hh' Hh). by eexists.
Qed.

Lemma insertOne_nonEmpty ins fr fr' :
  key ins ∈ K →
  Inv K (leaveEarly fr) →
  familiesNonEmpty (leaveEarly fr) →
  insertOne false ins fr = Next fr' →
  familiesNonEmpty (leaveEarly fr').
Proof.
  intros Hk HI HN.
  pose proof (Inv_family_of_cached (leaveEarly fr) (key ins)) as Hfam.
  rewrite leaveEarly_mkState in HI, HN, Hfam. simpl in Hfam.
  insertOne_cases; intros [= <-]; rewrite leaveEarly_mkState; simpl;
    [exact HN|..].
  all: repeat match goal with
         | H : ?m !! ?k = Some ?v |- context [<[?k := ?v]> ?m] =>
             rewrite (insert_id m k v H)
         end.
  all: rewrite ?(list_lookup_total_middle (fheap fr) [] _ _ eq_refl); simpl.
  all: try match goal with
         | Hm : metrics _ !! _ = Some _,
           Hn : metricFamilyByName _ !! _ = None |- _ =>
             exfalso; destruct (Hfam _ _ HI Hk eq_refl Hm) as [? ?]; discriminate
         end.
  - eapply nonEmpty_store; [exact HN|]. simpl. by eapply HN.
  - eapply nonEmpty_store;
      [eapply (nonEmpty_store _ _ _ _ (mheap fr) (metrics (c fr)));
         [exact HN|]|]; simpl.
    + by eapply HN.
    + intros E. apply (f_equal length) in E.
      rewrite ?length_app in E. simpl in E. lia.
  - eapply nonEmpty_store; [exact HN|]. simpl. by eapply HN.
  - eapply (nonEmpty_new K (mheap fr)); [exact HI|exact HN| | |]; simpl.
    + rewrite length_insert, length_app. simpl. lia.
    + intros mf Hlt. rewrite membersAt_insert_ne by lia.
      by apply membersAt_app_l.
    + intros E. apply (f_equal length) in E.
      rewrite ?length_app in E. simpl in E. lia.
Qed.
End nonEmpty_insert.

Section nonEmpty_update.
Context (K : list Key) (CF : collisionFree K).

Lemma insertLoop_nonEmpty inserts fr fr' :
  Forall (λ ins, key ins ∈ K) inserts →
  Inv K (leaveEarly fr) →
  familiesNonEmpty (leaveEarly fr) →
  insertLoop false inserts fr = Next fr' →
  familiesNonEmpty (leaveEarly fr').
Proof.
  intros Hall. revert fr. induction Hall as [|ins rest Hk _ IH];
    intros fr HI HN; simpl.
  - by intros [= <-].
  - destruct (insertOne false ins fr) as [fr1|fr1 e|] eqn:H1; [|done|done].
    apply IH.
    + apply (insertOne_Inv K ins fr); [done|done|by rewrite H1].
    + by apply (insertOne_nonEmpty K CF ins fr).
Qed.

Lemma deleteLoop_nonEmpty deletions fr fr' :
  familiesNonEmpty (leaveEarly fr) →
  deleteLoop false deletions fr = Some fr' →
  familiesNonEmpty (leaveEarly fr').
Proof.
  revert fr. induction deletions as [|del rest IH]; intros fr HN; simpl.
  - by intros [= <-].
  - destruct (deleteOne false del fr) as [fr1|] eqn:H1; simpl; [|done].
    apply IH. by eapply deleteOne_nonEmpty.
Qed.

(** X2.  Without reset, on keys whose hashes do not confuse two family
    names, from a cache that satisfies the invariant and in which no family
    is without members, a call that does not return the
    unsupported-value-type error leaves no family without members.  (A family
    that is already empty, as the early return can leave one, stays empty
    until a metric of it is inserted.) *)
Theorem Update_without_reset_keeps_families_nonEmpty
    inserts deletions st st' e :
  Forall (λ ins, key ins ∈ K) inserts →
  Inv K st →
  familiesNonEmpty st →
  Update false inserts deletions st = Some (st', e) →
  (∀ vt, e ≠ Some (errUnsupportedValueType vt)) →
  familiesNonEmpty st'.
Proof.
  intros Hins HI HN. unfold Update.
  rewrite <- (leaveEarly_enter st) in HI, HN.
  pose proof (insertLoop_nonEmpty inserts (enter st)) as Hloop.
  pose proof (insertLoop_return_error false inserts (enter st)) as Hret.
  destruct (insertLoop false inserts (enter st)) as [fr1|fr1 e1|]; simpl;
    [| |done].
  - specialize (Hloop fr1 Hins HI HN eq_refl).
    destruct (deleteLoop false deletions fr1) as [fr2|] eqn:H2; simpl; [|done].
    intros [= <- <-] _. rewrite leave_false. by eapply deleteLoop_nonEmpty.
  - destruct (Hret fr1 e1 eq_refl) as [vt ->]. intros [= <- <-] Hno.
    by destruct (Hno vt).
Qed.
End nonEmpty_update.

(** The hypotheses of the two theorems hold of a cache that starts empty and
    of batches on the family ["a"]. *)
Lemma collisionFree_keyA (vs : list string) : collisionFree (keyA <$> vs).
Proof.
  intros k1 k2 h [v1 [-> _]]%list_elem_of_fmap [v2 [-> _]]%list_elem_of_fmap _ _.
  reflexivity.
Qed.

Lemma familiesNonEmpty_empty : familiesNonEmpty emptyState.
Proof. intros name mf H. simpl in H. by rewrite lookup_empty in H. Qed.

Lemma Update_without_reset_keeps_Inv_witness :
  ∃ st',
    Update false [gauge (keyA "1") 1; gauge (keyA "2") 2] [keyA "1"] emptyState
      = Some (st', None)
    ∧ Inv (keyA <$> ["1"; "2"]%string) st' ∧ consistent st'.
Proof.
  exists (stateAfter
            (Update false [gauge (keyA "1") 1; gauge (keyA "2") 2] [keyA "1"]
               emptyState)).
  assert (H : Update false [gauge (keyA "1") 1; gauge (keyA "2") 2] [keyA "1"]
                emptyState
              = Some (stateAfter
                        (Update false [gauge (keyA "1") 1; gauge (keyA "2") 2]
                           [keyA "1"] emptyState), None))
    by (vm_compute; reflexivity).
  split; [exact H|].
  assert (Hins : Forall (λ ins, key ins ∈ keyA <$> ["1"; "2"]%string)
                   [gauge (keyA "1") 1; gauge (keyA "2") 2]).
  { repeat constructor. }
  assert (Hdel : Forall (λ k, k ∈ keyA <$> ["1"; "2"]%string) [keyA "1"]).
  { repeat constructor. }
  destruct (Update_without_reset_keeps_Inv (keyA <$> ["1"; "2"]%string)
              (collisionFree_keyA ["1"; "2"]%string)
              [gauge (keyA "1") 1; gauge (keyA "2") 2] [keyA "1"] emptyState
              _ None Hins Hdel (Inv_empty _) H) as (HI & Hc & _).
  by split.
Defined.

Lemma Update_without_reset_keeps_families_nonEmpty_witness :
  ∃ st',
    Update false [gauge (keyA "1") 1; gauge (keyA "2") 2] [keyA "1"] emptyState
      = Some (st', None)
    ∧ familiesNonEmpty st'.
Proof.
  exists (stateAfter
            (Update false [gauge (keyA "1") 1; gauge (keyA "2") 2] [keyA "1"]
               emptyState)).
  assert (H : Update false [gauge (keyA "1") 1; gauge (keyA "2") 2] [keyA "1"]
                emptyState
              = Some (stateAfter
                        (Update false [gauge (keyA "1") 1; gauge (keyA "2") 2]
                           [keyA "1"] emptyState), None))
    by (vm_compute; reflexivity).
  split; [exact H|].
  assert (Hins : Forall (λ ins, key ins ∈ keyA <$> ["1"; "2"]%string)
                   [gauge (keyA "1") 1; gauge (keyA "2") 2]).
  { repeat constructor. }
  refine (Update_without_reset_keeps_families_nonEmpty
            (keyA <$> ["1"; "2"]%string) (collisionFree_keyA ["1"; "2"]%string)
            [gauge (keyA "1") 1; gauge (keyA "2") 2] [keyA "1"] emptyState
            _ None Hins (Inv_empty _) familiesNonEmpty_empty H _).
  intros vt. discriminate.
Defined.

(** ** What the hash reads of a key *)

Lemma hash_written (k : Key) : hash k = XXH64.Sum64 <$> written k.
Proof. unfold hash, written. by destruct (writeLabels _ _ _). Qed.

Lemma labelPairs_None (names values : list string) :
  labelPairs names values = None ↔ (length values < length names)%nat.
Proof.
  revert values. induction names as [|n names IH]; intros values; simpl.
  - split; [done|lia].
  - destruct values as [|v values]; simpl; [split; [lia|done]|].
    rewrite <- Nat.succ_lt_mono, <- IH.
    destruct (labelPairs names values); simpl; split; done.
Qed.

Lemma labelPairs_take (names values : list string) :
  labelPairs names (take (length names) values) = labelPairs names values.
Proof.
  revert values. induction names as [|n names IH]; intros values; simpl; [done|].
  destruct values as [|v values]; simpl; [done|]. by rewrite IH.
Qed.

Lemma written_pairs (k : Key) :
  written k = hashInput (FQName k) <$> hashedPairs k.
Proof.
  unfold written, hashedPairs. rewrite writeLabels_pairs.
  destruct (labelPairs _ _) as [pairs|]; simpl; [|done].
  unfold hashInput, XXH64.Write, XXH64.WriteString, XXH64.New. simpl.
  by rewrite <- !app_assoc.
Qed.

(** X4.  [hash] panics exactly when there are fewer label values than label
    names; label values beyond the number of names are not read, so a key
    with surplus values has the hash of the key without them. *)
Theorem hash_reads_values_by_name_index (k : Key) :
  (hash k = None ↔ (length (LabelValues k) < length (LabelNames k))%nat)
  ∧ hash k = hash {| FQName := FQName k; LabelNames := LabelNames k;
                     LabelValues := take (length (LabelNames k)) (LabelValues k) |}.
Proof.
  rewrite !hash_written, !written_pairs. unfold hashedPairs. simpl.
  rewrite labelPairs_take. split; [|done].
  rewrite <- labelPairs_None. by destruct (labelPairs _ _).
Qed.

(** Cutting a byte sequence at its first separator. *)
Lemma app_sep_inj (a a' r r' : list byte) :
  xff ∉ a → xff ∉ a' → a ++ xff :: r = a' ++ xff :: r' → a = a' ∧ r = r'.
Proof.
  revert a'. induction a as [|x a IH]; intros [|x' a'] Ha Ha' E; simpl in *.
  - by injection E as ->.
  - injection E as <- _. exfalso. apply Ha'. by left.
  - injection E as -> _. exfalso. apply Ha. by left.
  - injection E as -> E. destruct (IH a') as [-> ->]; try done.
    + intros ?. apply Ha. by right.
    + intros ?. apply Ha'. by right.
Qed.

Lemma list_byte_of_string_inj (s1 s2 : string) :
  list_byte_of_string s1 = list_byte_of_string s2 → s1 = s2.
Proof.
  intros E. rewrite <- (string_of_list_byte_of_string s1),
                    <- (string_of_list_byte_of_string s2). by rewrite E.
Qed.

Lemma pairs_bytes_inj (p1 p2 : list (string * string)) :
  Forall (λ p, sepFree p.1 ∧ sepFree p.2) p1 →
  Forall (λ p, sepFree p.1 ∧ sepFree p.2) p2 →
  (p ← p1; list_byte_of_string p.1 ++ separatorByteSlice
           ++ list_byte_of_string p.2 ++ separatorByteSlice)
  = (p ← p2; list_byte_of_string p.1 ++ separatorByteSlice
             ++ list_byte_of_string p.2 ++ separatorByteSlice) →
  p1 = p2.
Proof.
  intros H1. revert p2. induction H1 as [|[n v] p1 [Hn Hv] _ IH];
    intros p2 H2 E; destruct H2 as [|[n' v'] p2 [Hn' Hv'] H2]; simpl in *.
  - done.
  - by destruct (list_byte_of_string n').
  - by destruct (list_byte_of_string n).
  - repeat (rewrite <- ?app_assoc in E; simpl in E).
    apply app_sep_inj in E as [En E]; [|done|done].
    apply app_sep_inj in E as [Ev E]; [|done|done].
    apply list_byte_of_string_inj in En as ->.
    apply list_byte_of_string_inj in Ev as ->.
    f_equal. by apply IH.
Qed.

Lemma labelPairs_inv (names values : list string) (p : list (string * string)) :
  length names = length values → labelPairs names values = Some p →
  names = p.*1 ∧ values = p.*2.
Proof.
  revert values p. induction names as [|n names IH]; intros [|v values] p Hlen;
    simpl in *; try done.
  - by intros [= <-].
  - destruct (labelPairs names values) as [q|] eqn:Hq; simpl; [|done].
    intros [= <-]. destruct (IH values q) as [-> ->]; [lia|done|done].
Qed.

Lemma labelPairs_sepFree (names values : list string) (p : list (string * string)) :
  Forall sepFree names →
  Forall sepFree values →
  labelPairs names values = Some p →
  Forall (λ p, sepFree p.1 ∧ sepFree p.2) p.
Proof.
  intros Hn. revert values p. induction Hn as [|n names Hn _ IH];
    intros values p Hv; simpl.
  - by intros [= <-].
  - destruct Hv as [|v values Hv Hvs]; [done|].
    destruct (labelPairs names values) as [q|] eqn:Hq; simpl; [|done].
    intros [= <-]. constructor; [done|]. by eapply IH.
Qed.

(** X5.  Two valid keys whose strings do not contain the separator byte give
    the digest the same bytes only when they are the same key: the separator
    keeps names, label names and label values apart. *)
Theorem written_injective (k1 k2 : Key) :
  isValid k1 = None → isValid k2 = None →
  sepFreeKey k1 → sepFreeKey k2 →
  written k1 = written k2 → k1 = k2.
Proof.
  intros [_ Hl1]%isValid_None_inv [_ Hl2]%isValid_None_inv
         (Hn1 & Hns1 & Hvs1) (Hn2 & Hns2 & Hvs2).
  rewrite !written_pairs. unfold hashedPairs.
  destruct (labelPairs_total _ _ Hl1) as [p1 Hp1].
  destruct (labelPairs_total _ _ Hl2) as [p2 Hp2].
  rewrite Hp1, Hp2. simpl. intros [= E]. unfold hashInput in E.
  change separatorByteSlice with [xff] in E at 1 3. simpl in E.
  apply app_sep_inj in E as [En E]; [|done|done].
  apply list_byte_of_string_inj in En.
  apply pairs_bytes_inj in E as ->.
  2: exact (labelPairs_sepFree _ _ _ Hns1 Hvs1 Hp1).
  2: exact (labelPairs_sepFree _ _ _ Hns2 Hvs2 Hp2).
  destruct (labelPairs_inv _ _ _ Hl1 Hp1) as [E1 E1'].
  destruct (labelPairs_inv _ _ _ Hl2 Hp2) as [E2 E2'].
  destruct k1, k2; simpl in *. congruence.
Qed.

Lemma written_injective_witness :
  keyXY = {| FQName := "a"; LabelNames := ["x"; "y"]%string;
             LabelValues := ["1"; "2"]%string |}.
Proof.
  assert (Hfree : sepFreeKey keyXY).
  { unfold sepFreeKey, sepFree. simpl. repeat split; repeat constructor;
      rewrite list_elem_of_In; simpl; intuition discriminate. }
  exact (written_injective keyXY
           {| FQName := "a"; LabelNames := ["x"; "y"]%string;
              LabelValues := ["1"; "2"]%string |}
           eq_refl eq_refl Hfree Hfree eq_refl).
Defined.

(** With the separator inside a string two different valid keys can give the
    digest the same bytes, and then share their hash. *)
Example separator_inside_strings_aliases :
  isValid sepInValue = None ∧ isValid sepInName = None
  ∧ FQName sepInValue ≠ FQName sepInName
  ∧ written sepInValue = written sepInName
  ∧ hash sepInValue = hash sepInName.
Proof.
  split; [reflexivity|]. split; [reflexivity|]. split; [discriminate|].
  split; [reflexivity|]. by rewrite !hash_written.
Qed.

(** ** The millisecond timestamp *)

(** X6.  For a timestamp whose seconds fit the millisecond range of int64 and
    whose nanoseconds are those of [time.Time], the stored [TimestampMs] is
    exactly seconds * 1000 + nanoseconds / 1000000, without wrap-around, and
    lies within the second. *)
Theorem setTimestamp_millis (t : Time) (x : Metric.t) :
  -9223372036854775 ≤ Unix t ≤ 9223372036854774 →
  0 ≤ Nanosecond t ≤ 999999999 →
  Metric.TimestampMs (setTimestamp (Some t) x)
    = Some (Unix t * 1000 + Nanosecond t / 1000000)
  ∧ Unix t * 1000 ≤ Unix t * 1000 + Nanosecond t / 1000000 ≤ Unix t * 1000 + 999.
Proof.
  intros Hs Hn. simpl. unfold int64.
  rewrite Z.quot_div_nonneg by lia.
  assert (0 ≤ Nanosecond t / 1000000 ≤ 999).
  { split; [apply Z.div_pos; lia|].
    assert (Nanosecond t / 1000000 < 1000); [|lia].
    apply Z.div_lt_upper_bound; lia. }
  split; [|lia]. f_equal.
  change (2 ^ 63) with 9223372036854775808.
  change (2 ^ 64) with 18446744073709551616.
  rewrite Z.mod_small by lia. lia.
Qed.

Lemma setTimestamp_millis_witness :
  Metric.TimestampMs
    (setTimestamp (Some {| Unix := 1700000000; Nanosecond := 123456789 |})
       (Metric.Make [] None None None None))
    = Some (1700000000 * 1000 + 123456789 / 1000000)
  ∧ 1700000000 * 1000 ≤ 1700000000 * 1000 + 123456789 / 1000000
    ≤ 1700000000 * 1000 + 999.
Proof.
  apply (setTimestamp_millis {| Unix := 1700000000; Nanosecond := 123456789 |}
           (Metric.Make [] None None None None)); simpl; lia.
Defined.

(** One millisecond past the range the sum wraps to the least int64. *)
Example setTimestamp_wraps :
  Metric.TimestampMs
    (setTimestamp (Some {| Unix := 9223372036854775; Nanosecond := 808000000 |})
       (Metric.Make [] None None None None))
  = Some (- 2 ^ 63).
Proof. reflexivity. Qed.

(** ** The keys of the by-hash index after a call *)

Lemma hashesOf_cons (k : Key) (ks : list Key) :
  hashesOf (k :: ks) = hashSet (keyHash k) ∪ hashesOf ks.
Proof. unfold hashesOf. simpl. destruct (keyHash k); simpl; set_solver. Qed.

Lemma insertOne_dom reset ins fr fr' :
  insertOne reset ins fr = Next fr' →
  dom (currMetrics reset fr')
  = dom (currMetrics reset fr) ∪ hashSet (keyHash (key ins)).
Proof.
  unfold keyHash.
  destruct reset; insertOne_cases; intros [= <-]; simpl;
    rewrite ?dom_insert_L; set_solver.
Qed.

Lemma deleteOne_dom reset del fr fr' :
  deleteOne reset del fr = Some fr' →
  dom (currMetrics reset fr')
  = dom (currMetrics reset fr) ∖ hashSet (keyHash del).
Proof.
  unfold keyHash.
  destruct reset; deleteOne_cases; intros [= <-]; simpl;
    rewrite ?dom_delete_L; try set_solver.
  all: match goal with
       | H : _ !! ?h = None |- _ => apply not_elem_of_dom in H; set_solver
       end.
Qed.

Lemma insertLoop_dom reset inserts fr fr' :
  insertLoop reset inserts fr = Next fr' →
  dom (currMetrics reset fr')
  = dom (currMetrics reset fr) ∪ hashesOf (key <$> inserts).
Proof.
  revert fr. induction inserts as [|ins rest IH]; intros fr; simpl.
  - intros [= <-]. unfold hashesOf. simpl. set_solver.
  - destruct (insertOne reset ins fr) as [fr1| |] eqn:H1; try done.
    intros H. rewrite (IH _ H), (insertOne_dom _ _ _ _ H1), hashesOf_cons.
    set_solver.
Qed.

Lemma deleteLoop_dom reset deletions fr fr' :
  deleteLoop reset deletions fr = Some fr' →
  dom (currMetrics reset fr')
  = dom (currMetrics reset fr) ∖ hashesOf deletions.
Proof.
  revert fr. induction deletions as [|del rest IH]; intros fr; simpl.
  - intros [= <-]. unfold hashesOf. simpl. set_solver.
  - destruct (deleteOne reset del fr) as [fr1|] eqn:H1; simpl; [|done].
    intros H. rewrite (IH _ H), (deleteOne_dom _ _ _ _ H1), hashesOf_cons.
    set_solver.
Qed.

(** X7.  After a call that did not return the unsupported-value-type error,
    the by-hash index holds exactly the hashes it held before (none of them
    under reset) and the hashes of the valid keys inserted, without the hashes
    of the valid keys deleted. *)
Theorem Update_by_hash_domain
    (reset : bool) (inserts : list Insert) (deletions : list Key)
    (st st' : State) (e : option error) :
  Update reset inserts deletions st = Some (st', e) →
  (∀ vt, e ≠ Some (errUnsupportedValueType vt)) →
  dom (metrics (cache st'))
  = ((if reset then ∅ else dom (metrics (cache st)))
     ∪ hashesOf (key <$> inserts)) ∖ hashesOf deletions.
Proof.
  unfold Update.
  pose proof (insertLoop_dom reset inserts (enter st)) as Hins.
  pose proof (insertLoop_return_error reset inserts (enter st)) as Hret.
  destruct (insertLoop reset inserts (enter st)) as [fr1|fr1 e1|]; [| |done].
  - specialize (Hins fr1 eq_refl).
    destruct (deleteLoop reset deletions fr1) as [fr2|] eqn:H2; simpl; [|done].
    intros [= <- <-] _. simpl.
    rewrite (deleteLoop_dom _ _ _ _ H2), Hins. by destruct reset.
  - destruct (Hret fr1 e1 eq_refl) as [vt ->]. intros [= <- <-] Hno.
    by destruct (Hno vt).
Qed.

Lemma Update_by_hash_domain_witness :
  dom (metrics (cache (stateAfter
         (Update false [gauge (keyA "2") 2; zeroKind noName] [keyA "1"; keyA "3"]
            oneGauge))))
  = ((if false then ∅ else dom (metrics (cache oneGauge)))
     ∪ hashesOf (key <$> [gauge (keyA "2") 2; zeroKind noName]))
    ∖ hashesOf [keyA "1"; keyA "3"].
Proof.
  refine (Update_by_hash_domain false [gauge (keyA "2") 2; zeroKind noName]
            [keyA "1"; keyA "3"] oneGauge _
            (Some (MultiError [errEmptyFQName])) _ _).
  - vm_compute. reflexivity.
  - intros vt. discriminate.
Defined.

(** ** Exactly one value arm *)

Lemma arms_setValue vt v x y ts :
  setValue vt v x = Some y → arms (setTimestamp ts y) = 1%nat.
Proof. destruct vt; simpl; intros [= <-]; reflexivity. Qed.

Lemma oneArm_store mh ms m x :
  oneArmEach mh ms → arms x = 1%nat → oneArmEach (<[m := x]> mh) ms.
Proof.
  intros H Hx h p Hp. destruct (H h p Hp) as [Hlt Ha].
  rewrite length_insert. split; [done|].
  destruct (decide (m = p)) as [->|Hne].
  - by rewrite list_lookup_total_insert_eq.
  - by rewrite list_lookup_total_insert_ne.
Qed.

Lemma oneArm_grow mh ms l : oneArmEach mh ms → oneArmEach (mh ++ l) ms.
Proof.
  intros H h p Hp. destruct (H h p Hp) as [Hlt Ha].
  rewrite length_app, lookup_total_app_l by done. split; [lia|done].
Qed.

Lemma oneArm_insert mh ms h m :
  oneArmEach mh ms → (m < length mh)%nat → arms (mh !!! m) = 1%nat →
  oneArmEach mh (<[h := m]> ms).
Proof.
  intros H Hlt Ha h' p. rewrite lookup_insert. case_decide.
  - by intros [= <-].
  - apply (H h').
Qed.

Lemma oneArm_delete mh ms h : oneArmEach mh ms → oneArmEach mh (delete h ms).
Proof. intros H h' p [_ Hp]%lookup_delete_Some. by apply (H h'). Qed.

Lemma oneArm_empty mh : oneArmEach mh ∅.
Proof. intros h p Hp. by rewrite lookup_empty in Hp. Qed.

Ltac oneArm_step :=
  match goal with
  | |- oneArmEach _ (<[_ := _]> _) => apply oneArm_insert
  | |- oneArmEach (<[_ := _]> _) _ => apply oneArm_store
  | |- oneArmEach (_ ++ _) _ => apply oneArm_grow
  | |- oneArmEach _ (delete _ _) => apply oneArm_delete
  | |- oneArmEach _ _ => assumption
  | |- arms (setTimestamp _ _) = _ => eapply arms_setValue; eassumption
  | |- arms (<[?m := _]> _ !!! ?m) = _ =>
      rewrite list_lookup_total_insert_eq
        by (rewrite ?length_insert, ?length_app; simpl; lia)
  | |- (_ < length _)%nat => rewrite ?length_insert, ?length_app; simpl; lia
  end.

Lemma insertOne_oneArm reset ins fr fr' :
  oneArmFrame fr →
  frameOf (insertOne reset ins fr) = Some fr' →
  oneArmFrame fr'.
Proof.
  intros [Hc Hm].
  destruct reset; insertOne_cases; intros [= <-]; split; simpl.
  all: try match goal with
         | H : metrics _ !! ?h = Some ?m |- _ =>
             destruct (Hc h m H) as [? ?]
         end.
  all: repeat oneArm_step.
Qed.

Lemma deleteOne_oneArm reset del fr fr' :
  oneArmFrame fr → deleteOne reset del fr = Some fr' → oneArmFrame fr'.
Proof.
  intros [Hc Hm].
  destruct reset; deleteOne_cases; intros [= <-]; split; simpl;
    repeat oneArm_step.
Qed.

Lemma insertLoop_oneArm reset inserts fr fr' :
  oneArmFrame fr →
  frameOf (insertLoop reset inserts fr) = Some fr' →
  oneArmFrame fr'.
Proof.
  revert fr. induction inserts as [|ins rest IH]; intros fr HJ; simpl.
  - by intros [= <-].
  - pose proof (insertOne_oneArm reset ins fr) as Hstep.
    destruct (insertOne reset ins fr) as [fr1|fr1 e|]; simpl in *; [| |done].
    + apply IH. by apply Hstep.
    + intros [= <-]. by apply Hstep.
Qed.

Lemma deleteLoop_oneArm reset deletions fr fr' :
  oneArmFrame fr → deleteLoop reset deletions fr = Some fr' → oneArmFrame fr'.
Proof.
  revert fr. induction deletions as [|del rest IH]; intros fr HJ; simpl.
  - by intros [= <-].
  - destruct (deleteOne reset del fr) as [fr1|] eqn:H1; simpl; [|done].
    apply IH. by eapply deleteOne_oneArm.
Qed.

(** X8.  If every metric of the by-hash index has exactly one of its three
    value arms set before a call, so it is after the call, with or without
    reset and also when the call returns an error: the switch on the value
    type sets one arm and clears the two others, and a metric is entered into
    the index only after that. *)
Theorem Update_keeps_one_value_arm
    (reset : bool) (inserts : list Insert) (deletions : list Key)
    (st st' : State) (e : option error) :
  oneArmEach (metricHeap st) (metrics (cache st)) →
  Update reset inserts deletions st = Some (st', e) →
  oneArmEach (metricHeap st') (metrics (cache st')).
Proof.
  intros H0. unfold Update.
  assert (HJ : oneArmFrame (enter st)) by (split; [exact H0|apply oneArm_empty]).
  pose proof (insertLoop_oneArm reset inserts (enter st)) as Hins.
  destruct (insertLoop reset inserts (enter st)) as [fr1|fr1 e1|]; [| |done].
  - specialize (Hins fr1 HJ eq_refl).
    destruct (deleteLoop reset deletions fr1) as [fr2|] eqn:H2; simpl; [|done].
    intros [= <- <-]. simpl.
    destruct (deleteLoop_oneArm _ _ _ _ Hins H2) as [Hc Hm].
    by destruct reset.
  - specialize (Hins fr1 HJ eq_refl). intros [= <- <-]. apply Hins.
Qed.

Lemma Update_keeps_one_value_arm_witness :
  oneArmEach
    (metricHeap (stateAfter
       (Update true [gauge (keyA "2") 2; zeroKind (keyA "1")] [] oneGauge)))
    (metrics (cache (stateAfter
       (Update true [gauge (keyA "2") 2; zeroKind (keyA "1")] [] oneGauge)))).
Proof.
  refine (Update_keeps_one_value_arm true
            [gauge (keyA "2") 2; zeroKind (keyA "1")] [] oneGauge _
            (Some (errUnsupportedValueType (prometheus.OtherValue 0))) _ _).
  - refine (Update_keeps_one_value_arm false [gauge (keyA "1") 1] [] emptyState
              oneGauge None _ _).
    + intros h m H. simpl in H. by rewrite lookup_empty in H.
    + vm_compute. reflexivity.
  - vm_compute. reflexivity.
Defined.

(** ** A cache over its lifetime *)

(** With no inserts and the working maps still empty, deletions under reset
    find nothing. *)
Lemma deleteOne_reset_empty del fr fr' :
  made fr = NewCachedTGatherer →
  deleteOne true del fr = Some fr' →
  made fr' = NewCachedTGatherer.
Proof.
  intros Hm. unfold deleteOne.
  destruct (isValid del); [by intros [= <-]|].
  destruct (hash del) as [h|]; simpl; [|done].
  unfold currMetrics, curr. rewrite Hm. simpl. rewrite lookup_empty.
  by intros [= <-].
Qed.

Lemma deleteLoop_reset_empty deletions fr fr' :
  made fr = NewCachedTGatherer →
  deleteLoop true deletions fr = Some fr' →
  made fr' = NewCachedTGatherer.
Proof.
  revert fr. induction deletions as [|del rest IH]; intros fr Hm; simpl.
  - by intros [= <-].
  - destruct (deleteOne true del fr) as [fr1|] eqn:H1; simpl; [|done].
    apply IH. by eapply deleteOne_reset_empty.
Qed.

Lemma Inv_cleared K mh fh : Inv K (mkState mh fh ∅ ∅).
Proof. split; simpl; intros *; rewrite ?lookup_empty; done. Qed.

Lemma Update_clear_Inv K deletions st st' e :
  Update true [] deletions st = Some (st', e) → Inv K st'.
Proof.
  unfold Update. simpl.
  destruct (deleteLoop true deletions (enter st)) as [fr|] eqn:H; simpl; [|done].
  intros [= <- _]. unfold leave, currMetrics, currMetricFamilies, curr.
  rewrite (deleteLoop_reset_empty deletions (enter st) fr eq_refl H). apply Inv_cleared.
Qed.

Section lifetime.
Context (K : list Key) (CF : collisionFree K).

Lemma Update_steady_Inv reset inserts deletions st st' e :
  (reset = true → inserts = []) →
  Forall (λ ins, key ins ∈ K) inserts →
  Forall (λ k, k ∈ K) deletions →
  Inv K st →
  Update reset inserts deletions st = Some (st', e) →
  Inv K st'.
Proof.
  intros Hreset Hins Hdel HI. destruct reset.
  - rewrite (Hreset eq_refl). apply Update_clear_Inv.
  - unfold Update. rewrite <- (leaveEarly_enter st) in HI.
    pose proof (insertLoop_Inv K inserts (enter st)) as Hloop.
    destruct (insertLoop false inserts (enter st)) as [fr1|fr1 e1|]; simpl in *;
      [| |done].
    + specialize (Hloop fr1 Hins HI eq_refl).
      destruct (deleteLoop false deletions fr1) as [fr2|] eqn:H2; simpl; [|done].
      intros [= <- _]. rewrite leave_false.
      by destruct (deleteLoop_Inv K CF deletions fr1 fr2 Hdel Hloop H2).
    + specialize (Hloop fr1 Hins HI eq_refl). by intros [= <- _].
Qed.

Lemma runUpdates_Inv calls st st' :
  Forall (steadyCall K) calls →
  Inv K st →
  runUpdates calls st = Some st' →
  Inv K st'.
Proof.
  intros Hall. revert st. induction Hall as [|cl rest (Hr & Hi & Hd) _ IH];
    intros st HI; simpl.
  - by intros [= <-].
  - destruct (Update (call_reset cl) (call_inserts cl) (call_deletions cl) st)
      as [[st1 e]|] eqn:H1; simpl; [|done].
    apply IH. by eapply Update_steady_Inv.
Qed.

End lifetime.

(** X9.  A cache made by [NewCachedTGatherer] and taken through any sequence
    of calls, each without reset or a reset with no inserts, on keys whose
    hashes do not confuse two family names, has mutually consistent indexes
    after the last call, whatever errors the calls returned. *)
Theorem new_cache_stays_consistent (K : list Key) (calls : list Call)
    (st : State) :
  collisionFree K →
  Forall (steadyCall K) calls →
  runUpdates calls emptyState = Some st →
  consistent st.
Proof.
  intros CF Hall Hrun. eapply Inv_consistent.
  eapply (runUpdates_Inv K CF); [exact Hall|apply Inv_empty|exact Hrun].
Qed.

Lemma new_cache_stays_consistent_witness :
  consistent
    (default emptyState
       (runUpdates
          [ {| call_reset := false;
               call_inserts := [gauge (keyA "1") 1; zeroKind (keyA "2")];
               call_deletions := [] |};
            {| call_reset := false;
               call_inserts := [gauge (keyA "2") 2];
               call_deletions := [keyA "1"; keyA "3"] |};
            {| call_reset := true; call_inserts := [];
               call_deletions := [keyA "2"] |};
            {| call_reset := false;
               call_inserts := [gauge (keyA "3") 3];
               call_deletions := [] |} ]
          emptyState)).
Proof.
  match goal with
  | |- consistent (default _ (runUpdates ?calls _)) =>
      refine (new_cache_stays_consistent (keyA <$> ["1"; "2"; "3"]%string)
                calls _ (collisionFree_keyA _) _ _)
  end.
  - repeat constructor; simpl; try done; set_solver.
  - vm_compute. reflexivity.
Defined.

(** ** Insert, then look up *)

Lemma shows_written ins x y :
  setValue (ValueType ins) (Value ins) x = Some y →
  shows ins (setTimestamp (Timestamp ins) y).
Proof.
  unfold shows, setTimestamp, int64.
  destruct (ValueType ins); simpl; intros [= <-]; simpl; done.
Qed.

Section indexes.
Context {A : Type} `{Countable A}.
Implicit Types (ms old : gmap A loc) (k : A) (n m : nat).

Lemma indexSound_le n n' ms : (n ≤ n')%nat → indexSound n ms → indexSound n' ms.
Proof.
  intros Hle Hs k m Hm. destruct (Hs k m Hm) as [Hlt Hi]. split; [lia|done].
Qed.

Lemma indexSound_delete n ms k : indexSound n ms → indexSound n (delete k ms).
Proof.
  intros Hs k1 m1 [Hne H1]%lookup_delete_Some.
  destruct (Hs k1 m1 H1) as [Hlt Hi]. split; [done|].
  intros k' [_ H']%lookup_delete_Some. by apply Hi.
Qed.

Lemma indexSound_insert_new n ms k :
  indexSound n ms → indexSound (S n) (<[k := n]> ms).
Proof.
  intros Hs k1 m1. destruct (decide (k1 = k)) as [->|Hne].
  - rewrite lookup_insert_eq. intros [= <-]. split; [lia|].
    intros k'. destruct (decide (k' = k)) as [->|Hne']; [done|].
    rewrite lookup_insert_ne by done. intros Hk'.
    destruct (Hs k' _ Hk') as [Hlt _]. lia.
  - rewrite lookup_insert_ne by done. intros H1.
    destruct (Hs k1 m1 H1) as [Hlt Hi]. split; [lia|].
    intros k'. destruct (decide (k' = k)) as [->|Hne'].
    + rewrite lookup_insert_eq. intros [= <-]. lia.
    + rewrite lookup_insert_ne by done. apply Hi.
Qed.

Lemma indexSound_insert_reuse n old ms k m :
  indexSound n old → indexSound n ms → reusedOrNew old ms →
  old !! k = Some m → indexSound n (<[k := m]> ms).
Proof.
  intros Ho Hs Hr Hm. destruct (Ho k m Hm) as [Hlt Hinj].
  assert (Hsame : ∀ k', ms !! k' = Some m → k' = k).
  { intros k' H'. destruct (Hr k' m H') as [Hold|Hnew]; [by apply Hinj|].
    by destruct (Hnew k). }
  intros k1 m1. destruct (decide (k1 = k)) as [->|Hne].
  - rewrite lookup_insert_eq. intros [= <-]. split; [done|].
    intros k'. destruct (decide (k' = k)) as [->|Hne']; [done|].
    rewrite lookup_insert_ne by done. apply Hsame.
  - rewrite lookup_insert_ne by done. intros H1.
    destruct (Hs k1 m1 H1) as [Hlt1 Hi1]. split; [done|].
    intros k'. destruct (decide (k' = k)) as [->|Hne'].
    + rewrite lookup_insert_eq. intros [= <-]. by destruct Hne; apply Hsame.
    + rewrite lookup_insert_ne by done. apply Hi1.
Qed.

Lemma reusedOrNew_refl ms : reusedOrNew ms ms.
Proof. intros k m Hm. by left. Qed.

Lemma reusedOrNew_insert_reuse old ms k m :
  reusedOrNew old ms → old !! k = Some m → reusedOrNew old (<[k := m]> ms).
Proof.
  intros Hr Hm k1 m1. destruct (decide (k1 = k)) as [->|Hne].
  - rewrite lookup_insert_eq. intros [= <-]. by left.
  - rewrite lookup_insert_ne by done. apply Hr.
Qed.

Lemma reusedOrNew_insert_new n old ms k :
  indexSound n old → reusedOrNew old ms → reusedOrNew old (<[k := n]> ms).
Proof.
  intros Ho Hr k1 m1. destruct (decide (k1 = k)) as [->|Hne].
  - rewrite lookup_insert_eq. intros [= <-]. right. intros k' H'.
    destruct (Ho k' _ H') as [Hlt _]. lia.
  - rewrite lookup_insert_ne by done. apply Hr.
Qed.

Lemma reusedOrNew_delete old ms k :
  reusedOrNew old ms → reusedOrNew old (delete k ms).
Proof. intros Hr k1 m1 [_ H1]%lookup_delete_Some. by apply Hr. Qed.

End indexes.

Ltac sound_step :=
  match goal with
  | |- indexSound _ _ => assumption
  | |- reusedOrNew _ _ => assumption
  | |- reusedOrNew ?a ?a => apply reusedOrNew_refl
  | |- indexSound _ (delete _ _) => apply indexSound_delete
  | |- indexSound (S ?n) (<[_ := ?n]> _) => apply indexSound_insert_new
  | |- indexSound (S ?n) _ => apply (indexSound_le n (S n)); [lia|]
  | |- indexSound _ (<[_ := _]> _) =>
      eapply indexSound_insert_reuse; [| | |eassumption]
  | |- reusedOrNew _ (delete _ _) => apply reusedOrNew_delete
  | |- reusedOrNew _ (<[_ := length _]> _) => eapply reusedOrNew_insert_new
  | |- reusedOrNew _ (<[_ := _]> _) => apply reusedOrNew_insert_reuse
  | |- _ !! _ = Some _ => eassumption
  end.

Ltac sound_frame :=
  unfold soundFrame, soundFamilies, metricsSound, familiesSound, currMetrics,
    currMetricFamilies, curr in *;
  simpl in *; rewrite ?length_insert, ?length_app, ?Nat.add_1_r; simpl;
  split_and!; repeat sound_step.

Lemma insertOne_sound reset ins fr fr' :
  soundFrame reset fr →
  frameOf (insertOne reset ins fr) = Some fr' →
  soundFrame reset fr'.
Proof.
  intros (Hc & Hw & Hr).
  destruct reset; insertOne_cases; intros [= <-]; sound_frame.
Qed.

Lemma deleteOne_sound reset del fr fr' :
  soundFrame reset fr → deleteOne reset del fr = Some fr' → soundFrame reset fr'.
Proof.
  intros (Hc & Hw & Hr).
  destruct reset; deleteOne_cases; intros [= <-]; sound_frame.
Qed.

Lemma insertOne_shows reset ins fr fr' h :
  keyHash (key ins) = Some h →
  soundFrame reset fr →
  insertOne reset ins fr = Next fr' →
  shownAt reset h ins fr'.
Proof.
  unfold keyHash. intros Hk (Hc & Hw & Hr). revert Hk.
  destruct reset; insertOne_cases; try done; intros [= ->] [= <-];
    unfold shownAt, currMetrics, curr; simpl.
  all: try match goal with
         | H : metrics _ !! ?h = Some ?m |- _ =>
             pose proof (Hc h m H) as [? ?]
         end.
  all: eexists; rewrite lookup_insert_eq; split; [reflexivity|].
  all: rewrite list_lookup_total_insert_eq
         by (rewrite ?length_insert, ?length_app; simpl; lia).
  all: by eapply shows_written.
Qed.

Lemma insertOne_keeps_shown reset i fr fr' h ins :
  keyHash (key i) ≠ Some h →
  soundFrame reset fr →
  insertOne reset i fr = Next fr' →
  shownAt reset h ins fr → shownAt reset h ins fr'.
Proof.
  unfold keyHash. intros Hk (Hc & Hw & Hr) Hrun (m & Hm & Hs).
  destruct (Hw h m Hm) as [Hlt _]. pose proof (Hr h m Hm) as Hor.
  revert Hk Hrun.
  destruct reset; insertOne_cases; try done; intros Hk [= <-];
    unfold shownAt, currMetrics, curr in *; simpl in *.
  all: try by (exists m).
  all: try match goal with
         | H : metrics _ !! ?h = Some ?m |- _ =>
             pose proof (Hc h m H) as [? ?]
         end.
  all: exists m; rewrite lookup_insert_ne by congruence; split; [done|].
  all: rewrite list_lookup_total_insert_ne; [rewrite ?lookup_total_app_l by lia; done|].
  all: try lia.
  all: intros <-.
  all: destruct Hor as [Hor|Hor]; [|by eapply Hor].
  all: match goal with
       | H : ∀ h', _ !! h' = Some _ → h' = _ |- _ =>
           pose proof (H _ Hor)
       end; congruence.
Qed.

Lemma deleteOne_keeps_shown reset del fr fr' h ins :
  keyHash del ≠ Some h →
  deleteOne reset del fr = Some fr' →
  shownAt reset h ins fr → shownAt reset h ins fr'.
Proof.
  unfold keyHash. intros Hk Hrun (m & Hm & Hs). revert Hk Hrun.
  destruct reset; deleteOne_cases; try done; intros Hk [= <-];
    unfold shownAt, currMetrics, curr in *; simpl in *.
  all: try by (exists m).
  all: exists m; rewrite lookup_delete_ne by congruence; done.
Qed.

Lemma insertLoop_sound reset inserts fr fr' :
  soundFrame reset fr →
  frameOf (insertLoop reset inserts fr) = Some fr' →
  soundFrame reset fr'.
Proof.
  revert fr. induction inserts as [|i rest IH]; intros fr HJ; simpl.
  - by intros [= <-].
  - pose proof (insertOne_sound reset i fr) as H1.
    destruct (insertOne reset i fr) as [fr1|fr1 e1|]; simpl in *; [| |done].
    + apply IH. by apply H1.
    + intros [= <-]. by apply H1.
Qed.

Lemma deleteLoop_sound reset deletions fr fr' :
  soundFrame reset fr → deleteLoop reset deletions fr = Some fr' →
  soundFrame reset fr'.
Proof.
  revert fr. induction deletions as [|d rest IH]; intros fr HJ; simpl.
  - by intros [= <-].
  - destruct (deleteOne reset d fr) as [fr1|] eqn:H1; simpl; [|done].
    apply IH. by eapply deleteOne_sound.
Qed.

Lemma insertLoop_keeps_shown reset inserts fr fr' h ins :
  h ∉ hashesOf (key <$> inserts) →
  soundFrame reset fr →
  insertLoop reset inserts fr = Next fr' →
  shownAt reset h ins fr → shownAt reset h ins fr'.
Proof.
  revert fr. induction inserts as [|i rest IH]; intros fr Hh HJ; simpl.
  - by intros [= <-].
  - simpl in Hh. rewrite hashesOf_cons in Hh.
    destruct (insertOne reset i fr) as [fr1| |] eqn:H1; try done.
    intros Hrun Hs. eapply (IH fr1); [set_solver| |exact Hrun|].
    + eapply insertOne_sound; [exact HJ|]. by rewrite H1.
    + eapply insertOne_keeps_shown; [|exact HJ|exact H1|exact Hs].
      intros Heq. rewrite Heq in Hh. simpl in Hh. set_solver.
Qed.

Lemma deleteLoop_keeps_shown reset deletions fr fr' h ins :
  h ∉ hashesOf deletions →
  deleteLoop reset deletions fr = Some fr' →
  shownAt reset h ins fr → shownAt reset h ins fr'.
Proof.
  revert fr. induction deletions as [|d rest IH]; intros fr Hh; simpl.
  - by intros [= <-].
  - rewrite hashesOf_cons in Hh.
    destruct (deleteOne reset d fr) as [fr1|] eqn:H1; simpl; [|done].
    intros Hrun Hs. eapply (IH fr1); [set_solver|exact Hrun|].
    eapply deleteOne_keeps_shown; [|exact H1|exact Hs].
    intros Heq. rewrite Heq in Hh. simpl in Hh. set_solver.
Qed.

Lemma insertLoop_prefix reset pre post fr fr' :
  insertLoop reset (pre ++ post) fr = Next fr' →
  ∃ fr1, insertLoop reset pre fr = Next fr1.
Proof.
  revert fr. induction pre as [|i rest IH]; intros fr; simpl; [by eexists|].
  destruct (insertOne reset i fr); try done. apply IH.
Qed.

Lemma enter_sound reset st :
  metricsSound (metricHeap st) (metrics (cache st)) → soundFrame reset (enter st).
Proof.
  intros H. unfold soundFrame, currMetrics, curr.
  destruct reset; simpl; split_and!; try done;
    try apply reusedOrNew_refl; intros h m; by rewrite lookup_empty.
Qed.

(** X10.  Insert, then look up.  In a call that runs to the end, on a cache
    whose by-hash index points at allocated records and at each from one hash
    only, the last insert of a key's hash that is applied decides what the
    index shows under that hash after the call, if no deletion of the call
    has that hash: the record holds the insert's value under the arm of its
    value type, nil under the two other arms, and as its timestamp nil when
    the insert has none, else seconds * 1000 + nanoseconds / 1000000 as an
    int64.  This holds with and without reset. *)
Theorem Update_last_insert_wins
    (reset : bool) (pre post : list Insert) (ins : Insert) (deletions : list Key)
    (st st' : State) (e : option error) (h : Z) :
  metricsSound (metricHeap st) (metrics (cache st)) →
  keyHash (key ins) = Some h →
  h ∉ hashesOf (key <$> post) →
  h ∉ hashesOf deletions →
  Update reset (pre ++ ins :: post) deletions st = Some (st', e) →
  (∀ vt, e ≠ Some (errUnsupportedValueType vt)) →
  ∃ m, metrics (cache st') !! h = Some m ∧ shows ins (metricHeap st' !!! m).
Proof.
  intros Hst Hk Hpost Hdel. unfold Update.
  pose proof (insertLoop_return_error reset (pre ++ ins :: post) (enter st)) as Hret.
  destruct (insertLoop reset (pre ++ ins :: post) (enter st))
    as [fr3|fr3 e3|] eqn:Hloop; [| |done].
  - clear Hret.
    destruct (deleteLoop reset deletions fr3) as [fr4|] eqn:H4; simpl; [|done].
    intros [= <- <-] _. simpl.
    assert (shownAt reset h ins fr4) as (m & Hm & Hs); [|by exists m].
    eapply deleteLoop_keeps_shown; [exact Hdel|exact H4|].
    destruct (insertLoop_prefix _ _ _ _ _ Hloop) as [fr1 H1].
    rewrite (insertLoop_app _ _ _ _ _ H1) in Hloop. simpl in Hloop.
    assert (soundFrame reset fr1) as HJ1.
    { eapply insertLoop_sound; [exact (enter_sound reset st Hst)|]. by rewrite H1. }
    destruct (insertOne reset ins fr1) as [fr2| |] eqn:H2; try done.
    eapply insertLoop_keeps_shown; [exact Hpost| |exact Hloop|].
    + eapply insertOne_sound; [exact HJ1|]. by rewrite H2.
    + by eapply insertOne_shows.
  - destruct (Hret fr3 e3 eq_refl) as [vt ->]. intros [= <- <-] Hno.
    by destruct (Hno vt).
Qed.

Lemma Inv_metricsSound K st :
  Inv K st → metricsSound (metricHeap st) (metrics (cache st)).
Proof.
  intros HI h m Hm. split; [by eapply inv_metric_alloc|].
  intros h' Hm'. by eapply inv_metric_inj.
Qed.

Lemma oneGauge_sound : metricsSound (metricHeap oneGauge) (metrics (cache oneGauge)).
Proof.
  apply (Inv_metricsSound [keyA "1"]).
  eapply (Update_steady_Inv [keyA "1"] (collisionFree_keyA ["1"%string])
            false [gauge (keyA "1") 1] [] emptyState oneGauge None).
  - done.
  - repeat constructor.
  - constructor.
  - apply Inv_empty.
  - vm_compute. reflexivity.
Qed.

Lemma Update_last_insert_wins_witness :
  ∃ m,
    metrics (cache (stateAfter
      (Update true
         ([gauge (keyA "2") 2]
          ++ {| key := keyA "1"; Help := "help";
                ValueType := prometheus.CounterValue; Value := 7%float;
                Timestamp := Some {| Unix := 1; Nanosecond := 5000000 |} |}
             :: [gauge (keyA "2") 3])
         [keyA "2"; noName] oneGauge)))
      !! default 0 (keyHash (keyA "1")) = Some m
    ∧ shows {| key := keyA "1"; Help := "help";
               ValueType := prometheus.CounterValue; Value := 7%float;
               Timestamp := Some {| Unix := 1; Nanosecond := 5000000 |} |}
        (metricHeap (stateAfter
           (Update true
              ([gauge (keyA "2") 2]
               ++ {| key := keyA "1"; Help := "help";
                     ValueType := prometheus.CounterValue; Value := 7%float;
                     Timestamp := Some {| Unix := 1; Nanosecond := 5000000 |} |}
                  :: [gauge (keyA "2") 3])
              [keyA "2"; noName] oneGauge)) !!! m).
Proof.
  refine (Update_last_insert_wins true [gauge (keyA "2") 2] [gauge (keyA "2") 3]
            {| key := keyA "1"; Help := "help";
               ValueType := prometheus.CounterValue; Value := 7%float;
               Timestamp := Some {| Unix := 1; Nanosecond := 5000000 |} |}
            [keyA "2"; noName] oneGauge _ (Some (MultiError [errEmptyFQName]))
            (default 0 (keyHash (keyA "1"))) oneGauge_sound _ _ _ _ _).
  - vm_compute. reflexivity.
  - refine (bool_decide_eq_true_1 _ _). vm_compute. reflexivity.
  - refine (bool_decide_eq_true_1 _ _). vm_compute. reflexivity.
  - vm_compute. reflexivity.
  - intros vt. discriminate.
Defined.

Lemma reusedOrMade_insert old n ms h (m : loc) :
  reusedOrMade old n ms → old !! h = Some m ∨ (n ≤ m)%nat →
  reusedOrMade old n (<[h := m]> ms).
Proof.
  intros Hr Hm h1 m1. destruct (decide (h1 = h)) as [->|Hne].
  - rewrite lookup_insert_eq. by intros [= <-].
  - rewrite lookup_insert_ne by done. apply Hr.
Qed.

Lemma reusedOrMade_delete old n ms h :
  reusedOrMade old n ms → reusedOrMade old n (delete h ms).
Proof. intros Hr h1 m1 [_ H1]%lookup_delete_Some. by apply Hr. Qed.

Lemma insertOne_reusedOrMade reset ins fr fr' old n :
  (n ≤ length (mheap fr))%nat →
  reusedOrMade old n (metrics (c fr)) →
  reusedOrMade old n (currMetrics reset fr) →
  frameOf (insertOne reset ins fr) = Some fr' →
  (n ≤ length (mheap fr'))%nat
  ∧ reusedOrMade old n (metrics (c fr'))
  ∧ reusedOrMade old n (currMetrics reset fr').
Proof.
  intros Hn Hc Hw.
  destruct reset; insertOne_cases; intros [= <-];
    unfold currMetrics, curr in *; simpl in *.
  all: rewrite ?length_insert, ?length_app; simpl.
  all: split_and!; try done; try lia.
  all: apply reusedOrMade_insert; try done.
  all: try (right; lia).
  all: match goal with
       | H : metrics _ !! ?h = Some ?m |- _ => exact (Hc h m H)
       end.
Qed.

Lemma deleteOne_reusedOrMade reset del fr fr' old n :
  reusedOrMade old n (currMetrics reset fr) →
  deleteOne reset del fr = Some fr' →
  reusedOrMade old n (currMetrics reset fr').
Proof.
  intros Hw.
  destruct reset; deleteOne_cases; intros [= <-];
    unfold currMetrics, curr in *; simpl in *.
  all: try done.
  all: by apply reusedOrMade_delete.
Qed.

Lemma insertLoop_reusedOrMade reset inserts fr fr' old n :
  (n ≤ length (mheap fr))%nat →
  reusedOrMade old n (metrics (c fr)) →
  reusedOrMade old n (currMetrics reset fr) →
  frameOf (insertLoop reset inserts fr) = Some fr' →
  reusedOrMade old n (metrics (c fr'))
  ∧ reusedOrMade old n (currMetrics reset fr').
Proof.
  revert fr. induction inserts as [|i rest IH]; intros fr Hn Hc Hw; simpl.
  - by intros [= <-].
  - pose proof (insertOne_reusedOrMade reset i fr) as H1.
    destruct (insertOne reset i fr) as [fr1|fr1 e1|]; simpl in *; [| |done].
    + destruct (H1 fr1 old n Hn Hc Hw eq_refl) as (? & ? & ?). by apply IH.
    + intros [= <-]. by destruct (H1 fr1 old n Hn Hc Hw eq_refl) as (? & ? & ?).
Qed.

Lemma deleteLoop_reusedOrMade reset deletions fr fr' old n :
  reusedOrMade old n (currMetrics reset fr) →
  deleteLoop reset deletions fr = Some fr' →
  reusedOrMade old n (currMetrics reset fr').
Proof.
  revert fr. induction deletions as [|d rest IH]; intros fr Hw; simpl.
  - by intros [= <-].
  - destruct (deleteOne reset d fr) as [fr1|] eqn:H1; simpl; [|done].
    apply IH. by eapply deleteOne_reusedOrMade.
Qed.

(** X11.  The by-hash index stays sound through any call, with or without
    reset and also on the early return: its pointers are allocated and no
    record is held under two hashes.  And every metric the index holds after
    the call is the one it held under the same hash before the call (reused
    memory) or a record made during the call. *)
Theorem Update_keeps_by_hash_sound
    (reset : bool) (inserts : list Insert) (deletions : list Key)
    (st st' : State) (e : option error) :
  metricsSound (metricHeap st) (metrics (cache st)) →
  Update reset inserts deletions st = Some (st', e) →
  metricsSound (metricHeap st') (metrics (cache st'))
  ∧ ∀ h m, metrics (cache st') !! h = Some m →
           metrics (cache st) !! h = Some m
           ∨ (length (metricHeap st) ≤ m)%nat.
Proof.
  intros Hst. unfold Update.
  pose proof (insertLoop_sound reset inserts (enter st)) as Hins.
  assert (reusedOrMade (metrics (cache st)) (length (metricHeap st))
            (currMetrics reset (enter st))) as Hw0.
  { intros h m. unfold currMetrics, curr. destruct reset; simpl.
    - by rewrite lookup_empty.
    - by left. }
  assert (reusedOrMade (metrics (cache st)) (length (metricHeap st))
            (metrics (c (enter st)))) as Hc0 by (by left).
  pose proof (λ fr', insertLoop_reusedOrMade reset inserts (enter st) fr'
                       (metrics (cache st)) (length (metricHeap st))
                       (le_n _) Hc0 Hw0) as Hmade.
  destruct (insertLoop reset inserts (enter st)) as [fr1|fr1 e1|]; [| |done].
  - destruct (Hmade fr1 eq_refl) as [_ Hw1].
    destruct (deleteLoop reset deletions fr1) as [fr2|] eqn:H2; simpl; [|done].
    intros [= <- _]. simpl. split.
    + eapply deleteLoop_sound in H2 as (_ & Hw & _);
        [exact Hw|exact (Hins fr1 (enter_sound reset st Hst) eq_refl)].
    + exact (deleteLoop_reusedOrMade _ _ _ _ _ _ Hw1 H2).
  - destruct (Hmade fr1 eq_refl) as [Hc1 _].
    intros [= <- _]. simpl. split; [|exact Hc1].
    by destruct (Hins fr1 (enter_sound reset st Hst) eq_refl) as (Hc & _).
Qed.

Lemma Update_keeps_by_hash_sound_witness :
  metricsSound
    (metricHeap (stateAfter
       (Update true [gauge (keyA "2") 2; gauge (keyA "1") 3; gauge (keyA "3") 4]
          [keyA "2"] oneGauge)))
    (metrics (cache (stateAfter
       (Update true [gauge (keyA "2") 2; gauge (keyA "1") 3; gauge (keyA "3") 4]
          [keyA "2"] oneGauge))))
  ∧ ∀ h m,
      metrics (cache (stateAfter
        (Update true [gauge (keyA "2") 2; gauge (keyA "1") 3; gauge (keyA "3") 4]
           [keyA "2"] oneGauge))) !! h = Some m →
      metrics (cache oneGauge) !! h = Some m
      ∨ (length (metricHeap oneGauge) ≤ m)%nat.
Proof.
  refine (Update_keeps_by_hash_sound true
            [gauge (keyA "2") 2; gauge (keyA "1") 3; gauge (keyA "3") 4]
            [keyA "2"] oneGauge _
            (Some (MultiError [errNoMember "a" ["2"%string]])) oneGauge_sound _).
  vm_compute. reflexivity.
Defined.

(** Under reset the deletion loop can record the error its comment calls
    impossible: the family of the working index holds only the metric of the
    last insert, so a deleted metric inserted earlier in the call is not among
    its members. *)
Example reset_delete_reports_missing_member :
  snd <$> Update true [gauge (keyA "2") 2; gauge (keyA "3") 4] [keyA "2"] emptyState
  = Some (Some (MultiError [errNoMember "a" ["2"%string]])).
Proof. vm_compute. reflexivity. Qed.

(** ** Deleting a cached metric *)

Lemma filter_ne_absent (m : loc) (s : list loc) :
  m ∉ s → filter (λ x, x ≠ m) s = s.
Proof.
  induction s as [|x s IH]; [done|].
  intros [Hx Hs]%not_elem_of_cons. rewrite filter_cons.
  destruct (decide (x ≠ m)) as [_|Hn]; [by rewrite IH|].
  by destruct Hn.
Qed.

Lemma remove_at_filter (s : list loc) (i : nat) (m : loc) :
  NoDup s → s !! i = Some m →
  take i s ++ drop (S i) s = filter (λ x, x ≠ m) s.
Proof.
  intros Hnd Hi. pose proof (take_drop_middle s i m Hi) as E.
  revert E. generalize (take i s) (drop (S i) s). intros a b E. subst s.
  apply NoDup_app in Hnd as (_ & Hl & Hr).
  apply NoDup_cons in Hr as [Hr _].
  rewrite filter_app, filter_cons.
  destruct (decide (m ≠ m)) as [Hn|_]; [done|].
  rewrite !filter_ne_absent; [done|done|].
  intros Hin. apply (Hl m Hin). apply elem_of_cons. by left.
Qed.

(** X12.  On a consistent cache, deleting the key of a cached metric (a call
    with that one deletion, no reset) returns nil, removes the hash from the
    by-hash index and leaves the metric records alone.  When the metric is the
    only member of its family the family is removed from the by-name index
    and no family record is written; otherwise the by-name index is
    unchanged and the only write is to the members of the metric's family,
    which are the former members without the metric, in their order. *)
Theorem delete_removes_metric_from_its_family
    (K : list Key) (st : State) (k : Key) (h : Z) (m : loc) :
  collisionFree K → Inv K st → k ∈ K →
  isValid k = None → hash k = Some h →
  metrics (cache st) !! h = Some m →
  ∃ st' mf,
    Update false [] [k] st = Some (st', None)
    ∧ metricFamilyByName (cache st) !! FQName k = Some mf
    ∧ metrics (cache st') = delete h (metrics (cache st))
    ∧ metricHeap st' = metricHeap st
    ∧ if decide (membersAt (familyHeap st) mf = [m])
      then metricFamilyByName (cache st')
           = delete (FQName k) (metricFamilyByName (cache st))
           ∧ familyHeap st' = familyHeap st
      else metricFamilyByName (cache st') = metricFamilyByName (cache st)
           ∧ familyHeap st'
             = <[mf := MetricFamily.Make
                         (MetricFamily.Name (familyHeap st !!! mf))
                         (MetricFamily.Help (familyHeap st !!! mf))
                         (MetricFamily.Type_ (familyHeap st !!! mf))
                         (filter (λ x, x ≠ m) (membersAt (familyHeap st) mf))]>
               (familyHeap st).
Proof.
  intros CF HI Hk Hv Hh Hm.
  destruct (inv_owner K st HI h m Hm) as (k' & mf & Hk' & Hh' & Hf & Hin).
  rewrite (CF k' k h Hk' Hk Hh' Hh) in Hf.
  pose proof (inv_nodup K st HI _ _ Hf) as Hnd.
  destruct (indexOf_elem m _ Hin) as [i Hidx].
  pose proof (indexOf_Some _ _ _ Hidx) as Hi.
  unfold membersAt in *.
  unfold Update. simpl. unfold deleteOne. rewrite Hv, Hh. simpl.
  unfold_frame; simpl. rewrite Hm. simpl. rewrite Hf, Hidx.
  destruct (MetricFamily.Metric (familyHeap st !!! mf)) as [|x [|y s]] eqn:Hs.
  - done.
  - destruct i; [|done]. injection Hi as ->. simpl.
    eexists _, mf. rewrite ?Hs, decide_True by done. by split_and!.
  - simpl. eexists _, mf. rewrite ?Hs, decide_False by done.
    split_and!; try done. simpl.
    by rewrite <- (remove_at_filter _ i m Hnd Hi).
Qed.

Lemma twoGauges_Inv : Inv (keyA <$> ["1"; "2"]%string) twoGauges.
Proof.
  eapply (Update_steady_Inv (keyA <$> ["1"; "2"]%string) (collisionFree_keyA _)
            false [gauge (keyA "1") 1; gauge (keyA "2") 2] [] emptyState
            twoGauges None).
  - done.
  - repeat constructor.
  - constructor.
  - apply Inv_empty.
  - vm_compute. reflexivity.
Qed.

Lemma delete_removes_metric_from_its_family_witness :
  ∃ st' mf,
    Update false [] [keyA "1"] twoGauges = Some (st', None)
    ∧ metricFamilyByName (cache twoGauges) !! FQName (keyA "1") = Some mf
    ∧ metrics (cache st')
      = delete (default 0 (hash (keyA "1"))) (metrics (cache twoGauges))
    ∧ metricHeap st' = metricHeap twoGauges
    ∧ if decide (membersAt (familyHeap twoGauges) mf = [0%nat])
      then metricFamilyByName (cache st')
           = delete (FQName (keyA "1")) (metricFamilyByName (cache twoGauges))
           ∧ familyHeap st' = familyHeap twoGauges
      else metricFamilyByName (cache st') = metricFamilyByName (cache twoGauges)
           ∧ familyHeap st'
             = <[mf := MetricFamily.Make
                         (MetricFamily.Name (familyHeap twoGauges !!! mf))
                         (MetricFamily.Help (familyHeap twoGauges !!! mf))
                         (MetricFamily.Type_ (familyHeap twoGauges !!! mf))
                         (filter (λ x, x ≠ 0%nat)
                                 (membersAt (familyHeap twoGauges) mf))]>
               (familyHeap twoGauges).
Proof.
  refine (delete_removes_metric_from_its_family (keyA <$> ["1"; "2"]%string)
            twoGauges (keyA "1") (default 0 (hash (keyA "1"))) 0%nat
            (collisionFree_keyA _) twoGauges_Inv _ _ _ _).
  - constructor.
  - vm_compute. reflexivity.
  - vm_compute. reflexivity.
  - vm_compute. reflexivity.
Defined.

(** ** One call or several *)

Lemma insertOne_core l ins a b :
  sameCore l a b → sameOutcome l (insertOne false ins a) (insertOne false ins b).
Proof.
  intros [Hc He]. destruct a as [mh fh ca ma ea], b as [mh' fh' cb mb eb].
  unfold leaveEarly in Hc. simpl in *. injection Hc as <- <- <-. subst ea.
  insertOne_cases; unfold sameCore, leaveEarly; simpl;
    rewrite <- ?app_assoc; done.
Qed.

Lemma deleteOne_core l del a b a' :
  sameCore l a b → deleteOne false del a = Some a' →
  ∃ b', deleteOne false del b = Some b' ∧ sameCore l a' b'.
Proof.
  intros [Hc He]. destruct a as [mh fh ca ma ea], b as [mh' fh' cb mb eb].
  unfold leaveEarly in Hc. simpl in *. injection Hc as <- <- <-. subst ea.
  deleteOne_cases; intros [= <-]; eexists; (split; [reflexivity|]);
    unfold sameCore, leaveEarly; simpl; rewrite <- ?app_assoc; done.
Qed.

Lemma insertLoop_core l inserts a b :
  sameCore l a b →
  sameOutcome l (insertLoop false inserts a) (insertLoop false inserts b).
Proof.
  revert a b. induction inserts as [|ins rest IH]; intros a b H; simpl; [done|].
  pose proof (insertOne_core l ins a b H) as H1.
  destruct (insertOne false ins a), (insertOne false ins b); simpl in *; try done.
  by apply IH.
Qed.

Lemma deleteLoop_core l deletions a b a' :
  sameCore l a b → deleteLoop false deletions a = Some a' →
  ∃ b', deleteLoop false deletions b = Some b' ∧ sameCore l a' b'.
Proof.
  revert a b. induction deletions as [|d rest IH]; intros a b H; simpl.
  - intros [= <-]. by exists b.
  - destruct (deleteOne false d a) as [a1|] eqn:H1; simpl; [|done].
    destruct (deleteOne_core l d a b a1 H H1) as (b1 & -> & Hab). simpl.
    by apply IH.
Qed.

Lemma MaybeUnwrap_None errs : MaybeUnwrap errs = None → errs = [].
Proof. by destruct errs. Qed.

(** X13.  Without reset a batch can be split: when a call with the inserts
    [ins1] alone did not return the unsupported-value-type error and left
    [st1], one call with [ins1 ++ ins2] and the deletions leaves the state
    that a second call with [ins2] and the deletions leaves from [st1]; when
    the first call returned nil the two also return the same error. *)
Theorem Update_without_reset_splits
    (ins1 ins2 : list Insert) (deletions : list Key) (st st1 : State)
    (e1 : option error) :
  Update false ins1 [] st = Some (st1, e1) →
  (∀ vt, e1 ≠ Some (errUnsupportedValueType vt)) →
  fst <$> Update false (ins1 ++ ins2) deletions st
    = fst <$> Update false ins2 deletions st1
  ∧ (e1 = None →
     Update false (ins1 ++ ins2) deletions st = Update false ins2 deletions st1).
Proof.
  unfold Update at 1.
  pose proof (insertLoop_return_error false ins1 (enter st)) as Hret.
  destruct (insertLoop false ins1 (enter st)) as [fr1|fr1 e|] eqn:H1; [| |done].
  - simpl. intros [= <- <-] _. clear Hret.
    unfold Update. rewrite (insertLoop_app _ _ _ _ _ H1).
    assert (Hcore : sameCore (errs fr1) fr1 (enter (leave false fr1))).
    { split; [by rewrite leaveEarly_enter, leave_false|].
      simpl. by rewrite app_nil_r. }
    pose proof (insertLoop_core _ ins2 _ _ Hcore) as H2.
    destruct (insertLoop false ins2 fr1) as [a|a ea|],
        (insertLoop false ins2 (enter (leave false fr1))) as [b|b eb|];
      simpl in H2; try done.
    + pose proof (deleteLoop_core (errs fr1) deletions a b) as H3.
      destruct (deleteLoop false deletions a) as [a'|] eqn:Hd; simpl.
      * destruct (H3 a' H2 eq_refl) as (b' & -> & Hc' & He'). simpl.
        rewrite !leave_false, Hc'. split; [done|].
        intros Hn%MaybeUnwrap_None. by rewrite He', Hn.
      * pose proof (deleteLoop_total false deletions a) as [? ?]. congruence.
    + destruct H2 as [[Hc' He'] ->]. simpl. by rewrite Hc'.
  - destruct (Hret fr1 e eq_refl) as [vt ->]. intros [= <- <-] Hno.
    by destruct (Hno vt).
Qed.

Lemma Update_without_reset_splits_witness :
  fst <$> Update false ([gauge (keyA "1") 1] ++ [gauge (keyA "2") 2; zeroKind noName])
            [keyA "1"] emptyState
    = fst <$> Update false [gauge (keyA "2") 2; zeroKind noName] [keyA "1"] oneGauge
  ∧ (@None error = None →
     Update false ([gauge (keyA "1") 1] ++ [gauge (keyA "2") 2; zeroKind noName])
       [keyA "1"] emptyState
     = Update false [gauge (keyA "2") 2; zeroKind noName] [keyA "1"] oneGauge).
Proof.
  refine (Update_without_reset_splits [gauge (keyA "1") 1]
            [gauge (keyA "2") 2; zeroKind noName] [keyA "1"] emptyState oneGauge
            None _ _).
  - vm_compute. reflexivity.
  - intros vt. discriminate.
Defined.

(** ** The by-name index and the fields of a family *)

Lemma insertOne_soundFamilies reset ins fr fr' :
  soundFamilies reset fr →
  frameOf (insertOne reset ins fr) = Some fr' →
  soundFamilies reset fr'.
Proof.
  intros (Hc & Hw & Hr).
  destruct reset; insertOne_cases; intros [= <-]; sound_frame.
Qed.

Lemma deleteOne_soundFamilies reset del fr fr' :
  soundFamilies reset fr → deleteOne reset del fr = Some fr' →
  soundFamilies reset fr'.
Proof.
  intros (Hc & Hw & Hr).
  destruct reset; deleteOne_cases; intros [= <-]; sound_frame.
Qed.

Lemma familyShows_store ins (fh : list MetricFamily.t) (mf' : loc) x (mf : loc) :
  familyShows ins (fh !!! mf) →
  (mf' = mf → familyShows ins x) →
  familyShows ins (<[mf' := x]> fh !!! mf).
Proof.
  intros Hs Hx. destruct (decide (mf' = mf)) as [->|Hne].
  - destruct (decide (mf < length fh)%nat).
    + rewrite list_lookup_total_insert_eq by done. by apply Hx.
    + by rewrite list_insert_ge by lia.
  - by rewrite list_lookup_total_insert_ne.
Qed.

Lemma insertOne_familyShows reset ins fr fr' :
  isValid (key ins) = None →
  soundFamilies reset fr →
  insertOne reset ins fr = Next fr' →
  familyShownAt reset (FQName (key ins)) ins fr'.
Proof.
  intros Hv (Hc & Hw & Hr). revert Hv.
  destruct reset; insertOne_cases; try done; intros _ [= <-];
    unfold familyShownAt, currMetricFamilies, curr; simpl.
  all: intros mf0; rewrite lookup_insert_eq; intros [= <-].
  all: try match goal with
         | H : metricFamilyByName _ !! ?n = Some ?mf |- _ =>
             pose proof (Hc n mf H) as [? ?]
         end.
  all: repeat first
         [ rewrite list_lookup_total_insert_eq
             by (rewrite ?length_insert, ?length_app; simpl; lia); simpl
         | rewrite list_lookup_total_insert_ne by lia ].
  all: done.
Qed.

Lemma insertOne_keeps_familyShown reset i fr fr' n ins :
  otherFamily n i →
  soundFamilies reset fr →
  insertOne reset i fr = Next fr' →
  familyShownAt reset n ins fr → familyShownAt reset n ins fr'.
Proof.
  unfold otherFamily. intros Hn (Hc & Hw & Hr) Hrun Hs. revert Hn Hrun.
  destruct reset; insertOne_cases; try done; intros Hn [= <-];
    unfold familyShownAt, currMetricFamilies, curr in *; simpl in *.
  all: try done.
  all: specialize (Hn eq_refl).
  all: intros mf0; rewrite lookup_insert_ne by done; intros Hm0.
  all: destruct (Hw n mf0 Hm0) as [Hlt0 _]; pose proof (Hr n mf0 Hm0) as Hor.
  all: try match goal with
         | H : metricFamilyByName _ !! ?n' = Some ?mf |- _ =>
             pose proof (Hc n' mf H) as [? Hinj];
             assert (mf ≠ mf0)
               by (intros ->; destruct Hor as [Hor|Hor];
                   [by destruct Hn; symmetry; apply Hinj|by eapply Hor])
         end.
  all: repeat (rewrite list_lookup_total_insert_ne by lia).
  all: rewrite ?lookup_total_app_l by lia.
  all: by apply Hs.
Qed.

Lemma deleteOne_keeps_familyShown reset del fr fr' n ins :
  deleteOne reset del fr = Some fr' →
  familyShownAt reset n ins fr → familyShownAt reset n ins fr'.
Proof.
  intros Hrun Hs. revert Hrun.
  destruct reset; deleteOne_cases; try done; intros [= <-];
    unfold familyShownAt, currMetricFamilies, curr in *; simpl in *.
  all: try done.
  all: intros mf0; try (intros [_ Hm0]%lookup_delete_Some; by apply Hs).
  all: intros Hm0; apply familyShows_store; [by apply Hs|].
  all: intros ->; by apply Hs.
Qed.

Lemma insertLoop_soundFamilies reset inserts fr fr' :
  soundFamilies reset fr →
  frameOf (insertLoop reset inserts fr) = Some fr' →
  soundFamilies reset fr'.
Proof.
  revert fr. induction inserts as [|i rest IH]; intros fr HJ; simpl.
  - by intros [= <-].
  - pose proof (insertOne_soundFamilies reset i fr) as H1.
    destruct (insertOne reset i fr) as [fr1|fr1 e1|]; simpl in *; [| |done].
    + apply IH. by apply H1.
    + intros [= <-]. by apply H1.
Qed.

Lemma deleteLoop_soundFamilies reset deletions fr fr' :
  soundFamilies reset fr → deleteLoop reset deletions fr = Some fr' →
  soundFamilies reset fr'.
Proof.
  revert fr. induction deletions as [|d rest IH]; intros fr HJ; simpl.
  - by intros [= <-].
  - destruct (deleteOne reset d fr) as [fr1|] eqn:H1; simpl; [|done].
    apply IH. by eapply deleteOne_soundFamilies.
Qed.

Lemma insertLoop_keeps_familyShown reset inserts fr fr' n ins :
  Forall (otherFamily n) inserts →
  soundFamilies reset fr →
  insertLoop reset inserts fr = Next fr' →
  familyShownAt reset n ins fr → familyShownAt reset n ins fr'.
Proof.
  intros Hall. revert fr. induction Hall as [|i rest Hi _ IH]; intros fr HJ; simpl.
  - by intros [= <-].
  - destruct (insertOne reset i fr) as [fr1| |] eqn:H1; try done.
    intros Hrun Hs. eapply (IH fr1); [|exact Hrun|].
    + eapply insertOne_soundFamilies; [exact HJ|]. by rewrite H1.
    + by eapply insertOne_keeps_familyShown.
Qed.

Lemma deleteLoop_keeps_familyShown reset deletions fr fr' n ins :
  deleteLoop reset deletions fr = Some fr' →
  familyShownAt reset n ins fr → familyShownAt reset n ins fr'.
Proof.
  revert fr. induction deletions as [|d rest IH]; intros fr; simpl.
  - by intros [= <-].
  - destruct (deleteOne reset d fr) as [fr1|] eqn:H1; simpl; [|done].
    intros Hrun Hs. eapply (IH fr1); [exact Hrun|].
    by eapply deleteOne_keeps_familyShown.
Qed.

Lemma enter_soundFamilies reset st :
  familiesSound (familyHeap st) (metricFamilyByName (cache st)) →
  soundFamilies reset (enter st).
Proof.
  intros Hs. unfold soundFamilies, currMetricFamilies, curr.
  destruct reset; simpl; split_and!; try done;
    try apply reusedOrNew_refl; intros n mf; by rewrite lookup_empty.
Qed.

(** X14.  The fields of a family follow the last insert.  On a cache whose
    by-name index is sound (pointers allocated, no record under two names),
    in an Update that does not return the unsupported-value-type error, with
    or without reset, the family that the by-name index holds under a name
    after the call, if the deletions left one, has the type and the help of
    the last insert of the batch with a valid key and that name, also when
    earlier inserts of the family gave another type or help. *)
Theorem Update_family_fields_of_last_insert
    (reset : bool) (pre post : list Insert) (ins : Insert) (deletions : list Key)
    (st st' : State) (e : option error) (mf : loc) :
  familiesSound (familyHeap st) (metricFamilyByName (cache st)) →
  isValid (key ins) = None →
  Forall (otherFamily (FQName (key ins))) post →
  Update reset (pre ++ ins :: post) deletions st = Some (st', e) →
  (∀ vt, e ≠ Some (errUnsupportedValueType vt)) →
  metricFamilyByName (cache st') !! FQName (key ins) = Some mf →
  MetricFamily.Type_ (familyHeap st' !!! mf) = Some (ToDTO (ValueType ins))
  ∧ MetricFamily.Help (familyHeap st' !!! mf) = Some (Help ins).
Proof.
  intros Hst Hv Hpost. unfold Update.
  pose proof (insertLoop_return_error reset (pre ++ ins :: post) (enter st)) as Hret.
  destruct (insertLoop reset (pre ++ ins :: post) (enter st))
    as [fr3|fr3 e3|] eqn:Hloop; [| |done].
  - clear Hret.
    destruct (deleteLoop reset deletions fr3) as [fr4|] eqn:H4; simpl; [|done].
    intros [= <- <-] _. simpl. revert mf.
    change (familyShownAt reset (FQName (key ins)) ins fr4).
    eapply deleteLoop_keeps_familyShown; [exact H4|].
    destruct (insertLoop_prefix _ _ _ _ _ Hloop) as [fr1 H1].
    rewrite (insertLoop_app _ _ _ _ _ H1) in Hloop. simpl in Hloop.
    assert (soundFamilies reset fr1) as HJ1.
    { eapply insertLoop_soundFamilies; [exact (enter_soundFamilies reset st Hst)|].
      by rewrite H1. }
    destruct (insertOne reset ins fr1) as [fr2| |] eqn:H2; try done.
    eapply insertLoop_keeps_familyShown; [exact Hpost| |exact Hloop|].
    + eapply insertOne_soundFamilies; [exact HJ1|]. by rewrite H2.
    + by eapply insertOne_familyShows.
  - destruct (Hret fr3 e3 eq_refl) as [vt ->]. intros [= <- <-] Hno.
    by destruct (Hno vt).
Qed.

Lemma Inv_familiesSound K st :
  Inv K st → familiesSound (familyHeap st) (metricFamilyByName (cache st)).
Proof.
  intros HI n mf Hm. split; [by eapply inv_family_alloc|].
  intros n' Hm'. by eapply inv_family_inj.
Qed.

Lemma oneGauge_familiesSound :
  familiesSound (familyHeap oneGauge) (metricFamilyByName (cache oneGauge)).
Proof.
  apply (Inv_familiesSound [keyA "1"]).
  eapply (Update_steady_Inv [keyA "1"] (collisionFree_keyA ["1"%string])
            false [gauge (keyA "1") 1] [] emptyState oneGauge None).
  - done.
  - repeat constructor.
  - constructor.
  - apply Inv_empty.
  - vm_compute. reflexivity.
Qed.

Lemma Update_family_fields_of_last_insert_witness :
  MetricFamily.Type_
    (familyHeap (stateAfter
       (Update true
          ([gauge (keyA "1") 1]
           ++ {| key := keyA "2"; Help := "other";
                 ValueType := prometheus.CounterValue; Value := 7%float;
                 Timestamp := None |}
              :: [gauge {| FQName := "b"; LabelNames := []; LabelValues := [] |} 3;
                  zeroKind noName])
          [keyA "3"] oneGauge)) !!! 0%nat)
  = Some (ToDTO prometheus.CounterValue)
  ∧ MetricFamily.Help
      (familyHeap (stateAfter
         (Update true
            ([gauge (keyA "1") 1]
             ++ {| key := keyA "2"; Help := "other";
                   ValueType := prometheus.CounterValue; Value := 7%float;
                   Timestamp := None |}
                :: [gauge {| FQName := "b"; LabelNames := []; LabelValues := [] |} 3;
                    zeroKind noName])
            [keyA "3"] oneGauge)) !!! 0%nat)
    = Some "other"%string.
Proof.
  refine (Update_family_fields_of_last_insert true [gauge (keyA "1") 1]
            [gauge {| FQName := "b"; LabelNames := []; LabelValues := [] |} 3;
             zeroKind noName]
            {| key := keyA "2"; Help := "other";
               ValueType := prometheus.CounterValue; Value := 7%float;
               Timestamp := None |}
            [keyA "3"] oneGauge _ (Some (MultiError [errEmptyFQName])) 0%nat
            oneGauge_familiesSound _ _ _ _ _).
  - reflexivity.
  - repeat constructor; intros Hv; discriminate.
  - vm_compute. reflexivity.
  - intros vt. discriminate.
  - vm_compute. reflexivity.
Defined.

(** X15.  The by-name index stays sound through any Update, with or without
    reset and also after the early return: every pointer in it is allocated
    and no family record is held under two names. *)
Theorem Update_keeps_by_name_sound
    (reset : bool) (inserts : list Insert) (deletions : list Key)
    (st st' : State) (e : option error) :
  familiesSound (familyHeap st) (metricFamilyByName (cache st)) →
  Update reset inserts deletions st = Some (st', e) →
  familiesSound (familyHeap st') (metricFamilyByName (cache st')).
Proof.
  intros Hst. unfold Update.
  pose proof (insertLoop_soundFamilies reset inserts (enter st)) as Hins.
  destruct (insertLoop reset inserts (enter st)) as [fr1|fr1 e1|]; [| |done].
  - destruct (deleteLoop reset deletions fr1) as [fr2|] eqn:H2; simpl; [|done].
    intros [= <- _]. simpl.
    eapply deleteLoop_soundFamilies in H2 as (_ & Hw & _);
      [exact Hw|exact (Hins fr1 (enter_soundFamilies reset st Hst) eq_refl)].
  - intros [= <- _]. simpl.
    by destruct (Hins fr1 (enter_soundFamilies reset st Hst) eq_refl) as (Hc & _).
Qed.

Lemma Update_keeps_by_name_sound_witness :
  familiesSound
    (familyHeap (stateAfter
       (Update true
          [gauge (keyA "2") 2;
           gauge {| FQName := "b"; LabelNames := []; LabelValues := [] |} 3;
           zeroKind (keyA "3")]
          [] oneGauge)))
    (metricFamilyByName (cache (stateAfter
       (Update true
          [gauge (keyA "2") 2;
           gauge {| FQName := "b"; LabelNames := []; LabelValues := [] |} 3;
           zeroKind (keyA "3")]
          [] oneGauge)))).
Proof.
  refine (Update_keeps_by_name_sound true
            [gauge (keyA "2") 2;
             gauge {| FQName := "b"; LabelNames := []; LabelValues := [] |} 3;
             zeroKind (keyA "3")]
            [] oneGauge _
            (Some (errUnsupportedValueType (prometheus.OtherValue 0)))
            oneGauge_familiesSound _).
  vm_compute. reflexivity.
Defined.

(** ** What a family holds after a reset *)

Lemma insertOne_loneMember ins fr fr' h :
  keyHash (key ins) = Some h →
  soundFrame true fr → soundFamilies true fr →
  insertOne true ins fr = Next fr' →
  loneMember h (FQName (key ins)) fr'.
Proof.
  unfold keyHash. intros Hk (Hc & Hw & Hr) (Fc & Fw & Fr). revert Hk.
  insertOne_cases; try done; intros [= ->] [= <-];
    unfold loneMember, membersAt, currMetrics, currMetricFamilies, curr; simpl.
  all: try match goal with
         | H : metricFamilyByName _ !! ?n = Some ?mf |- _ =>
             pose proof (Fc n mf H) as [? ?]
         end.
  all: eexists _, _; rewrite !lookup_insert_eq; split_and!; try reflexivity.
  all: repeat first
         [ rewrite list_lookup_total_insert_eq
             by (rewrite ?length_insert, ?length_app; simpl; lia); simpl
         | rewrite list_lookup_total_insert_ne by lia ].
  all: rewrite ?list_lookup_total_middle by done; done.
Qed.

Lemma insertOne_keeps_loneMember i fr fr' h n :
  otherFamily n i → keyHash (key i) ≠ Some h →
  soundFrame true fr → soundFamilies true fr →
  insertOne true i fr = Next fr' →
  loneMember h n fr → loneMember h n fr'.
Proof.
  unfold otherFamily, keyHash.
  intros Hn Hk (Hc & Hw & Hr) (Fc & Fw & Fr) Hrun (m & mf & Hm & Hf & Hs).
  destruct (Fw n mf Hf) as [Hlt _]. pose proof (Fr n mf Hf) as Hor.
  revert Hn Hk Hrun.
  insertOne_cases; try done; intros Hn Hk [= <-];
    unfold loneMember, membersAt, currMetrics, currMetricFamilies, curr in *;
    simpl in *.
  all: try by (exists m, mf).
  all: specialize (Hn eq_refl).
  all: exists m, mf; rewrite !lookup_insert_ne by congruence.
  all: split_and!; try done.
  all: try match goal with
         | H : metricFamilyByName _ !! ?n' = Some ?mf' |- _ =>
             pose proof (Fc n' mf' H) as [? Hinj];
             assert (mf' ≠ mf)
               by (intros ->; destruct Hor as [Hor|Hor];
                   [by destruct Hn; symmetry; apply Hinj|by eapply Hor])
         end.
  all: repeat (rewrite list_lookup_total_insert_ne by lia).
  all: rewrite ?lookup_total_app_l by lia.
  all: done.
Qed.

Lemma deleteOne_keeps_loneMember del fr fr' h n :
  keyHash del ≠ Some h →
  soundFrame true fr → soundFamilies true fr →
  deleteOne true del fr = Some fr' →
  loneMember h n fr → loneMember h n fr'.
Proof.
  unfold keyHash.
  intros Hk (Hc & Hw & Hr) (Fc & Fw & Fr) Hrun (m & mf & Hm & Hf & Hs).
  destruct (Hw h m Hm) as [_ Hminj]. destruct (Fw n mf Hf) as [_ Hfinj].
  revert Hk Hrun. unfold deleteOne.
  destruct (isValid del) eqn:Hv; [intros _ [= <-]; by exists m, mf|].
  destruct (hash del) as [h'|] eqn:Hh; simpl; [|done].
  intros Hk. assert (h' ≠ h) as Hne by congruence. clear Hk.
  destruct (currMetrics true fr !! h') as [m'|] eqn:Hm';
    [|intros [= <-]; by exists m, mf].
  assert (m' ≠ m) as Hmne.
  { intros ->. by apply Hne, Hminj. }
  unfold loneMember, membersAt, currMetrics, currMetricFamilies, curr in *.
  unfold_frame; simpl in *.
  destruct (metricFamilyByName (made fr) !! FQName del) as [mf'|] eqn:Hf'.
  - destruct (decide (mf' = mf)) as [->|Hfne].
    + rewrite Hs. simpl. destruct (Nat.eqb_spec m m'); [by subst|]. simpl.
      intros [= <-]. simpl. exists m, mf. by rewrite lookup_delete_ne.
    + assert (FQName del ≠ n) by (intros E; rewrite E in Hf'; congruence).
      destruct (indexOf m' _) as [i|]; [|intros [= <-]; simpl; exists m, mf;
                                           by rewrite lookup_delete_ne].
      destruct (_ =? 1)%nat; intros [= <-]; simpl; exists m, mf;
        rewrite ?lookup_delete_ne by done; split_and!; try done.
      by rewrite list_lookup_total_insert_ne.
  - intros [= <-]. simpl. exists m, mf. by rewrite lookup_delete_ne.
Qed.

Lemma insertLoop_keeps_loneMember inserts fr fr' h n :
  Forall (otherFamily n) inserts →
  h ∉ hashesOf (key <$> inserts) →
  soundFrame true fr → soundFamilies true fr →
  insertLoop true inserts fr = Next fr' →
  loneMember h n fr → loneMember h n fr'.
Proof.
  intros Hall. revert fr.
  induction Hall as [|i rest Hi _ IH]; intros fr Hh HJ HF; simpl.
  - by intros [= <-].
  - simpl in Hh. rewrite hashesOf_cons in Hh.
    destruct (insertOne true i fr) as [fr1| |] eqn:H1; try done.
    intros Hrun Hs. eapply (IH fr1); [set_solver| | |exact Hrun|].
    + eapply insertOne_sound; [exact HJ|]. by rewrite H1.
    + eapply insertOne_soundFamilies; [exact HF|]. by rewrite H1.
    + eapply insertOne_keeps_loneMember; [exact Hi| |exact HJ|exact HF|exact H1|exact Hs].
      intros Heq. rewrite Heq in Hh. simpl in Hh. set_solver.
Qed.

Lemma deleteLoop_keeps_loneMember deletions fr fr' h n :
  h ∉ hashesOf deletions →
  soundFrame true fr → soundFamilies true fr →
  deleteLoop true deletions fr = Some fr' →
  loneMember h n fr → loneMember h n fr'.
Proof.
  revert fr. induction deletions as [|d rest IH]; intros fr Hh HJ HF; simpl.
  - by intros [= <-].
  - rewrite hashesOf_cons in Hh.
    destruct (deleteOne true d fr) as [fr1|] eqn:H1; simpl; [|done].
    intros Hrun Hs. eapply (IH fr1); [set_solver| | |exact Hrun|].
    + by eapply deleteOne_sound.
    + by eapply deleteOne_soundFamilies.
    + eapply deleteOne_keeps_loneMember; [|exact HJ|exact HF|exact H1|exact Hs].
      intros Heq. rewrite Heq in Hh. simpl in Hh. set_solver.
Qed.

(** X16.  What a family holds after a reset.  On a cache whose two indexes
    are sound, in an Update with reset that does not return the
    unsupported-value-type error, take the last insert of the batch with a
    valid key and a given family name, and let no later insert and no
    deletion of the call have its hash.  After the call the by-hash index
    holds a metric under that hash, the by-name index holds a family under
    that name, and this metric is the ONLY member of the family, however
    many metrics of the family the batch inserted before it. *)
Theorem reset_family_holds_last_insert_only
    (pre post : list Insert) (ins : Insert) (deletions : list Key)
    (st st' : State) (e : option error) (h : Z) :
  metricsSound (metricHeap st) (metrics (cache st)) →
  familiesSound (familyHeap st) (metricFamilyByName (cache st)) →
  keyHash (key ins) = Some h →
  Forall (otherFamily (FQName (key ins))) post →
  h ∉ hashesOf (key <$> post) →
  h ∉ hashesOf deletions →
  Update true (pre ++ ins :: post) deletions st = Some (st', e) →
  (∀ vt, e ≠ Some (errUnsupportedValueType vt)) →
  ∃ m mf, metrics (cache st') !! h = Some m
          ∧ metricFamilyByName (cache st') !! FQName (key ins) = Some mf
          ∧ membersAt (familyHeap st') mf = [m].
Proof.
  intros Hst Hfst Hk Hpost Hhpost Hdel. unfold Update.
  pose proof (insertLoop_return_error true (pre ++ ins :: post) (enter st)) as Hret.
  destruct (insertLoop true (pre ++ ins :: post) (enter st))
    as [fr3|fr3 e3|] eqn:Hloop; [| |done].
  - clear Hret.
    destruct (deleteLoop true deletions fr3) as [fr4|] eqn:H4; simpl; [|done].
    intros [= <- <-] _. simpl.
    change (loneMember h (FQName (key ins)) fr4).
    assert (soundFrame true fr3) as HJ3.
    { eapply insertLoop_sound; [exact (enter_sound true st Hst)|].
      by rewrite Hloop. }
    assert (soundFamilies true fr3) as HF3.
    { eapply insertLoop_soundFamilies; [exact (enter_soundFamilies true st Hfst)|].
      by rewrite Hloop. }
    eapply deleteLoop_keeps_loneMember; [exact Hdel|exact HJ3|exact HF3|exact H4|].
    destruct (insertLoop_prefix _ _ _ _ _ Hloop) as [fr1 H1].
    rewrite (insertLoop_app _ _ _ _ _ H1) in Hloop. simpl in Hloop.
    assert (soundFrame true fr1) as HJ1.
    { eapply insertLoop_sound; [exact (enter_sound true st Hst)|]. by rewrite H1. }
    assert (soundFamilies true fr1) as HF1.
    { eapply insertLoop_soundFamilies; [exact (enter_soundFamilies true st Hfst)|].
      by rewrite H1. }
    destruct (insertOne true ins fr1) as [fr2| |] eqn:H2; try done.
    eapply insertLoop_keeps_loneMember;
      [exact Hpost|exact Hhpost| | |exact Hloop|].
    + eapply insertOne_sound; [exact HJ1|]. by rewrite H2.
    + eapply insertOne_soundFamilies; [exact HF1|]. by rewrite H2.
    + by eapply insertOne_loneMember.
  - destruct (Hret fr3 e3 eq_refl) as [vt ->]. intros [= <- <-] Hno.
    by destruct (Hno vt).
Qed.

Lemma reset_family_holds_last_insert_only_witness :
  ∃ m mf,
    metrics (cache (stateAfter
      (Update true
         ([gauge (keyA "1") 1; gauge (keyA "2") 2]
          ++ gauge (keyA "3") 3
             :: [gauge {| FQName := "b"; LabelNames := []; LabelValues := [] |} 4])
         [keyA "2"] oneGauge)))
      !! default 0 (keyHash (keyA "3")) = Some m
    ∧ metricFamilyByName (cache (stateAfter
        (Update true
           ([gauge (keyA "1") 1; gauge (keyA "2") 2]
            ++ gauge (keyA "3") 3
               :: [gauge {| FQName := "b"; LabelNames := []; LabelValues := [] |} 4])
           [keyA "2"] oneGauge)))
        !! FQName (key (gauge (keyA "3") 3)) = Some mf
    ∧ membersAt
        (familyHeap (stateAfter
           (Update true
              ([gauge (keyA "1") 1; gauge (keyA "2") 2]
               ++ gauge (keyA "3") 3
                  :: [gauge {| FQName := "b"; LabelNames := []; LabelValues := [] |} 4])
              [keyA "2"] oneGauge))) mf
      = [m].
Proof.
  refine (reset_family_holds_last_insert_only
            [gauge (keyA "1") 1; gauge (keyA "2") 2]
            [gauge {| FQName := "b"; LabelNames := []; LabelValues := [] |} 4]
            (gauge (keyA "3") 3) [keyA "2"] oneGauge _
            (Some (MultiError [errNoMember "a" ["2"%string]]))
            (default 0 (keyHash (keyA "3")))
            oneGauge_sound oneGauge_familiesSound _ _ _ _ _ _).
  - vm_compute. reflexivity.
  - repeat constructor; intros Hv; discriminate.
  - refine (bool_decide_eq_true_1 _ _). vm_compute. reflexivity.
  - refine (bool_decide_eq_true_1 _ _). vm_compute. reflexivity.
  - vm_compute. reflexivity.
  - intros vt. discriminate.
Defined.

(** ** Family names *)

Lemma names_store (fh : list MetricFamily.t) fs (mf : loc) x :
  namesAgree fh fs →
  MetricFamily.Name x = MetricFamily.Name (fh !!! mf) →
  namesAgree (<[mf := x]> fh) fs.
Proof.
  intros Hn Hx n mf1 H1. destruct (decide (mf = mf1)) as [->|Hne].
  - destruct (decide (mf1 < length fh)%nat).
    + rewrite list_lookup_total_insert_eq by done. rewrite Hx. by apply Hn.
    + rewrite list_insert_ge by lia. by apply Hn.
  - rewrite list_lookup_total_insert_ne by done. by apply Hn.
Qed.

Lemma names_grow (fh : list MetricFamily.t) fs l :
  indexSound (length fh) fs → namesAgree fh fs → namesAgree (fh ++ l) fs.
Proof.
  intros Hs Hn n mf H1. destruct (Hs n mf H1) as [Hlt _].
  rewrite lookup_total_app_l by done. by apply Hn.
Qed.

Lemma names_insert (fh : list MetricFamily.t) fs n (mf : loc) :
  namesAgree fh fs → MetricFamily.Name (fh !!! mf) = Some n →
  namesAgree fh (<[n := mf]> fs).
Proof.
  intros Hn Hx n1 mf1. destruct (decide (n1 = n)) as [->|Hne].
  - rewrite lookup_insert_eq. by intros [= <-].
  - rewrite lookup_insert_ne by done. apply Hn.
Qed.

Lemma names_delete (fh : list MetricFamily.t) fs n :
  namesAgree fh fs → namesAgree fh (delete n fs).
Proof. intros Hn n1 mf1 [_ H1]%lookup_delete_Some. by apply Hn. Qed.

Ltac names_step :=
  match goal with
  | |- namesAgree _ _ => assumption
  | |- indexSound _ _ => assumption
  | |- namesAgree _ (delete _ _) => apply names_delete
  | |- namesAgree _ (<[_ := _]> _) => apply names_insert
  | |- namesAgree (<[_ := _]> _) _ => apply names_store; [|reflexivity]
  | |- namesAgree (_ ++ _) _ => apply names_grow
  | |- MetricFamily.Name (<[?m := _]> _ !!! ?m) = _ =>
      rewrite list_lookup_total_insert_eq
        by (rewrite ?length_insert, ?length_app; simpl; lia); simpl
  | |- MetricFamily.Name ((?l ++ [_]) !!! length ?l) = _ =>
      rewrite list_lookup_total_middle by done; simpl; reflexivity
  | H : namesAgree ?fh ?fs, H1 : ?fs !! ?n = Some ?mf
    |- MetricFamily.Name (?fh !!! ?mf) = Some ?n => exact (H n mf H1)
  end.

Lemma insertOne_names reset ins fr fr' :
  soundFamilies reset fr →
  namesAgree (fheap fr) (metricFamilyByName (c fr)) →
  namesAgree (fheap fr) (currMetricFamilies reset fr) →
  frameOf (insertOne reset ins fr) = Some fr' →
  namesAgree (fheap fr') (metricFamilyByName (c fr'))
  ∧ namesAgree (fheap fr') (currMetricFamilies reset fr').
Proof.
  intros (Fc & Fw & Fr) Nc Nw.
  destruct reset; insertOne_cases; intros [= <-];
    unfold familiesSound, currMetricFamilies, curr in *; simpl in *.
  all: try match goal with
         | H : metricFamilyByName _ !! ?n = Some ?mf |- _ =>
             pose proof (Fc n mf H) as [? ?]
         end.
  all: split; repeat names_step.
Qed.

Lemma deleteOne_names reset del fr fr' :
  namesAgree (fheap fr) (metricFamilyByName (c fr)) →
  namesAgree (fheap fr) (currMetricFamilies reset fr) →
  deleteOne reset del fr = Some fr' →
  namesAgree (fheap fr') (metricFamilyByName (c fr'))
  ∧ namesAgree (fheap fr') (currMetricFamilies reset fr').
Proof.
  intros Nc Nw.
  destruct reset; deleteOne_cases; intros [= <-];
    unfold currMetricFamilies, curr in *; simpl in *.
  all: split; repeat names_step.
Qed.

Lemma insertLoop_names reset inserts fr fr' :
  soundFamilies reset fr →
  namesAgree (fheap fr) (metricFamilyByName (c fr)) →
  namesAgree (fheap fr) (currMetricFamilies reset fr) →
  frameOf (insertLoop reset inserts fr) = Some fr' →
  namesAgree (fheap fr') (metricFamilyByName (c fr'))
  ∧ namesAgree (fheap fr') (currMetricFamilies reset fr').
Proof.
  revert fr. induction inserts as [|i rest IH]; intros fr HF Nc Nw; simpl.
  - by intros [= <-].
  - pose proof (insertOne_names reset i fr) as H1.
    pose proof (insertOne_soundFamilies reset i fr) as H2.
    destruct (insertOne reset i fr) as [fr1|fr1 e1|]; simpl in *; [| |done].
    + destruct (H1 fr1 HF Nc Nw eq_refl). apply IH; auto.
    + intros [= <-]. by apply H1.
Qed.

Lemma deleteLoop_names reset deletions fr fr' :
  namesAgree (fheap fr) (metricFamilyByName (c fr)) →
  namesAgree (fheap fr) (currMetricFamilies reset fr) →
  deleteLoop reset deletions fr = Some fr' →
  namesAgree (fheap fr') (metricFamilyByName (c fr'))
  ∧ namesAgree (fheap fr') (currMetricFamilies reset fr').
Proof.
  revert fr. induction deletions as [|d rest IH]; intros fr Nc Nw; simpl.
  - by intros [= <-].
  - destruct (deleteOne reset d fr) as [fr1|] eqn:H1; simpl; [|done].
    destruct (deleteOne_names reset d fr fr1 Nc Nw H1). by apply IH.
Qed.

(** X17.  Families are filed under their own name.  If the by-name index is
    sound and every family it holds carries the name it is held under, then
    so it is after any Update, with or without reset and also after the
    early return; the name of a family is written only when the family is
    made. *)
Theorem Update_keeps_family_names
    (reset : bool) (inserts : list Insert) (deletions : list Key)
    (st st' : State) (e : option error) :
  familiesSound (familyHeap st) (metricFamilyByName (cache st)) →
  namesAgree (familyHeap st) (metricFamilyByName (cache st)) →
  Update reset inserts deletions st = Some (st', e) →
  namesAgree (familyHeap st') (metricFamilyByName (cache st')).
Proof.
  intros Hst Hn. unfold Update.
  assert (namesAgree (fheap (enter st)) (currMetricFamilies reset (enter st)))
    as Hw.
  { destruct reset; [|exact Hn]. intros n mf.
    unfold currMetricFamilies, curr. simpl. by rewrite lookup_empty. }
  pose proof (λ fr', insertLoop_names reset inserts (enter st) fr'
                       (enter_soundFamilies reset st Hst) Hn Hw) as Hins.
  destruct (insertLoop reset inserts (enter st)) as [fr1|fr1 e1|]; [| |done].
  - destruct (Hins fr1 eq_refl) as [Nc1 Nw1].
    destruct (deleteLoop reset deletions fr1) as [fr2|] eqn:H2; simpl; [|done].
    intros [= <- _]. simpl.
    by destruct (deleteLoop_names reset deletions fr1 fr2 Nc1 Nw1 H2).
  - intros [= <- _]. simpl. by destruct (Hins fr1 eq_refl).
Qed.

Lemma familiesSound_empty :
  familiesSound (familyHeap emptyState) (metricFamilyByName (cache emptyState)).
Proof. intros n mf. simpl. by rewrite lookup_empty. Qed.

Lemma namesAgree_empty :
  namesAgree (familyHeap emptyState) (metricFamilyByName (cache emptyState)).
Proof. intros n mf. simpl. by rewrite lookup_empty. Qed.

Lemma Update_keeps_family_names_witness :
  namesAgree
    (familyHeap (stateAfter
       (Update false
          [gauge (keyA "1") 1; gauge (keyA "2") 2;
           gauge {| FQName := "b"; LabelNames := []; LabelValues := [] |} 3]
          [keyA "1"] emptyState)))
    (metricFamilyByName (cache (stateAfter
       (Update false
          [gauge (keyA "1") 1; gauge (keyA "2") 2;
           gauge {| FQName := "b"; LabelNames := []; LabelValues := [] |} 3]
          [keyA "1"] emptyState)))).
Proof.
  refine (Update_keeps_family_names false
            [gauge (keyA "1") 1; gauge (keyA "2") 2;
             gauge {| FQName := "b"; LabelNames := []; LabelValues := [] |} 3]
            [keyA "1"] emptyState _ None familiesSound_empty namesAgree_empty _).
  vm_compute. reflexivity.
Defined.

(** ** Reuse of cached metrics *)

Lemma setValue_Label vt v x y : setValue vt v x = Some y → Metric.Label y = Metric.Label x.
Proof. destruct vt; simpl; intros [= <-]; reflexivity. Qed.

Lemma Label_store (mh : list Metric.t) (m' : loc) x (m : loc) :
  Metric.Label x = Metric.Label (mh !!! m') →
  Metric.Label (<[m' := x]> mh !!! m) = Metric.Label (mh !!! m).
Proof.
  intros Hx. destruct (decide (m' = m)) as [->|Hne].
  - destruct (decide (m < length mh)%nat).
    + by rewrite list_lookup_total_insert_eq.
    + by rewrite list_insert_ge by lia.
  - by rewrite list_lookup_total_insert_ne.
Qed.

Lemma insertOne_reuses reset ins fr fr' h (m : loc) :
  (m < length (mheap fr))%nat →
  metrics (c fr) !! h = Some m →
  (∀ m', currMetrics reset fr !! h = Some m' → m' = m) →
  frameOf (insertOne reset ins fr) = Some fr' →
  (m < length (mheap fr'))%nat
  ∧ metrics (c fr') !! h = Some m
  ∧ (∀ m', currMetrics reset fr' !! h = Some m' → m' = m)
  ∧ Metric.Label (mheap fr' !!! m) = Metric.Label (mheap fr !!! m).
Proof.
  intros Hlt Hc Hw.
  match goal with |- _ → ?G => remember G as Q eqn:HQ end.
  destruct reset; insertOne_cases; intros [= <-]; subst Q;
    unfold currMetrics, curr in *; simpl in *.
  all: rewrite ?length_insert, ?length_app.
  all: split_and!; try done; try lia.
  all: try (intros m' Hm'; revert Hm').
  all: try match goal with
         | |- <[?h' := _]> _ !! _ = Some _ =>
             destruct (decide (h' = h)) as [->|Hne];
             [rewrite lookup_insert_eq; congruence
             |by rewrite lookup_insert_ne]
         | |- <[?h' := _]> _ !! _ = Some _ → _ =>
             destruct (decide (h' = h)) as [->|Hne];
             [rewrite lookup_insert_eq; congruence
             |rewrite lookup_insert_ne by done; apply Hw]
         end.
  all: try (rewrite Label_store;
            [|simpl; erewrite setValue_Label by eassumption; reflexivity]).
  all: rewrite ?lookup_total_app_l by lia; done.
Qed.

Lemma deleteOne_reuses reset del fr fr' h (m : loc) :
  (∀ m', currMetrics reset fr !! h = Some m' → m' = m) →
  deleteOne reset del fr = Some fr' →
  (∀ m', currMetrics reset fr' !! h = Some m' → m' = m)
  ∧ mheap fr' = mheap fr.
Proof.
  intros Hw.
  match goal with |- _ → ?G => remember G as Q eqn:HQ end.
  destruct reset; deleteOne_cases; intros [= <-]; subst Q;
    unfold currMetrics, curr in *; simpl in *.
  all: split; try done.
  all: intros m' [_ Hm']%lookup_delete_Some; by apply Hw.
Qed.

Lemma insertLoop_reuses reset inserts fr fr' h (m : loc) :
  (m < length (mheap fr))%nat →
  metrics (c fr) !! h = Some m →
  (∀ m', currMetrics reset fr !! h = Some m' → m' = m) →
  frameOf (insertLoop reset inserts fr) = Some fr' →
  (m < length (mheap fr'))%nat
  ∧ metrics (c fr') !! h = Some m
  ∧ (∀ m', currMetrics reset fr' !! h = Some m' → m' = m)
  ∧ Metric.Label (mheap fr' !!! m) = Metric.Label (mheap fr !!! m).
Proof.
  revert fr. induction inserts as [|i rest IH]; intros fr Hlt Hc Hw; simpl.
  - by intros [= <-].
  - pose proof (insertOne_reuses reset i fr) as H1.
    destruct (insertOne reset i fr) as [fr1|fr1 e1|]; simpl in *; [| |done].
    + destruct (H1 fr1 h m Hlt Hc Hw eq_refl) as (Hlt1 & Hc1 & Hw1 & HL1).
      intros Hrun. destruct (IH fr1 Hlt1 Hc1 Hw1 Hrun) as (? & ? & ? & HL).
      split_and!; try done. by rewrite HL.
    + intros [= <-]. by apply H1.
Qed.

Lemma deleteLoop_reuses reset deletions fr fr' h (m : loc) :
  (∀ m', currMetrics reset fr !! h = Some m' → m' = m) →
  deleteLoop reset deletions fr = Some fr' →
  (∀ m', currMetrics reset fr' !! h = Some m' → m' = m)
  ∧ mheap fr' = mheap fr.
Proof.
  revert fr. induction deletions as [|d rest IH]; intros fr Hw; simpl.
  - by intros [= <-].
  - destruct (deleteOne reset d fr) as [fr1|] eqn:H1; simpl; [|done].
    destruct (deleteOne_reuses reset d fr fr1 h m Hw H1) as [Hw1 E1].
    intros Hrun. destruct (IH fr1 Hw1 Hrun) as [? E]. split; [done|congruence].
Qed.

(** X18.  Cached metrics are reused.  A hash that the by-hash index holds
    before and after an Update, with or without reset, is held with the same
    metric record, and the labels of that record are the ones it had before
    the call: an insert of a cached hash writes the value and the timestamp
    only, whatever label names and values its key carries. *)
Theorem Update_reuses_cached_metric
    (reset : bool) (inserts : list Insert) (deletions : list Key)
    (st st' : State) (e : option error) (h : Z) (m m' : loc) :
  (m < length (metricHeap st))%nat →
  metrics (cache st) !! h = Some m →
  Update reset inserts deletions st = Some (st', e) →
  metrics (cache st') !! h = Some m' →
  m' = m
  ∧ Metric.Label (metricHeap st' !!! m) = Metric.Label (metricHeap st !!! m).
Proof.
  intros Hlt Hc. unfold Update.
  assert (∀ m', currMetrics reset (enter st) !! h = Some m' → m' = m) as Hw.
  { intros x. unfold currMetrics, curr. destruct reset; simpl.
    - by rewrite lookup_empty.
    - congruence. }
  pose proof (λ fr', insertLoop_reuses reset inserts (enter st) fr' h m
                       Hlt Hc Hw) as Hins.
  destruct (insertLoop reset inserts (enter st)) as [fr1|fr1 e1|]; [| |done].
  - destruct (Hins fr1 eq_refl) as (Hlt1 & Hc1 & Hw1 & HL1).
    destruct (deleteLoop reset deletions fr1) as [fr2|] eqn:H2; simpl; [|done].
    destruct (deleteLoop_reuses reset deletions fr1 fr2 h m Hw1 H2) as [Hw2 E2].
    intros [= <- _]. simpl. intros Hm'. split; [by apply Hw2|].
    by rewrite E2.
  - destruct (Hins fr1 eq_refl) as (Hlt1 & Hc1 & Hw1 & HL1).
    intros [= <- _]. simpl. intros Hm'. split; [congruence|done].
Qed.

Lemma Update_reuses_cached_metric_witness :
  0%nat = 0%nat
  ∧ Metric.Label
      (metricHeap (stateAfter
         (Update true [gauge sepInName 2; gauge (keyA "2") 3] [keyA "9"]
            (stateAfter (Update false [gauge sepInValue 1] [] emptyState))))
       !!! 0%nat)
    = Metric.Label
        (metricHeap (stateAfter (Update false [gauge sepInValue 1] [] emptyState))
         !!! 0%nat).
Proof.
  refine (Update_reuses_cached_metric true
            [gauge sepInName 2; gauge (keyA "2") 3] [keyA "9"]
            (stateAfter (Update false [gauge sepInValue 1] [] emptyState)) _
            None (default 0 (hash sepInValue)) 0%nat 0%nat _ _ _ _).
  - vm_compute. lia.
  - vm_compute. reflexivity.
  - vm_compute. reflexivity.
  - vm_compute. reflexivity.
Defined.

(** Two keys that the digest cannot tell apart share one metric: the insert
    of the second writes its value into the metric of the first, whose labels
    stay, and files no metric under the second's family name. *)
Example aliasing_key_writes_the_other_metric :
  ∃ st' mf,
    Update false [gauge sepInName 2] []
      (stateAfter (Update false [gauge sepInValue 1] [] emptyState))
    = Some (st', None)
    ∧ metricHeap st'
      = [Metric.Make [("x"%string, string_of_list_byte [x79; xff; x7a])]
           (Some 2%float) None None None]
    ∧ metricFamilyByName (cache st') !! FQName sepInName = Some mf
    ∧ membersAt (familyHeap st') mf = [].
Proof.
  exists (stateAfter
            (Update false [gauge sepInName 2] []
               (stateAfter (Update false [gauge sepInValue 1] [] emptyState)))),
         1%nat.
  repeat (split; [vm_compute; reflexivity|]). vm_compute. reflexivity.
Qed.
